(** * rehearse: tempo/pitch render orchestration and multi-stem playback

    A shallow embedding of the React prototypes of the rehearse player:

    - [Latest]  : the component in [src/soundtouchjs.d.ts] (lines 20-348),
                  with [baseBpm], [lastProcessedBpm], [handlePlayClick];
    - [Legacy]  : the first two components of [src/App.tsx] (lines 1-240 and
                  241-434), with the constant [BASE_BPM] and the
                  "Apply Tempo/Pitch" button;
    - [Players] : the third component of [src/App.tsx] (lines 435-526),
                  built on [Tone.Players].

    React state is a record of hook values.  A handler is a closure over the
    values of the render that created it: every handler below takes that
    snapshot as its first argument [c], reads state from [c] only, and writes
    through the setters into the current state.  The [TrackState] objects are
    JavaScript objects shared by reference, so they live in a store and the
    [tracks] record holds their addresses.

    Numbers held by the hooks ([bpm], [pitchSemitones], a song's [tempo]) are
    integers; the two ratios handed to SoundTouch are real numbers, with
    [Math.pow(2, x)] read as [Rpower 2 x].  What lies outside the repository
    (fetching and decoding, the SoundTouch filter, the audio clock) is a
    parameter, [Env].

    A handler ([handlePlay], [loadBuffers], [processAllTracks], ...) is the
    async function run to its end (or to its throw) with nothing happening
    while it waits; the one deferred call, the [setTimeout] of
    [loadBuffers], is an entry of a timer queue that a later event runs.
    Where something can happen during a wait, the handler is cut at its
    [await]s: [startSession] is [handlePlay] after [Tone.start()], and
    [Interleaved] runs the first prototype task by task.  The audio clock
    does not move while a handler waits: where a result names the clock, it
    is the clock [handlePlay] reads when it runs its loop. *)

From Stdlib Require Import List ZArith Bool Ascii String Lia Reals Lra.
Import ListNotations.

(** ** Data model *)

Inductive TrackName : Type := bass | drums | other | vocals.

Definition TrackName_eqb (a b : TrackName) : bool :=
  match a, b with
  | bass, bass | drums, drums | other, other | vocals, vocals => true
  | _, _ => false
  end.

(** [Object.keys] of a tracks record: insertion order of [INITIAL_TRACKS],
    kept by every spread copy. *)
Definition trackNames : list TrackName := [bass; drums; other; vocals].

Record Song : Type := mkSong {
  title : string;
  artist : string;
  key : string;
  tempo : Z }.

Definition Song_eqb (a b : Song) : bool :=
  String.eqb (title a) (title b) && String.eqb (artist a) (artist b)
  && String.eqb (key a) (key b) && Z.eqb (tempo a) (tempo b).

(** Per-channel PCM data.  No handler computes on samples. *)
Definition Samples : Type := list (list Z).

Record AudioBuffer : Type := mkAudioBuffer {
  numberOfChannels : nat;
  bufLength : Z;            (* AudioBuffer.length, in sample frames *)
  sampleRate : Z;
  channelData : Samples }.

Record TrackState : Type := mkTrackState {
  buffer : option AudioBuffer;
  processedBuffer : option AudioBuffer;
  muted : bool }.

Definition loc : Type := nat.

(** [Record<TrackName, TrackState>]: one object reference per stem. *)
Definition Tracks : Type := TrackName -> loc.

Definition INITIAL_TRACKS : Tracks :=
  fun t => match t with bass => 0 | drums => 1 | other => 2 | vocals => 3 end.

Definition updTrack (tr : Tracks) (t : TrackName) (l : loc) : Tracks :=
  fun t' => if TrackName_eqb t' t then l else tr t'.

(** ** The audio graph *)

Inductive Output : Type :=
| Destination            (* audioCtx.destination *)
| DetachedGain.          (* audioCtx.createGain(), connected to nothing *)

Record SourceNode : Type := mkSourceNode {
  src_track : TrackName;   (* the stem the node was created for *)
  src_buffer : AudioBuffer;
  src_output : Output;
  src_when : Z;            (* argument of start() *)
  src_stopped : bool }.

Definition Handle : Type := nat.   (* index into the list of created nodes *)

(** One construction of a SoundTouch filter with its two ratios. *)
Record EngineCall : Type := mkEngineCall {
  call_input : AudioBuffer;
  call_tempo : R;
  call_pitch : R }.

(** ** React state and the world around it *)

Record State : Type := mkState {
  selectedSong : option Song;
  tracks : Tracks;
  isLoading : bool;
  isProcessing : bool;
  isPlaying : bool;
  baseBpm : Z;
  bpm : Z;
  pitchSemitones : Z;
  sources : list Handle;
  lastProcessedBpm : option Z;
  lastProcessedPitch : Z }.

Record World : Type := mkWorld {
  heap : loc -> TrackState;       (* the TrackState objects *)
  nextLoc : loc;                  (* first unused address *)
  nodes : list SourceNode;        (* every AudioBufferSourceNode created *)
  currentTime : Z;                (* audioCtx.currentTime *)
  engineCalls : list EngineCall;  (* SoundTouch renders, oldest first *)
  renderPasses : nat;             (* calls of processAllTracks *)
  timers : list State }.          (* pending setTimeout(() => handlePlay()) *)

Record Sys : Type := mkSys { st : State; wd : World }.

(** External collaborators. *)
Record Env : Type := mkEnv {
  (* fetch + arrayBuffer + decodeAudioData of one stem; None: rejected *)
  decodeAudioData : Song -> TrackName -> option AudioBuffer;
  (* samples delivered by the SoundTouch filter node; None: render rejected *)
  soundTouch : AudioBuffer -> R -> R -> option Samples;
  (* how far the audio clock moves while one source node is set up *)
  quantum : Z }.

(** ** Handlers as state transformers that may throw

    Effects done before a throw stay done, as in JavaScript. *)

Inductive Result (A : Type) : Type :=
| Ok (a : A)
| Throw.
Arguments Ok {A} a.
Arguments Throw {A}.

Definition M (A : Type) : Type := Sys -> Result A * Sys.

Definition ret {A} (a : A) : M A := fun s => (Ok a, s).

Definition throw {A} : M A := fun s => (Throw, s).

Definition bind {A B} (m : M A) (k : A -> M B) : M B :=
  fun s => match m s with
           | (Ok a, s') => k a s'
           | (Throw, s') => (Throw, s')
           end.

Declare Scope handler_scope.
Delimit Scope handler_scope with handler.
Notation "x <- c1 ;; c2" := (bind c1 (fun x => c2))
  (at level 61, c1 at next level, right associativity) : handler_scope.
Notation "c1 ;; c2" := (bind c1 (fun _ => c2))
  (at level 61, right associativity) : handler_scope.
Local Open Scope handler_scope.

(** [for (const x of l) body] *)
Fixpoint forEach {A} (l : list A) (body : A -> M unit) : M unit :=
  match l with
  | [] => ret tt
  | x :: r => body x ;; forEach r body
  end.

(** The state a handler ends in, whether it returns or throws. *)
Definition exec {A} (m : M A) (s : Sys) : Sys := snd (m s).

(** *** Hook setters *)

Definition modState (f : State -> State) : M unit :=
  fun s => (Ok tt, mkSys (f (st s)) (wd s)).

Definition modWorld (f : World -> World) : M unit :=
  fun s => (Ok tt, mkSys (st s) (f (wd s))).

Definition setSelectedSong (v : option Song) : M unit :=
  modState (fun s => mkState v (tracks s) (isLoading s) (isProcessing s)
    (isPlaying s) (baseBpm s) (bpm s) (pitchSemitones s) (sources s)
    (lastProcessedBpm s) (lastProcessedPitch s)).

Definition setTracks (v : Tracks) : M unit :=
  modState (fun s => mkState (selectedSong s) v (isLoading s) (isProcessing s)
    (isPlaying s) (baseBpm s) (bpm s) (pitchSemitones s) (sources s)
    (lastProcessedBpm s) (lastProcessedPitch s)).

Definition setIsLoading (v : bool) : M unit :=
  modState (fun s => mkState (selectedSong s) (tracks s) v (isProcessing s)
    (isPlaying s) (baseBpm s) (bpm s) (pitchSemitones s) (sources s)
    (lastProcessedBpm s) (lastProcessedPitch s)).

Definition setIsProcessing (v : bool) : M unit :=
  modState (fun s => mkState (selectedSong s) (tracks s) (isLoading s) v
    (isPlaying s) (baseBpm s) (bpm s) (pitchSemitones s) (sources s)
    (lastProcessedBpm s) (lastProcessedPitch s)).

Definition setIsPlaying (v : bool) : M unit :=
  modState (fun s => mkState (selectedSong s) (tracks s) (isLoading s)
    (isProcessing s) v (baseBpm s) (bpm s) (pitchSemitones s) (sources s)
    (lastProcessedBpm s) (lastProcessedPitch s)).

Definition setBaseBpm (v : Z) : M unit :=
  modState (fun s => mkState (selectedSong s) (tracks s) (isLoading s)
    (isProcessing s) (isPlaying s) v (bpm s) (pitchSemitones s) (sources s)
    (lastProcessedBpm s) (lastProcessedPitch s)).

Definition setBpm (v : Z) : M unit :=
  modState (fun s => mkState (selectedSong s) (tracks s) (isLoading s)
    (isProcessing s) (isPlaying s) (baseBpm s) v (pitchSemitones s) (sources s)
    (lastProcessedBpm s) (lastProcessedPitch s)).

Definition setPitchSemitones (v : Z) : M unit :=
  modState (fun s => mkState (selectedSong s) (tracks s) (isLoading s)
    (isProcessing s) (isPlaying s) (baseBpm s) (bpm s) v (sources s)
    (lastProcessedBpm s) (lastProcessedPitch s)).

Definition setSources (v : list Handle) : M unit :=
  modState (fun s => mkState (selectedSong s) (tracks s) (isLoading s)
    (isProcessing s) (isPlaying s) (baseBpm s) (bpm s) (pitchSemitones s) v
    (lastProcessedBpm s) (lastProcessedPitch s)).

Definition setLastProcessedBpm (v : option Z) : M unit :=
  modState (fun s => mkState (selectedSong s) (tracks s) (isLoading s)
    (isProcessing s) (isPlaying s) (baseBpm s) (bpm s) (pitchSemitones s)
    (sources s) v (lastProcessedPitch s)).

Definition setLastProcessedPitch (v : Z) : M unit :=
  modState (fun s => mkState (selectedSong s) (tracks s) (isLoading s)
    (isProcessing s) (isPlaying s) (baseBpm s) (bpm s) (pitchSemitones s)
    (sources s) (lastProcessedBpm s) v).

(** *** Object store *)

Definition updHeap (h : loc -> TrackState) (l : loc) (v : TrackState)
  : loc -> TrackState :=
  fun l' => if Nat.eqb l' l then v else h l'.

Definition withHeap (h : loc -> TrackState) (n : loc) (w : World) : World :=
  mkWorld h n (nodes w) (currentTime w) (engineCalls w) (renderPasses w)
    (timers w).

(** [tracks[track]]: read the object behind a reference. *)
Definition deref (l : loc) : M TrackState :=
  fun s => (Ok (heap (wd s) l), s).

(** [obj.buffer = b]: assignment into the shared object. *)
Definition assignBuffer (l : loc) (b : AudioBuffer) : M unit :=
  modWorld (fun w =>
    withHeap (updHeap (heap w) l
      (mkTrackState (Some b) (processedBuffer (heap w l)) (muted (heap w l))))
      (nextLoc w) w).

(** [obj.processedBuffer = b]: assignment into the shared object. *)
Definition assignProcessedBuffer (l : loc) (b : AudioBuffer) : M unit :=
  modWorld (fun w =>
    withHeap (updHeap (heap w) l
      (mkTrackState (buffer (heap w l)) (Some b) (muted (heap w l))))
      (nextLoc w) w).

(** An object literal: a fresh object. *)
Definition alloc (v : TrackState) : M loc :=
  fun s => (Ok (nextLoc (wd s)),
            mkSys (st s)
              (withHeap (updHeap (heap (wd s)) (nextLoc (wd s)) v)
                 (S (nextLoc (wd s))) (wd s))).

(** *** Audio context *)

Definition withNodes (ns : list SourceNode) (t : Z) (w : World) : World :=
  mkWorld (heap w) (nextLoc w) ns t (engineCalls w) (renderPasses w)
    (timers w).

Definition withEngine (calls : list EngineCall) (passes : nat) (w : World)
  : World :=
  mkWorld (heap w) (nextLoc w) (nodes w) (currentTime w) calls passes
    (timers w).

Definition withTimers (ts : list State) (w : World) : World :=
  mkWorld (heap w) (nextLoc w) (nodes w) (currentTime w) (engineCalls w)
    (renderPasses w) ts.

(** [audioCtx.currentTime] *)
Definition readCurrentTime : M Z :=
  fun s => (Ok (currentTime (wd s)), s).

(** The four lines
      [const source = audioCtx.createBufferSource();]
      [source.buffer = pb;  source.connect(out);  source.start(when);]
    The new node is the last of [nodes]; the clock moves on meanwhile. *)
Definition startNewSource (E : Env) (track : TrackName) (pb : AudioBuffer)
  (out : Output) (when_ : Z) : M Handle :=
  fun s => (Ok (List.length (nodes (wd s))),
            mkSys (st s)
              (withNodes (nodes (wd s) ++ [mkSourceNode track pb out when_ false])
                 (currentTime (wd s) + quantum E)%Z (wd s))).

Definition stopNode (n : SourceNode) : SourceNode :=
  mkSourceNode (src_track n) (src_buffer n) (src_output n) (src_when n) true.

Fixpoint stopAt (ns : list SourceNode) (h : Handle) : list SourceNode :=
  match ns, h with
  | [], _ => []
  | n :: r, O => stopNode n :: r
  | n :: r, S h' => n :: stopAt r h'
  end.

(** [source.stop()] *)
Definition stopSource (h : Handle) : M unit :=
  modWorld (fun w => withNodes (stopAt (nodes w) h) (currentTime w) w).

(** A node is live when it was started and not stopped. *)
Definition isLive (w : World) (h : Handle) : bool :=
  match nth_error (nodes w) h with
  | Some n => negb (src_stopped n)
  | None => false
  end.

(** [new OfflineAudioContext(numberOfChannels, length, sampleRate)] *)
Record OfflineAudioContext : Type := mkOfflineAudioContext {
  ctx_numberOfChannels : nat;
  ctx_length : Z;
  ctx_sampleRate : Z }.

(** [new SoundTouch(rate)] with [tempo] and [pitch] assigned, wrapped in a
    [SimpleFilter] over the source buffer, turned into a node of
    [offlineCtx], connected to its destination, and rendered by
    [offlineCtx.startRendering()].  The rendered buffer has the format of
    the offline context; its samples come from the filter. *)
Definition startRendering (E : Env) (offlineCtx : OfflineAudioContext)
  (source : AudioBuffer) (tempoRatio pitchRatio : R) : M AudioBuffer :=
  fun s =>
    let s' := mkSys (st s)
                (withEngine
                   (engineCalls (wd s) ++ [mkEngineCall source tempoRatio pitchRatio])
                   (renderPasses (wd s)) (wd s)) in
    match soundTouch E source tempoRatio pitchRatio with
    | Some data =>
        (Ok (mkAudioBuffer (ctx_numberOfChannels offlineCtx)
               (ctx_length offlineCtx) (ctx_sampleRate offlineCtx) data), s')
    | None => (Throw, s')
    end.

(** Bookkeeping: a render pass begins. *)
Definition notePass : M unit :=
  modWorld (fun w => withEngine (engineCalls w) (S (renderPasses w)) w).

(** [setTimeout(() => { handlePlay(); }, 0)] from the render [c]. *)
Definition setTimeout (c : State) : M unit :=
  modWorld (fun w => withTimers (timers w ++ [c]) w).

(** ** The song select

    The options of the select carry [`${song.artist}-${song.title}`]; its
    [onChange] splits the chosen value at the hyphens and looks the first two
    parts up in the library (App.tsx 160-169, soundtouchjs.d.ts 229-237). *)

Definition hyphen : Ascii.ascii := "-"%char.

(** [s.split(sep)] for a one-character separator. *)
Fixpoint split (sep : Ascii.ascii) (s : string) : list string :=
  match s with
  | EmptyString => [EmptyString]
  | String ch rest =>
      if Ascii.eqb ch sep then EmptyString :: split sep rest
      else match split sep rest with
           | [] => [String ch EmptyString]
           | w :: ws => String ch w :: ws
           end
  end.

(** The [value] of a song's option. *)
Definition optionValue (song : Song) : string :=
  (artist song ++ String hyphen (title song))%string.

(** [const [artist, title] = value.split("-")] and [library.find(...)].
    With a single part [title] is undefined and no song matches. *)
Definition findSong (library : list Song) (value : string) : option Song :=
  match split hyphen value with
  | artist_ :: title_ :: _ =>
      find (fun s => String.eqb (artist s) artist_
                     && String.eqb (title s) title_) library
  | _ => None
  end.

(** Does the character occur in the string? *)
Fixpoint occurs (ch : Ascii.ascii) (s : string) : bool :=
  match s with
  | EmptyString => false
  | String c rest => Ascii.eqb c ch || occurs ch rest
  end.

(** ** Code shared by [Legacy] and [Latest]

    [handlePlay] and [handleStop] have the same text in App.tsx (113-142,
    331-360) and soundtouchjs.d.ts (151-172, 192-198); so have the loop body
    of [loadBuffers], the updater of [toggleMute] and, up to the divisor of
    the tempo ratio, the loop body of [processAllTracks]. *)

Section Shared.

Variable E : Env.

(** The body of the loop of [handlePlay]. *)
Definition playTrack (c : State) (now : Z) (track : TrackName)
  (newSources : list Handle) : M (list Handle) :=
  trackData <- deref (tracks c track) ;;
  match processedBuffer trackData with
  | None => ret newSources                                   (* continue *)
  | Some pb =>
      source <- startNewSource E track pb
                  (if muted trackData then DetachedGain else Destination)
                  now ;;
      ret (newSources ++ [source])
  end.

Fixpoint playLoop (c : State) (now : Z) (keys : list TrackName)
  (newSources : list Handle) : M (list Handle) :=
  match keys with
  | [] => ret newSources
  | track :: rest =>
      newSources' <- playTrack c now track newSources ;;
      playLoop c now rest newSources'
  end.

(** [handlePlay] with nothing happening while it waits for [Tone.start()]:
    the guard, then [startSession] below. *)
Definition handlePlay (c : State) : M unit :=
  if isPlaying c then ret tt
  else
    (* await Tone.start() *)
    now <- readCurrentTime ;;
    newSources <- playLoop c now trackNames [] ;;
    setSources newSources ;;
    setIsPlaying true.

(** What [handlePlay] does once [Tone.start()] has resolved.  The guard was
    passed before the wait; the clock, the tracks objects and the nodes are
    read when the handler resumes. *)
Definition startSession (c : State) : M unit :=
  now <- readCurrentTime ;;
  newSources <- playLoop c now trackNames [] ;;
  setSources newSources ;;
  setIsPlaying true.

Definition handleStop (c : State) : M unit :=
  forEach (sources c) stopSource ;;
  setSources [] ;;
  setIsPlaying false.

(** The timer task: the oldest pending callback runs. *)
Definition runTimer : M unit :=
  fun s => match timers (wd s) with
           | [] => (Ok tt, s)
           | c :: rest =>
               handlePlay c (mkSys (st s) (withTimers rest (wd s)))
           end.

(** The body of the loop of [loadBuffers]. *)
Definition loadTrack (song : Song) (newTracks : Tracks)
  (track : TrackName) : M unit :=
  match decodeAudioData E song track with
  | None => throw
  | Some audioBuffer =>
      assignBuffer (newTracks track) audioBuffer ;;
      assignProcessedBuffer (newTracks track) audioBuffer
  end.

(** The body of the loop of [processAllTracks]; [base] is [BASE_BPM] in
    App.tsx and the closure's [baseBpm] in soundtouchjs.d.ts. *)
Definition renderTrack (base : Z) (c : State) (newTracks : Tracks)
  (track : TrackName) : M unit :=
  ts <- deref (newTracks track) ;;
  match buffer ts with
  | None => ret tt                                            (* continue *)
  | Some originalBuffer =>
      let tempoRatio := (IZR (bpm c) / IZR base)%R in
      let pitchRatio := Rpower 2 (IZR (pitchSemitones c) / 12) in
      let offlineCtx :=
        mkOfflineAudioContext (numberOfChannels originalBuffer)
          (bufLength originalBuffer) (sampleRate originalBuffer) in
      renderedBuffer <-
        startRendering E offlineCtx originalBuffer tempoRatio pitchRatio ;;
      assignProcessedBuffer (newTracks track) renderedBuffer
  end.

(** The updater [prev => ({ ...prev, [track]: { ...prev[track], muted:
    !prev[track].muted } })] passed to [setTracks]: it reads the current
    state and builds a fresh object for [track]. *)
Definition flipMuted (track : TrackName) : M unit :=
  fun s =>
    let prev := tracks (st s) in
    (old <- deref (prev track) ;;
     fresh <- alloc (mkTrackState (buffer old) (processedBuffer old)
                       (negb (muted old))) ;;
     setTracks (updTrack prev track fresh)) s.

End Shared.

Definition initialWorld : World :=
  mkWorld (fun _ => mkTrackState None None false) 4 [] 0 [] 0 [].

(** ** The latest prototype (src/soundtouchjs.d.ts, lines 20-348) *)

Module Latest.

Definition BASE_BPM : Z := 100.

Definition initialState : State :=
  mkState None INITIAL_TRACKS false false false BASE_BPM BASE_BPM 0 []
    None 0.

Definition initialSys : Sys := mkSys initialState initialWorld.

Section Handlers.

Variable E : Env.

Definition loadBuffers (c : State) (song : Song) : M unit :=
  setIsLoading true ;;
  let newTracks := INITIAL_TRACKS in        (* { ...INITIAL_TRACKS } *)
  forEach trackNames (loadTrack E song newTracks) ;;
  setTracks newTracks ;;
  setLastProcessedBpm (Some (tempo song)) ;;
  setLastProcessedPitch 0 ;;
  setIsLoading false ;;
  setTimeout c.

Definition processAllTracks (c : State) : M unit :=
  notePass ;;
  setIsProcessing true ;;
  let newTracks := tracks c in                       (* { ...tracks } *)
  forEach trackNames (renderTrack E (baseBpm c) c newTracks) ;;
  setTracks newTracks ;;
  setLastProcessedBpm (Some (bpm c)) ;;
  setLastProcessedPitch (pitchSemitones c) ;;
  setIsProcessing false.

Definition needsProcessing (c : State) : bool :=
  match lastProcessedBpm c with
  | None => true
  | Some last =>
      negb (Z.eqb (bpm c) last)
      || negb (Z.eqb (pitchSemitones c) (lastProcessedPitch c))
  end.

Definition handlePlayClick (c : State) : M unit :=
  if isPlaying c then handleStop c
  else
    (if needsProcessing c then processAllTracks c else ret tt) ;;
    handlePlay E c.

Definition toggleMute (c : State) (track : TrackName) : M unit :=
  (if isPlaying c then handleStop c else ret tt) ;;
  flipMuted track.

(** The two effects on [selectedSong]; they run when the selection
    changed. *)
Definition songEffects (c : State) (song : Song) : M unit :=
  let run := setBpm (tempo song) ;;
             setBpm (tempo song) ;; setBaseBpm (tempo song) in
  match selectedSong c with
  | Some old => if Song_eqb old song then ret tt else run
  | None => run
  end.

(** [onChange] of the song select, for a song found in the library. *)
Definition selectSong (c : State) (song : Song) : M unit :=
  setSelectedSong (Some song) ;;
  songEffects c song ;;
  loadBuffers c song.

(** [onChange] of the two range inputs. *)
Definition changeBpm (c : State) (v : Z) : M unit :=
  (if isPlaying c then handleStop c else ret tt) ;;
  setBpm v.

Definition changePitch (c : State) (v : Z) : M unit :=
  (if isPlaying c then handleStop c else ret tt) ;;
  setPitchSemitones v.

End Handlers.

(** What the user and the timer queue can make happen. *)
Inductive Event : Type :=
| SelectSong (song : Song)
| PlayClick
| ToggleMute (track : TrackName)
| ChangeBpm (v : Z)
| ChangePitch (v : Z)
| TimerFires.

Definition dispatch (E : Env) (e : Event) (c : State) : M unit :=
  match e with
  | SelectSong song => selectSong E c song
  | PlayClick => handlePlayClick E c
  | ToggleMute track => toggleMute c track
  | ChangeBpm v => changeBpm c v
  | ChangePitch v => changePitch c v
  | TimerFires => runTimer E
  end.

(** An event is handled by the handlers of the current render. *)
Definition step (E : Env) (s : Sys) (e : Event) : Sys :=
  exec (dispatch E e (st s)) s.

Definition run (E : Env) (es : list Event) (s : Sys) : Sys :=
  fold_left (step E) es s.

(** [onChange] of the song select for any chosen value. *)
Definition onSongChange (E : Env) (library : list Song) (c : State)
  (value : string) : M unit :=
  match findSong library value with
  | Some song => selectSong E c song
  | None => ret tt
  end.

(** The block of sliders, switches and the play button is rendered when a
    song is selected and no load is under way. *)
Definition controlsShown (c : State) : bool :=
  match selectedSong c with
  | None => false
  | Some _ => negb (isLoading c)
  end.

(** Can the user cause the event in the render [c]?  Every control carries
    [disabled={isProcessing || isLoading}]; the range inputs deliver values
    between their [min] and [max]. *)
Definition enabled (c : State) (e : Event) : bool :=
  match e with
  | SelectSong _ => negb (isProcessing c || isLoading c)
  | PlayClick | ToggleMute _ =>
      controlsShown c && negb (isProcessing c || isLoading c)
  | ChangeBpm v =>
      controlsShown c && negb (isProcessing c || isLoading c)
      && Z.leb (baseBpm c - 50) v && Z.leb v (baseBpm c + 50)
  | ChangePitch v =>
      controlsShown c && negb (isProcessing c || isLoading c)
      && Z.leb (-12) v && Z.leb v 12
  | TimerFires => true
  end.

(** Every event of the run is one the user could cause when it happens. *)
Fixpoint feasible (E : Env) (es : list Event) (s : Sys) : bool :=
  match es with
  | [] => true
  | e :: rest => enabled (st s) e && feasible E rest (step E s e)
  end.

End Latest.

(** ** The first prototypes (src/App.tsx, lines 1-240 and 241-434)

    They declare a subset of the hooks of [State]; their handlers neither
    read nor write [baseBpm], [lastProcessedBpm] and [lastProcessedPitch]. *)

Module Legacy.

Definition BASE_BPM : Z := 95.

Definition initialState : State :=
  mkState None INITIAL_TRACKS false false false BASE_BPM BASE_BPM 0 []
    None 0.

Definition initialSys : Sys := mkSys initialState initialWorld.

Section Handlers.

Variable E : Env.

Definition loadBuffers (c : State) (song : Song) : M unit :=
  setIsLoading true ;;
  let newTracks := INITIAL_TRACKS in        (* { ...INITIAL_TRACKS } *)
  forEach trackNames (loadTrack E song newTracks) ;;
  setTracks newTracks ;;
  setIsLoading false.

Definition processAllTracks (c : State) : M unit :=
  notePass ;;
  setIsProcessing true ;;
  let newTracks := tracks c in                       (* { ...tracks } *)
  forEach trackNames (renderTrack E BASE_BPM c newTracks) ;;
  setTracks newTracks ;;
  setIsProcessing false.

Definition toggleMute (c : State) (track : TrackName) : M unit :=
  flipMuted track.

(** The effect on [selectedSong]. *)
Definition songEffects (c : State) (song : Song) : M unit :=
  match selectedSong c with
  | Some old => if Song_eqb old song then ret tt else setBpm (tempo song)
  | None => setBpm (tempo song)
  end.

Definition selectSong (c : State) (song : Song) : M unit :=
  setSelectedSong (Some song) ;;
  songEffects c song ;;
  loadBuffers c song.

End Handlers.

(** [onChange] of the two range inputs. *)
Definition changeBpm (c : State) (v : Z) : M unit := setBpm v.

Definition changePitch (c : State) (v : Z) : M unit := setPitchSemitones v.

(** What the user can make happen. *)
Inductive Event : Type :=
| SelectSong (song : Song)
| Apply
| PlayAll
| StopAll
| ToggleMute (track : TrackName)
| ChangeBpm (v : Z)
| ChangePitch (v : Z).

(** The handler of each event, run to its end with nothing happening while
    it waits. *)
Definition dispatch (E : Env) (e : Event) (c : State) : M unit :=
  match e with
  | SelectSong song => selectSong E c song
  | Apply => processAllTracks E c
  | PlayAll => handlePlay E c
  | StopAll => handleStop c
  | ToggleMute track => toggleMute c track
  | ChangeBpm v => changeBpm c v
  | ChangePitch v => changePitch c v
  end.

End Legacy.

(** ** Tasks of the first prototype (src/App.tsx, lines 1-240)

    An async handler runs up to its next [await] in one task; what follows
    the [await] is a task of its own, and tasks of other handlers may run in
    between.  [handlePlay] waits once, for [Tone.start()], between its guard
    and its loop; [loadBuffers] waits for every stem; [processAllTracks]
    waits for every render.  The handlers of [Legacy] above are these tasks
    run back to back. *)

Module Interleaved.

(** A [loadBuffers] or a [processAllTracks] that waits. *)
Inductive Frame : Type :=
| AwaitStem (song : Song) (rest : list TrackName)
    (* loadBuffers: the stem at the head of [rest] is being fetched and
       decoded; newTracks is { ...INITIAL_TRACKS } *)
| AwaitRender (c : State) (track : TrackName) (originalBuffer : AudioBuffer)
    (rest : list TrackName).
    (* processAllTracks of the render [c]: offlineCtx.startRendering() of
       [track] is awaited; the keys of [rest] are still to visit *)

Record Config : Type := mkConfig {
  sys : Sys;
  starting : list State;   (* renders whose handlePlay waits for Tone.start() *)
  waiting : list Frame }.

Definition initialConfig : Config := mkConfig Legacy.initialSys [] [].

(** The loop of [processAllTracks] from the keys [keys] on, up to the next
    [await] or to the end of the handler. *)
Fixpoint renderFrom (c : State) (keys : list TrackName) (s : Sys)
  : Sys * option Frame :=
  match keys with
  | [] => (exec (setTracks (tracks c) ;; setIsProcessing false) s, None)
  | track :: rest =>
      match buffer (heap (wd s) (tracks c track)) with
      | None => renderFrom c rest s                           (* continue *)
      | Some originalBuffer =>
          (s, Some (AwaitRender c track originalBuffer rest))
      end
  end.

(** The handler behind a frame resumes and runs to its next [await], to its
    end or to its throw. *)
Definition resume (E : Env) (f : Frame) (s : Sys) : Sys * option Frame :=
  match f with
  | AwaitStem song [] => (s, None)
  | AwaitStem song (track :: rest) =>
      match loadTrack E song INITIAL_TRACKS track s with
      | (Throw, s') => (s', None)
      | (Ok _, s') =>
          match rest with
          | [] => (exec (setTracks INITIAL_TRACKS ;; setIsLoading false) s',
                   None)
          | _ :: _ => (s', Some (AwaitStem song rest))
          end
      end
  | AwaitRender c track originalBuffer rest =>
      let tempoRatio := (IZR (bpm c) / IZR Legacy.BASE_BPM)%R in
      let pitchRatio := Rpower 2 (IZR (pitchSemitones c) / 12) in
      let offlineCtx :=
        mkOfflineAudioContext (numberOfChannels originalBuffer)
          (bufLength originalBuffer) (sampleRate originalBuffer) in
      match (renderedBuffer <-
               startRendering E offlineCtx originalBuffer tempoRatio
                 pitchRatio ;;
             assignProcessedBuffer (tracks c track) renderedBuffer) s with
      | (Throw, s') => (s', None)
      | (Ok _, s') => renderFrom c rest s'
      end
  end.

Definition removeAt {A} (i : nat) (l : list A) : list A :=
  firstn i l ++ skipn (S i) l.

Definition replaceAt {A} (i : nat) (x : option A) (l : list A) : list A :=
  firstn i l ++ match x with Some y => [y] | None => [] end ++ skipn (S i) l.

(** A click or a change, handled by the current render up to the first
    [await] of its handler. *)
Definition click (E : Env) (e : Legacy.Event) (k : Config) : Config :=
  let c := st (sys k) in
  match e with
  | Legacy.SelectSong song =>
      mkConfig
        (exec (setSelectedSong (Some song) ;; Legacy.songEffects c song ;;
               setIsLoading true) (sys k))
        (starting k) (waiting k ++ [AwaitStem song trackNames])
  | Legacy.Apply =>
      let (s', f) :=
        renderFrom c trackNames
          (exec (notePass ;; setIsProcessing true) (sys k)) in
      mkConfig s' (starting k)
        (waiting k ++ match f with Some f' => [f'] | None => [] end)
  | Legacy.PlayAll =>
      if isPlaying c then k
      else mkConfig (sys k) (starting k ++ [c]) (waiting k)
  | Legacy.StopAll | Legacy.ToggleMute _ | Legacy.ChangeBpm _
  | Legacy.ChangePitch _ =>
      mkConfig (exec (Legacy.dispatch E e c) (sys k)) (starting k) (waiting k)
  end.

(** Any click may come at any time, whether or not its control is shown,
    and the waits end in any order. *)
Inductive Task : Type :=
| Click (e : Legacy.Event)
| ToneStarted (i : nat)     (* Tone.start() of the i-th waiting handlePlay
                               resolves *)
| ToneRefused (i : nat)     (* it rejects: that handlePlay ends there *)
| Settled (i : nat).        (* the promise the i-th frame waits for *)

Definition perform (E : Env) (k : Config) (task : Task) : Config :=
  match task with
  | Click e => click E e k
  | ToneStarted i =>
      match nth_error (starting k) i with
      | None => k
      | Some c =>
          mkConfig (exec (startSession E c) (sys k))
            (removeAt i (starting k)) (waiting k)
      end
  | ToneRefused i => mkConfig (sys k) (removeAt i (starting k)) (waiting k)
  | Settled i =>
      match nth_error (waiting k) i with
      | None => k
      | Some f =>
          let (s', f') := resume E f (sys k) in
          mkConfig s' (starting k) (replaceAt i f' (waiting k))
      end
  end.

Definition run (E : Env) (tasks : list Task) (k : Config) : Config :=
  fold_left (perform E) tasks k.

(** Play All is never clicked while an earlier [handlePlay] still waits for
    [Tone.start()]. *)
Fixpoint oneStartAtATime (E : Env) (tasks : list Task) (k : Config) : bool :=
  match tasks with
  | [] => true
  | task :: rest =>
      match task, starting k with
      | Click Legacy.PlayAll, _ :: _ => false
      | _, _ => oneStartAtATime E rest (perform E k task)
      end
  end.

End Interleaved.

(** ** The Tone.Players prototype (src/App.tsx, lines 435-526)

    A [Tone.Player] is kept as the number of its sources that sound and its
    [mute] flag: [start] adds a sounding source, [stop] silences them all. *)

Module Players.

Record Player : Type := mkPlayer { voices : nat; mute : bool }.

Record State : Type := mkState {
  players : option (TrackName -> Player);
  isPlaying : bool;
  muteStates : TrackName -> bool }.

Definition start (ps : TrackName -> Player) (t : TrackName)
  : TrackName -> Player :=
  fun t' => if TrackName_eqb t' t
            then mkPlayer (S (voices (ps t'))) (mute (ps t'))
            else ps t'.

Definition stopAll (ps : TrackName -> Player) : TrackName -> Player :=
  fun t => mkPlayer 0 (mute (ps t)).

Definition setMute (ps : TrackName -> Player) (t : TrackName) (v : bool)
  : TrackName -> Player :=
  fun t' => if TrackName_eqb t' t then mkPlayer (voices (ps t')) v
            else ps t'.

Definition handlePlay (s : State) : State :=
  match players s with
  | None => s
  | Some ps =>
      (* await Tone.start() *)
      let ps := stopAll ps in                       (* Ensure no overlaps *)
      let ps := start ps bass in
      let ps := start ps drums in
      let ps := start ps other in
      let ps := start ps vocals in
      mkState (Some ps) true (muteStates s)
  end.

Definition handleStop (s : State) : State :=
  match players s with
  | None => s
  | Some ps => mkState (Some (stopAll ps)) false (muteStates s)
  end.

Definition toggleMute (s : State) (track : TrackName) : State :=
  match players s with
  | None => s
  | Some ps =>
      let newMuteState := negb (muteStates s track) in
      mkState (Some (setMute ps track newMuteState)) (isPlaying s)
        (fun t => if TrackName_eqb t track then newMuteState
                  else muteStates s t)
  end.

End Players.

(** ** Concrete collaborators and songs used in the examples *)

Module Scenario.

Definition stemCode (t : TrackName) : Z :=
  match t with bass => 1 | drums => 2 | other => 3 | vocals => 4 end%Z.

(** A stereo buffer of 1000 frames at 44.1 kHz, tagged by its stem. *)
Definition stemBuffer (t : TrackName) : AudioBuffer :=
  mkAudioBuffer 2 1000 44100 [[stemCode t]; [stemCode t]].

Definition thisLove : Song := mkSong "This Love" "Maroon 5" "Cm" 95.

Definition fastSong : Song := mkSong "Misery Business" "Paramore" "C#m" 120.

Definition decodeStems (song : Song) (t : TrackName) : option AudioBuffer :=
  Some (stemBuffer t).

(** An engine that always delivers (a marker for) stretched samples. *)
Definition engineOk (b : AudioBuffer) (tempoRatio pitchRatio : R)
  : option Samples :=
  Some (map (map (Z.add 10)) (channelData b)).

(** An engine whose render of the vocals stem is rejected. *)
Definition engineFailsOnVocals (b : AudioBuffer) (tempoRatio pitchRatio : R)
  : option Samples :=
  match channelData b with
  | [4%Z] :: _ => None
  | _ => Some (map (map (Z.add 10)) (channelData b))
  end.

Definition env : Env := mkEnv decodeStems engineOk 1.

Definition envFailing : Env := mkEnv decodeStems engineFailsOnVocals 1.

(** Latest prototype: a song has been selected and loaded, and the timer
    of [loadBuffers] has run, so the song is playing. *)
Definition loadedPlaying : Sys :=
  Latest.run env [Latest.SelectSong thisLove; Latest.TimerFires]
    Latest.initialSys.

(** The same after a click on Stop. *)
Definition loadedStopped : Sys :=
  Latest.run env
    [Latest.SelectSong thisLove; Latest.TimerFires; Latest.PlayClick]
    Latest.initialSys.

(** Stopped, then the tempo slider moved to [v]. *)
Definition retimed (v : Z) : Sys :=
  Latest.run env
    [Latest.SelectSong thisLove; Latest.TimerFires; Latest.PlayClick;
     Latest.ChangeBpm v]
    Latest.initialSys.

(** A song selected and loaded, Play clicked before the timer of the load
    runs, then the timer. *)
Definition playedBeforeTimer : Sys :=
  Latest.run env
    [Latest.SelectSong thisLove; Latest.PlayClick; Latest.TimerFires]
    Latest.initialSys.


(** First prototype: a song has been selected and loaded. *)
Definition legacyLoaded (song : Song) : Sys :=
  exec (Legacy.selectSong env Legacy.initialState song) Legacy.initialSys.

(** First prototype: loaded, then Play All. *)
Definition legacyPlaying : Sys :=
  exec (handlePlay env (st (legacyLoaded thisLove))) (legacyLoaded thisLove).

Definition somePlayers : TrackName -> Players.Player :=
  fun _ => Players.mkPlayer 1 false.

(** A decoder whose buffers tell the songs apart: ten frames per BPM of the
    song's tempo. *)
Definition decodeBySong (song : Song) (t : TrackName) : option AudioBuffer :=
  Some (mkAudioBuffer 2 (10 * tempo song) 44100 [[stemCode t]; [stemCode t]]).

Definition envBySong : Env := mkEnv decodeBySong engineOk 1.

(** The first song plays (started by the timer of its load); a second song
    is selected and loads; its timer has not run yet. *)
Definition secondLoadedWhilePlaying : Sys :=
  Latest.run envBySong
    [Latest.SelectSong thisLove; Latest.TimerFires;
     Latest.SelectSong fastSong]
    Latest.initialSys.

(** The first song is loaded and every stem is muted by hand (the first
    toggle stops the playback its load started); then a second song is
    selected and loads; its timer has not run yet. *)
Definition secondLoadedAfterMutes : Sys :=
  Latest.run envBySong
    [Latest.SelectSong thisLove; Latest.TimerFires;
     Latest.ToggleMute bass; Latest.ToggleMute drums;
     Latest.ToggleMute other; Latest.ToggleMute vocals;
     Latest.SelectSong fastSong]
    Latest.initialSys.

(** First prototype, task by task: a song is selected and its four stems
    arrive. *)
Definition tasksLoad : list Interleaved.Task :=
  [Interleaved.Click (Legacy.SelectSong thisLove);
   Interleaved.Settled 0; Interleaved.Settled 0;
   Interleaved.Settled 0; Interleaved.Settled 0].

(** Then Play All, a mute toggle while the song plays, Stop All, and Play
    All again. *)
Definition tasksPlayTwice : list Interleaved.Task :=
  tasksLoad
  ++ [Interleaved.Click Legacy.PlayAll; Interleaved.ToneStarted 0;
      Interleaved.Click (Legacy.ToggleMute bass);
      Interleaved.Click Legacy.StopAll;
      Interleaved.Click Legacy.PlayAll; Interleaved.ToneStarted 0].

(** Play All clicked twice before [Tone.start()] resolves, then Stop All. *)
Definition tasksDoubleClick : list Interleaved.Task :=
  tasksLoad
  ++ [Interleaved.Click Legacy.PlayAll; Interleaved.Click Legacy.PlayAll;
      Interleaved.ToneStarted 0; Interleaved.ToneStarted 0;
      Interleaved.Click Legacy.StopAll].

End Scenario.

(** ** Auxiliary notions used to state the results *)

(** The node [handlePlay] creates for stem [t], if any. *)
Definition sessionNode (h : loc -> TrackState) (c : State) (now : Z)
  (t : TrackName) : list SourceNode :=
  match processedBuffer (h (tracks c t)) with
  | None => []
  | Some pb =>
      [mkSourceNode t pb
         (if muted (h (tracks c t)) then DetachedGain else Destination)
         now false]
  end.

Definition sessionNodes (h : loc -> TrackState) (c : State) (now : Z)
  (keys : list TrackName) : list SourceNode :=
  flat_map (sessionNode h c now) keys.

(** No two live nodes play the same stem. *)
Definition noOverlap (w : World) : Prop :=
  forall h1 h2 n1 n2,
    nth_error (nodes w) h1 = Some n1 -> nth_error (nodes w) h2 = Some n2 ->
    src_stopped n1 = false -> src_stopped n2 = false ->
    src_track n1 = src_track n2 -> h1 = h2.

(** Every object reachable from a tracks record has been allocated. *)
Definition allocated (tr : Tracks) (w : World) : Prop :=
  forall t, tr t < nextLoc w.

(** Two buffers of one format. *)
Definition sameFormat (a b : AudioBuffer) : Prop :=
  numberOfChannels a = numberOfChannels b /\ bufLength a = bufLength b
  /\ sampleRate a = sampleRate b.

(** A run of mute toggles, each from the render that follows the previous
    one. *)
Fixpoint toggleAll (toggle : State -> TrackName -> M unit)
  (ts : list TrackName) (s : Sys) : Sys :=
  match ts with
  | [] => s
  | t :: rest => toggleAll toggle rest (exec (toggle (st s) t) s)
  end.

(** What a handler leaves alone outside the object store and the engine
    log. *)
Definition sameSession (s s' : Sys) : Prop :=
  st s' = st s /\ nodes (wd s') = nodes (wd s)
  /\ currentTime (wd s') = currentTime (wd s)
  /\ renderPasses (wd s') = renderPasses (wd s)
  /\ timers (wd s') = timers (wd s)
  /\ nextLoc (wd s') = nextLoc (wd s).

(** The object at [l] has a processed buffer in the format of its original,
    whenever it has an original. *)
Definition formatted (h : loc -> TrackState) (l : loc) : Prop :=
  forall ob, buffer (h l) = Some ob ->
    exists rb, processedBuffer (h l) = Some rb /\ sameFormat rb ob.

(** The engine log grew by calls that all carry the given ratios. *)
Definition loggedWith (tempoRatio pitchRatio : R) (s s' : Sys) : Prop :=
  exists calls,
    engineCalls (wd s') = engineCalls (wd s) ++ calls
    /\ Forall (fun k => call_tempo k = tempoRatio /\ call_pitch k = pitchRatio)
         calls.

(** What a mute toggle may change: it allocates, it may stop nodes and clear
    the session hooks, and it leaves every existing object, the buffers
    behind every stem and the engine alone. *)
Definition muteStep (s s' : Sys) : Prop :=
  nextLoc (wd s) <= nextLoc (wd s')
  /\ (forall l, l < nextLoc (wd s) -> heap (wd s') l = heap (wd s) l)
  /\ (forall t, processedBuffer (heap (wd s') (tracks (st s') t))
                = processedBuffer (heap (wd s) (tracks (st s) t)))
  /\ (forall t, buffer (heap (wd s') (tracks (st s') t))
                = buffer (heap (wd s) (tracks (st s) t)))
  /\ engineCalls (wd s') = engineCalls (wd s)
  /\ renderPasses (wd s') = renderPasses (wd s).

(** In the latest prototype the divisor of the tempo ratio is the tempo of
    the selected song. *)
Definition baseIsSongTempo (x : State) : Prop :=
  forall song, selectedSong x = Some song -> baseBpm x = tempo song.

(** The store holds the four initial objects and every object of the
    current tracks record. *)
Definition storeCovers (s : Sys) : Prop :=
  4 <= nextLoc (wd s) /\ allocated (tracks (st s)) (wd s).

(** The session hooks account for every live node. *)
Definition sessionTracked (s : Sys) : Prop :=
  (forall h, isLive (wd s) h = true -> In h (sources (st s)))
  /\ (isPlaying (st s) = false -> sources (st s) = [])
  /\ noOverlap (wd s).

(** A task that leaves the audio graph and the session hooks alone. *)
Definition sessionUntouched (s s' : Sys) : Prop :=
  nodes (wd s') = nodes (wd s) /\ sources (st s') = sources (st s)
  /\ isPlaying (st s') = isPlaying (st s).

(** Task by task: the session hooks account for every live node; at most
    one [handlePlay] waits for [Tone.start()], it passed its guard, and
    [isPlaying] is clear while it waits. *)
Definition startsTracked (k : Interleaved.Config) : Prop :=
  sessionTracked (Interleaved.sys k)
  /\ List.length (Interleaved.starting k) <= 1
  /\ (Interleaved.starting k <> [] ->
      isPlaying (st (Interleaved.sys k)) = false)
  /\ Forall (fun c => isPlaying c = false) (Interleaved.starting k).

(** Every object with a processed buffer has an original of the same
    format, and the four initial objects are unmuted. *)
Definition storeSound (s : Sys) : Prop :=
  (forall l, formatted (heap (wd s)) l)
  /\ (forall l, buffer (heap (wd s) l) = None ->
                processedBuffer (heap (wd s) l) = None)
  /\ (forall t, muted (heap (wd s) (INITIAL_TRACKS t)) = false).

(** The sliders are where the range inputs can put them. *)
Definition slidersInRange (c : State) : Prop :=
  (selectedSong c <> None ->
   (baseBpm c - 50 <= bpm c <= baseBpm c + 50)%Z)
  /\ (-12 <= pitchSemitones c <= 12)%Z.

(** The stems of a tracks record that have an original buffer, in key
    order. *)
Definition loadedBuffers (h : loc -> TrackState) (tr : Tracks)
  (keys : list TrackName) : list AudioBuffer :=
  flat_map (fun t => match buffer (h (tr t)) with
                     | Some ob => [ob]
                     | None => []
                     end) keys.

(** The object at [l] holds the engine's rendering of its original at the
    given ratios. *)
Definition renderedAt (E : Env) (tempoRatio pitchRatio : R)
  (h : loc -> TrackState) (l : loc) : Prop :=
  forall ob, buffer (h l) = Some ob ->
    exists data,
      soundTouch E ob tempoRatio pitchRatio = Some data
      /\ processedBuffer (h l)
         = Some (mkAudioBuffer (numberOfChannels ob) (bufLength ob)
                   (sampleRate ob) data).

(** Tone.Players prototype: each player's [mute] agrees with the
    [muteStates] hook. *)
Definition playersSynced (s : Players.State) : Prop :=
  match Players.players s with
  | Some ps => forall t, Players.mute (ps t) = Players.muteStates s t
  | None => True
  end.

(** * Results *)

(** ** Running handlers *)

Lemma exec_bind {A B} (m : M A) (k : A -> M B) (s : Sys) :
  exec (bind m k) s =
  match fst (m s) with
  | Ok a => exec (k a) (exec m s)
  | Throw => exec m s
  end.
Proof.
  unfold exec, bind. destruct (m s) as [[a|] s']; reflexivity.
Qed.

Lemma fst_bind {A B} (m : M A) (k : A -> M B) (s : Sys) :
  fst (bind m k s) =
  match fst (m s) with
  | Ok a => fst (k a (exec m s))
  | Throw => Throw
  end.
Proof.
  unfold exec, bind. destruct (m s) as [[a|] s']; reflexivity.
Qed.

Lemma forEach_preserves {A} (P : Sys -> Prop) (body : A -> M unit)
  (l : list A) :
  (forall x s, P s -> P (exec (body x) s)) ->
  forall s, P s -> P (exec (forEach l body) s).
Proof.
  intros Hbody. induction l as [|x r IH]; intros s Hs.
  - exact Hs.
  - cbn [forEach]. rewrite exec_bind.
    destruct (fst (body x s)); [apply IH|]; apply Hbody; exact Hs.
Qed.

Lemma sameSession_refl s : sameSession s s.
Proof. repeat split. Qed.

Lemma sameSession_trans s1 s2 s3 :
  sameSession s1 s2 -> sameSession s2 s3 -> sameSession s1 s3.
Proof.
  unfold sameSession. intros (a1 & a2 & a3 & a4 & a5 & a6)
    (b1 & b2 & b3 & b4 & b5 & b6).
  repeat split; congruence.
Qed.

Lemma exec_bind_preserves {A B} (P : Sys -> Prop) (m : M A) (k : A -> M B)
  (s : Sys) :
  P (exec m s) -> (forall a s', P s' -> P (exec (k a) s')) ->
  P (exec (bind m k) s).
Proof.
  intros Hm Hk. rewrite exec_bind. destruct (fst (m s)); auto.
Qed.

Ltac unfold_prims :=
  unfold exec, bind, ret, throw, modState, modWorld, deref, alloc,
    readCurrentTime, setSelectedSong, setTracks, setIsLoading,
    setIsProcessing, setIsPlaying, setBaseBpm, setBpm, setPitchSemitones,
    setSources, setLastProcessedBpm, setLastProcessedPitch, assignBuffer,
    assignProcessedBuffer, startNewSource, stopSource, startRendering,
    notePass, setTimeout, withHeap, withNodes, withEngine, withTimers in *.

(** ** The loop of [handlePlay] *)

Lemma sessionNodes_cons h c now t keys :
  sessionNodes h c now (t :: keys) =
  sessionNode h c now t ++ sessionNodes h c now keys.
Proof. reflexivity. Qed.

Lemma playLoop_run E c now keys : forall acc s,
  playLoop E c now keys acc s =
  (Ok (acc ++ seq (List.length (nodes (wd s)))
                  (List.length (sessionNodes (heap (wd s)) c now keys))),
   mkSys (st s)
     (withNodes (nodes (wd s) ++ sessionNodes (heap (wd s)) c now keys)
        (currentTime (wd s)
         + quantum E
           * Z.of_nat (List.length (sessionNodes (heap (wd s)) c now keys)))%Z
        (wd s))).
Proof.
  induction keys as [|t rest IH]; intros acc s.
  - destruct s as [sst [hp nl nd ct ec rp tm]]. cbn. unfold ret, withNodes. cbn.
    rewrite !app_nil_r, Z.mul_0_r, Z.add_0_r. reflexivity.
  - cbn [playLoop]. rewrite sessionNodes_cons.
    unfold bind at 1. unfold playTrack, sessionNode.
    unfold bind at 1. unfold deref at 1.
    destruct (processedBuffer (heap (wd s) (tracks c t))) as [pb|] eqn:Hpb.
    + unfold bind at 1. unfold startNewSource at 1. unfold ret at 1.
      rewrite IH. cbn [wd st withNodes nodes heap currentTime].
      rewrite !length_app. cbn [List.length].
      rewrite <- !app_assoc. cbn [app].
      replace (List.length (nodes (wd s)) + 1) with (S (List.length (nodes (wd s)))) by lia.
      f_equal. f_equal. unfold withNodes. cbn.
      f_equal. lia.
    + unfold ret at 1. rewrite IH. reflexivity.
Qed.

Lemma handlePlay_guard E c s :
  isPlaying c = true -> handlePlay E c s = (Ok tt, s).
Proof. intros H. unfold handlePlay. rewrite H. reflexivity. Qed.

Lemma handlePlay_starts E c s :
  isPlaying c = false ->
  let news := sessionNodes (heap (wd s)) c (currentTime (wd s)) trackNames in
  let s' := exec (handlePlay E c) s in
  fst (handlePlay E c s) = Ok tt
  /\ nodes (wd s') = nodes (wd s) ++ news
  /\ sources (st s') = seq (List.length (nodes (wd s))) (List.length news)
  /\ isPlaying (st s') = true
  /\ heap (wd s') = heap (wd s)
  /\ engineCalls (wd s') = engineCalls (wd s)
  /\ renderPasses (wd s') = renderPasses (wd s)
  /\ timers (wd s') = timers (wd s)
  /\ nextLoc (wd s') = nextLoc (wd s)
  /\ tracks (st s') = tracks (st s)
  /\ bpm (st s') = bpm (st s)
  /\ pitchSemitones (st s') = pitchSemitones (st s)
  /\ baseBpm (st s') = baseBpm (st s)
  /\ lastProcessedBpm (st s') = lastProcessedBpm (st s)
  /\ lastProcessedPitch (st s') = lastProcessedPitch (st s)
  /\ selectedSong (st s') = selectedSong (st s)
  /\ currentTime (wd s')
     = (currentTime (wd s) + quantum E * Z.of_nat (List.length news))%Z.
Proof.
  intros H. cbv zeta. unfold exec, handlePlay. rewrite H.
  unfold bind, readCurrentTime. cbv beta iota. rewrite playLoop_run.
  unfold setSources, setIsPlaying, modState, withNodes. cbn.
  rewrite app_nil_r. repeat split.
Qed.

(** ** The loop of [handleStop] *)

Lemma stopLoop_run l : forall s,
  forEach l stopSource s =
  (Ok tt, mkSys (st s)
            (withNodes (fold_left stopAt l (nodes (wd s)))
               (currentTime (wd s)) (wd s))).
Proof.
  induction l as [|h r IH]; intros s.
  - destruct s as [sst [hp nl nd ct ec rp tm]]. reflexivity.
  - cbn [forEach fold_left]. unfold bind at 1.
    unfold stopSource at 1, modWorld at 1. rewrite IH. reflexivity.
Qed.

Lemma handleStop_run c s :
  let s' := exec (handleStop c) s in
  fst (handleStop c s) = Ok tt
  /\ nodes (wd s') = fold_left stopAt (sources c) (nodes (wd s))
  /\ sources (st s') = []
  /\ isPlaying (st s') = false
  /\ heap (wd s') = heap (wd s)
  /\ engineCalls (wd s') = engineCalls (wd s)
  /\ renderPasses (wd s') = renderPasses (wd s)
  /\ timers (wd s') = timers (wd s)
  /\ nextLoc (wd s') = nextLoc (wd s)
  /\ currentTime (wd s') = currentTime (wd s)
  /\ tracks (st s') = tracks (st s)
  /\ bpm (st s') = bpm (st s)
  /\ pitchSemitones (st s') = pitchSemitones (st s)
  /\ baseBpm (st s') = baseBpm (st s)
  /\ lastProcessedBpm (st s') = lastProcessedBpm (st s)
  /\ lastProcessedPitch (st s') = lastProcessedPitch (st s)
  /\ selectedSong (st s') = selectedSong (st s).
Proof.
  cbv zeta. unfold exec, handleStop. unfold bind. rewrite stopLoop_run.
  unfold setSources, setIsPlaying, modState, withNodes. cbn.
  repeat split.
Qed.

Lemma stopAt_length ns : forall h, List.length (stopAt ns h) = List.length ns.
Proof.
  induction ns as [|n r IH]; intros [|h]; cbn; auto.
Qed.

Lemma stopAt_nth_same ns : forall h n,
  nth_error ns h = Some n -> nth_error (stopAt ns h) h = Some (stopNode n).
Proof.
  induction ns as [|m r IH]; intros [|h] n; cbn; try discriminate.
  - intros [= ->]. reflexivity.
  - apply IH.
Qed.

Lemma stopAt_nth_other ns : forall h h',
  h <> h' -> nth_error (stopAt ns h) h' = nth_error ns h'.
Proof.
  induction ns as [|m r IH]; intros [|h] [|h'] Hne; cbn; try reflexivity.
  - contradiction.
  - apply IH. congruence.
Qed.

(** Stopping nodes keeps every node in place and only raises stop flags. *)
Lemma stopAt_nth ns h h' n' :
  nth_error (stopAt ns h) h' = Some n' ->
  exists n, nth_error ns h' = Some n
            /\ src_track n' = src_track n /\ src_buffer n' = src_buffer n
            /\ src_output n' = src_output n /\ src_when n' = src_when n
            /\ (src_stopped n = true -> src_stopped n' = true)
            /\ (h = h' -> src_stopped n' = true)
            /\ (h <> h' -> n' = n).
Proof.
  intros H. destruct (Nat.eq_dec h h') as [->|Hne].
  - destruct (nth_error ns h') as [n|] eqn:Hn.
    + rewrite (stopAt_nth_same _ _ _ Hn) in H. injection H as <-.
      exists n. repeat split; try reflexivity; intros; contradiction.
    + apply nth_error_None in Hn.
      assert (Hsome : nth_error (stopAt ns h') h' <> None) by congruence.
      apply nth_error_Some in Hsome. rewrite stopAt_length in Hsome. lia.
  - rewrite (stopAt_nth_other _ _ _ Hne) in H. exists n'.
    repeat split; auto; intros; contradiction.
Qed.

Lemma stopAll_nth l : forall ns h' n',
  nth_error (fold_left stopAt l ns) h' = Some n' ->
  exists n, nth_error ns h' = Some n
            /\ src_track n' = src_track n /\ src_buffer n' = src_buffer n
            /\ src_output n' = src_output n /\ src_when n' = src_when n
            /\ (src_stopped n = true -> src_stopped n' = true)
            /\ (In h' l -> src_stopped n' = true)
            /\ (~ In h' l -> n' = n).
Proof.
  induction l as [|h r IH]; intros ns h' n' H.
  - cbn in H. exists n'. repeat split; auto; intros [].
  - cbn [fold_left] in H. apply IH in H.
    destruct H as (m & Hm & Ht & Hb & Ho & Hw & Hs & Hin & Hout).
    apply stopAt_nth in Hm.
    destruct Hm as (n & Hn & Ht' & Hb' & Ho' & Hw' & Hs' & Heq & Hne).
    exists n. repeat split; try congruence.
    + auto.
    + intros [->|Hin']; auto.
    + intros Hnot. rewrite Hout, Hne; auto.
      * intros ->. apply Hnot. left. reflexivity.
      * intros Hr. apply Hnot. right. exact Hr.
Qed.

Lemma stopAll_length l : forall ns,
  List.length (fold_left stopAt l ns) = List.length ns.
Proof.
  induction l as [|h r IH]; intros ns; cbn; [reflexivity|].
  rewrite IH. apply stopAt_length.
Qed.

(** ** The loop of [processAllTracks] *)

Lemma renderTrack_sameSession E base c nt t s :
  sameSession s (exec (renderTrack E base c nt t) s).
Proof.
  unfold renderTrack. unfold_prims. cbv beta iota zeta.
  destruct (buffer (heap (wd s) (nt t))) as [ob|]; [|apply sameSession_refl].
  destruct (soundTouch E ob _ _); repeat split.
Qed.

Lemma renderLoop_sameSession E base c nt keys s :
  sameSession s (exec (forEach keys (renderTrack E base c nt)) s).
Proof.
  apply (forEach_preserves (sameSession s)); [|apply sameSession_refl].
  intros x s' H. eapply sameSession_trans; [exact H|].
  apply renderTrack_sameSession.
Qed.

Lemma loggedWith_refl a b s : loggedWith a b s s.
Proof. exists []. split; [symmetry; apply app_nil_r|constructor]. Qed.

Lemma loggedWith_trans a b s1 s2 s3 :
  loggedWith a b s1 s2 -> loggedWith a b s2 s3 -> loggedWith a b s1 s3.
Proof.
  intros (k1 & E1 & F1) (k2 & E2 & F2). exists (k1 ++ k2). split.
  - rewrite E2, E1, app_assoc. reflexivity.
  - apply Forall_app. split; assumption.
Qed.

Lemma renderTrack_logged E base c nt t s :
  loggedWith (IZR (bpm c) / IZR base)%R
    (Rpower 2 (IZR (pitchSemitones c) / 12)) s
    (exec (renderTrack E base c nt t) s).
Proof.
  unfold renderTrack. unfold_prims. cbv beta iota zeta.
  destruct (buffer (heap (wd s) (nt t))) as [ob|]; [|apply loggedWith_refl].
  destruct (soundTouch E ob _ _); cbn;
    (eexists; split; [reflexivity|]; repeat constructor).
Qed.

Lemma renderLoop_logged E base c nt keys s :
  loggedWith (IZR (bpm c) / IZR base)%R
    (Rpower 2 (IZR (pitchSemitones c) / 12)) s
    (exec (forEach keys (renderTrack E base c nt)) s).
Proof.
  apply (forEach_preserves
           (loggedWith (IZR (bpm c) / IZR base)%R
              (Rpower 2 (IZR (pitchSemitones c) / 12)) s));
    [|apply loggedWith_refl].
  intros x s' H. eapply loggedWith_trans; [exact H|].
  apply renderTrack_logged.
Qed.

(** One successful iteration: originals are kept, the object of [t] ends
    formatted, and formatted objects stay so. *)
Lemma renderTrack_step E base c nt t s s1 :
  renderTrack E base c nt t s = (Ok tt, s1) ->
  (forall l, buffer (heap (wd s1) l) = buffer (heap (wd s) l))
  /\ formatted (heap (wd s1)) (nt t)
  /\ (forall l, formatted (heap (wd s)) l -> formatted (heap (wd s1)) l).
Proof.
  unfold renderTrack. unfold_prims. cbv beta iota zeta.
  destruct (buffer (heap (wd s) (nt t))) as [ob|] eqn:Hob.
  - destruct (soundTouch E ob _ _) as [data|]; [|discriminate].
    intros [= <-]. cbn. unfold updHeap, formatted.
    split; [|split].
    + intros l. destruct (Nat.eqb l (nt t)) eqn:Hl; [|reflexivity].
      apply Nat.eqb_eq in Hl. subst l. reflexivity.
    + rewrite Nat.eqb_refl. cbn. intros ob' Hob'.
      rewrite Hob in Hob'. injection Hob' as <-.
      eexists. split; [reflexivity|]. repeat split.
    + intros l Hf ob'. destruct (Nat.eqb l (nt t)) eqn:Hl.
      * apply Nat.eqb_eq in Hl. subst l. cbn. intros Hob'.
        rewrite Hob in Hob'. injection Hob' as <-.
        eexists. split; [reflexivity|]. repeat split.
      * apply Hf.
  - intros [= <-]. split; [reflexivity|]. split; [|auto].
    intros ob' Hob'. congruence.
Qed.

Lemma renderLoop_formats E base c nt keys : forall s s1,
  forEach keys (renderTrack E base c nt) s = (Ok tt, s1) ->
  (forall l, buffer (heap (wd s1) l) = buffer (heap (wd s) l))
  /\ (forall t, In t keys -> formatted (heap (wd s1)) (nt t))
  /\ (forall l, formatted (heap (wd s)) l -> formatted (heap (wd s1)) l).
Proof.
  induction keys as [|k rest IH]; intros s s1 H.
  - injection H as <-. split; [reflexivity|]. split; [intros t []|auto].
  - cbn [forEach] in H. unfold bind in H.
    destruct (renderTrack E base c nt k s) as [[[]|] s0] eqn:Hk;
      [|discriminate].
    apply renderTrack_step in Hk. destruct Hk as (Hb & Hf & Hp).
    apply IH in H. destruct H as (Hb' & Hf' & Hp').
    split; [|split].
    + intros l. rewrite Hb', Hb. reflexivity.
    + intros t [<-|Hin]; auto.
    + auto.
Qed.

(** ** [processAllTracks] as a whole *)

Lemma Latest_processAllTracks_unfold E c s :
  Latest.processAllTracks E c s =
  match forEach trackNames (renderTrack E (baseBpm c) c (tracks c))
          (exec (notePass ;; setIsProcessing true) s) with
  | (Ok _, s1) =>
      (setTracks (tracks c) ;; setLastProcessedBpm (Some (bpm c)) ;;
       setLastProcessedPitch (pitchSemitones c) ;; setIsProcessing false) s1
  | (Throw, s1) => (Throw, s1)
  end.
Proof. reflexivity. Qed.

Lemma Legacy_processAllTracks_unfold E c s :
  Legacy.processAllTracks E c s =
  match forEach trackNames (renderTrack E Legacy.BASE_BPM c (tracks c))
          (exec (notePass ;; setIsProcessing true) s) with
  | (Ok _, s1) => (setTracks (tracks c) ;; setIsProcessing false) s1
  | (Throw, s1) => (Throw, s1)
  end.
Proof. reflexivity. Qed.

(** What a render pass does to the hooks and the audio graph, whether it
    resolves or rejects. *)
Lemma Latest_processAllTracks_frame E c s :
  let s' := exec (Latest.processAllTracks E c) s in
  renderPasses (wd s') = S (renderPasses (wd s))
  /\ nodes (wd s') = nodes (wd s)
  /\ currentTime (wd s') = currentTime (wd s)
  /\ timers (wd s') = timers (wd s)
  /\ nextLoc (wd s') = nextLoc (wd s)
  /\ bpm (st s') = bpm (st s)
  /\ baseBpm (st s') = baseBpm (st s)
  /\ pitchSemitones (st s') = pitchSemitones (st s)
  /\ isPlaying (st s') = isPlaying (st s)
  /\ sources (st s') = sources (st s)
  /\ selectedSong (st s') = selectedSong (st s)
  /\ loggedWith (IZR (bpm c) / IZR (baseBpm c))%R
       (Rpower 2 (IZR (pitchSemitones c) / 12)) s s'.
Proof.
  cbv zeta. unfold exec at 1 2 3 4 5 6 7 8 9 10 11 12.
  rewrite Latest_processAllTracks_unfold.
  set (s0 := exec (notePass ;; setIsProcessing true) s).
  pose proof (renderLoop_sameSession E (baseBpm c) c (tracks c) trackNames s0)
    as (Hst & Hn & Hct & Hrp & Htm & Hnl).
  pose proof (renderLoop_logged E (baseBpm c) c (tracks c) trackNames s0)
    as Hlog.
  unfold exec in Hst, Hn, Hct, Hrp, Htm, Hnl, Hlog.
  destruct (forEach trackNames (renderTrack E (baseBpm c) c (tracks c)) s0)
    as [[[]|] s1]; cbn in Hst, Hn, Hct, Hrp, Htm, Hnl, Hlog |- *;
    rewrite ?Hst, ?Hn, ?Hct, ?Hrp, ?Htm, ?Hnl;
    (repeat split; try reflexivity;
     destruct Hlog as (calls & Hc & Hf); exists calls; split;
       [exact Hc|exact Hf]).
Qed.

Lemma Latest_processAllTracks_ok E c s :
  fst (Latest.processAllTracks E c s) = Ok tt ->
  let s' := exec (Latest.processAllTracks E c) s in
  lastProcessedBpm (st s') = Some (bpm c)
  /\ lastProcessedPitch (st s') = pitchSemitones c
  /\ tracks (st s') = tracks c
  /\ isProcessing (st s') = false
  /\ (forall l, buffer (heap (wd s') l) = buffer (heap (wd s) l))
  /\ (forall t, formatted (heap (wd s')) (tracks c t)).
Proof.
  cbv zeta. unfold exec. rewrite Latest_processAllTracks_unfold.
  pose proof (renderLoop_formats E (baseBpm c) c (tracks c) trackNames
                (exec (notePass ;; setIsProcessing true) s)) as Hfmt.
  destruct (forEach trackNames (renderTrack E (baseBpm c) c (tracks c))
              (exec (notePass ;; setIsProcessing true) s))
    as [[[]|] s1]; cbn; [|discriminate].
  intros _. destruct (Hfmt s1 eq_refl) as (Hb & Hf & _).
  repeat split.
  - intros l. rewrite Hb. reflexivity.
  - intros t. apply Hf. destruct t; cbn; auto.
Qed.

Lemma Legacy_processAllTracks_ok E c s :
  fst (Legacy.processAllTracks E c s) = Ok tt ->
  let s' := exec (Legacy.processAllTracks E c) s in
  (forall l, buffer (heap (wd s') l) = buffer (heap (wd s) l))
  /\ (forall t, formatted (heap (wd s')) (tracks c t)).
Proof.
  cbv zeta. unfold exec. rewrite Legacy_processAllTracks_unfold.
  pose proof (renderLoop_formats E Legacy.BASE_BPM c (tracks c) trackNames
                (exec (notePass ;; setIsProcessing true) s)) as Hfmt.
  destruct (forEach trackNames (renderTrack E Legacy.BASE_BPM c (tracks c))
              (exec (notePass ;; setIsProcessing true) s))
    as [[[]|] s1]; cbn; [|discriminate].
  intros _. destruct (Hfmt s1 eq_refl) as (Hb & Hf & _).
  repeat split.
  - intros l. rewrite Hb. reflexivity.
  - intros t. apply Hf. destruct t; cbn; auto.
Qed.

Lemma Latest_processAllTracks_throw E c s :
  fst (Latest.processAllTracks E c s) = Throw ->
  let s' := exec (Latest.processAllTracks E c) s in
  lastProcessedBpm (st s') = lastProcessedBpm (st s)
  /\ lastProcessedPitch (st s') = lastProcessedPitch (st s)
  /\ tracks (st s') = tracks (st s)
  /\ isProcessing (st s') = true.
Proof.
  cbv zeta. unfold exec. rewrite Latest_processAllTracks_unfold.
  set (s0 := exec (notePass ;; setIsProcessing true) s).
  pose proof (renderLoop_sameSession E (baseBpm c) c (tracks c) trackNames s0)
    as (Hst & _).
  unfold exec in Hst.
  destruct (forEach trackNames (renderTrack E (baseBpm c) c (tracks c)) s0)
    as [[[]|] s1]; cbn in *; [discriminate|].
  intros _. rewrite Hst. repeat split.
Qed.

Lemma handlePlay_engine E c s :
  let s' := exec (handlePlay E c) s in
  engineCalls (wd s') = engineCalls (wd s)
  /\ renderPasses (wd s') = renderPasses (wd s)
  /\ heap (wd s') = heap (wd s).
Proof.
  destruct (isPlaying c) eqn:Hp.
  - cbv zeta. unfold exec. rewrite handlePlay_guard by exact Hp.
    repeat split.
  - pose proof (handlePlay_starts E c s Hp) as H. cbv zeta in H |- *.
    repeat split; apply H.
Qed.

(** ** The dirty check *)

Lemma needsProcessing_spec c :
  Latest.needsProcessing c = true <->
  lastProcessedBpm c = None
  \/ (exists last, lastProcessedBpm c = Some last /\ last <> bpm c)
  \/ lastProcessedPitch c <> pitchSemitones c.
Proof.
  unfold Latest.needsProcessing.
  destruct (lastProcessedBpm c) as [last|].
  - rewrite orb_true_iff, !negb_true_iff, !Z.eqb_neq. split.
    + intros [H|H]; right; [left; exists last; split; congruence|right; congruence].
    + intros [H|[(l & [= <-] & H)|H]]; [discriminate|left|right]; congruence.
  - split; auto.
Qed.



(** ** Playback sessions *)

Lemma sessionNodes_In h c now keys n :
  In n (sessionNodes h c now keys) <->
  exists t pb, In t keys /\ processedBuffer (h (tracks c t)) = Some pb
    /\ n = mkSourceNode t pb
             (if muted (h (tracks c t)) then DetachedGain else Destination)
             now false.
Proof.
  unfold sessionNodes. rewrite in_flat_map. unfold sessionNode. split.
  - intros (t & Hin & Hn).
    destruct (processedBuffer (h (tracks c t))) as [pb|] eqn:Hpb.
    + destruct Hn as [<-|[]]. exists t, pb. auto.
    + destruct Hn.
  - intros (t & pb & Hin & Hpb & ->). exists t. split; [exact Hin|].
    rewrite Hpb. left. reflexivity.
Qed.

Lemma sessionNodes_tracks h c now keys :
  map src_track (sessionNodes h c now keys) =
  filter (fun t => match processedBuffer (h (tracks c t)) with
                   | Some _ => true
                   | None => false
                   end) keys.
Proof.
  induction keys as [|t rest IH]; [reflexivity|].
  rewrite sessionNodes_cons, map_app, IH. cbn [filter].
  unfold sessionNode. destruct (processedBuffer (h (tracks c t))); reflexivity.
Qed.

Lemma trackNames_NoDup : NoDup trackNames.
Proof.
  unfold trackNames. repeat constructor; cbn; intuition discriminate.
Qed.

Lemma trackNames_all t : In t trackNames.
Proof. destruct t; cbn; auto. Qed.

(** [handlePlay] is its guard followed, without anything in between, by
    what it does after [Tone.start()]. *)
Lemma handlePlay_resumes E c s :
  handlePlay E c s = if isPlaying c then (Ok tt, s) else startSession E c s.
Proof. unfold handlePlay, startSession. destruct (isPlaying c); reflexivity. Qed.

(** A start creates, for a stem with a processed buffer, a running node
    that plays this buffer, routed by the stem's flag, and lists it in
    [sources]. *)
Lemma handlePlay_starts_stem E c s t pb :
  isPlaying c = false ->
  processedBuffer (heap (wd s) (tracks c t)) = Some pb ->
  let s' := exec (handlePlay E c) s in
  exists h,
    List.length (nodes (wd s)) <= h /\ In h (sources (st s'))
    /\ nth_error (nodes (wd s')) h
       = Some (mkSourceNode t pb
                 (if muted (heap (wd s) (tracks c t))
                  then DetachedGain else Destination)
                 (currentTime (wd s)) false).
Proof.
  intros Hp Hpb. cbv zeta.
  pose proof (handlePlay_starts E c s Hp) as H. cbv zeta in H.
  destruct H as (_ & Hn & Hs & _).
  set (news := sessionNodes (heap (wd s)) c (currentTime (wd s)) trackNames)
    in *.
  assert (Hin : In (mkSourceNode t pb
                      (if muted (heap (wd s) (tracks c t))
                       then DetachedGain else Destination)
                      (currentTime (wd s)) false) news).
  { apply sessionNodes_In. exists t, pb.
    split; [apply trackNames_all|]. split; [exact Hpb|reflexivity]. }
  apply In_nth_error in Hin. destruct Hin as (i & Hi).
  assert (Hlt : i < List.length news)
    by (apply nth_error_Some; rewrite Hi; discriminate).
  exists (List.length (nodes (wd s)) + i). split; [lia|]. split.
  - rewrite Hs. apply in_seq. lia.
  - rewrite Hn, nth_error_app2 by lia.
    replace (List.length (nodes (wd s)) + i - List.length (nodes (wd s)))
      with i by lia.
    exact Hi.
Qed.

(** C5: one start of playback reads the audio clock once, before the loop,
    and starts a node at that one time for every stem that has a processed
    buffer, whatever the lengths of the buffers and however far the clock
    moves while the nodes are set up. *)
Theorem C5_shared_timestamp E (c : State) (s : Sys) :
  isPlaying c = false ->
  let now := currentTime (wd s) in
  let s' := exec (handlePlay E c) s in
  exists news,
    nodes (wd s') = nodes (wd s) ++ news
    /\ sources (st s') = seq (List.length (nodes (wd s))) (List.length news)
    /\ (forall n, In n news ->
          src_when n = now /\ src_stopped n = false
          /\ processedBuffer (heap (wd s) (tracks c (src_track n)))
             = Some (src_buffer n))
    /\ (forall t pb,
          processedBuffer (heap (wd s) (tracks c t)) = Some pb ->
          exists n, In n news /\ src_track n = t /\ src_buffer n = pb
                    /\ src_when n = now)
    /\ currentTime (wd s')
       = (now + quantum E * Z.of_nat (List.length news))%Z.
Proof.
  intros Hp. cbv zeta.
  pose proof (handlePlay_starts E c s Hp) as H. cbv zeta in H.
  destruct H as (_ & Hn & Hs & _ & _ & _ & _ & _ & _ & _ & _ & _ & _ & _ & _
                 & _ & Hct).
  exists (sessionNodes (heap (wd s)) c (currentTime (wd s)) trackNames).
  split; [exact Hn|]. split; [exact Hs|].
  split; [|split; [|exact Hct]].
  - intros n Hin. apply sessionNodes_In in Hin.
    destruct Hin as (t & pb & _ & Hpb & ->). cbn. auto.
  - intros t pb Hpb. eexists. split.
    + apply sessionNodes_In. exists t, pb.
      split; [apply trackNames_all|]. split; [exact Hpb|reflexivity].
    + cbn. auto.
Qed.

Lemma C5_shared_timestamp_witness :
  isPlaying (st (Scenario.legacyLoaded Scenario.thisLove)) = false
  /\ exists news,
       nodes (wd Scenario.legacyPlaying) = news
       /\ forall n, In n news -> src_when n = 0%Z.
Proof.
  split; [reflexivity|].
  destruct (C5_shared_timestamp Scenario.env
              (st (Scenario.legacyLoaded Scenario.thisLove))
              (Scenario.legacyLoaded Scenario.thisLove) eq_refl)
    as (news & Hn & _ & Hw & _).
  exists news. split; [exact Hn|].
  intros n Hin. apply Hw in Hin. apply Hin.
Defined.

Lemma noOverlap_after_start E c s :
  isPlaying c = false -> (forall h, isLive (wd s) h = false) ->
  noOverlap (wd (exec (handlePlay E c) s)).
Proof.
  intros Hp Hdead.
  pose proof (handlePlay_starts E c s Hp) as H. cbv zeta in H.
  destruct H as (_ & Hn & _).
  set (news := sessionNodes (heap (wd s)) c (currentTime (wd s)) trackNames)
    in Hn.
  assert (Hnd : NoDup (map src_track news)).
  { unfold news. rewrite sessionNodes_tracks. apply NoDup_filter.
    apply trackNames_NoDup. }
  assert (Hold : forall h n, nth_error (nodes (wd s) ++ news) h = Some n ->
                 src_stopped n = false ->
                 List.length (nodes (wd s)) <= h
                 /\ nth_error (map src_track news)
                      (h - List.length (nodes (wd s))) = Some (src_track n)).
  { intros h n Hh Hlive.
    destruct (Nat.lt_ge_cases h (List.length (nodes (wd s)))) as [Hlt|Hge].
    - rewrite nth_error_app1 in Hh by exact Hlt.
      specialize (Hdead h). unfold isLive in Hdead. rewrite Hh in Hdead.
      rewrite Hlive in Hdead. discriminate.
    - split; [exact Hge|]. rewrite nth_error_app2 in Hh by exact Hge.
      rewrite nth_error_map, Hh. reflexivity. }
  unfold noOverlap. rewrite Hn. intros h1 h2 n1 n2 H1 H2 L1 L2 Ht.
  destruct (Hold _ _ H1 L1) as (G1 & T1).
  destruct (Hold _ _ H2 L2) as (G2 & T2).
  assert (Heq : h1 - List.length (nodes (wd s))
                = h2 - List.length (nodes (wd s))).
  { rewrite NoDup_nth_error in Hnd. apply Hnd.
    - apply nth_error_Some. rewrite T1. discriminate.
    - rewrite T1, T2, Ht. reflexivity. }
  lia.
Qed.





(** The guard reads the [isPlaying] of the render that created the handler.
    The timer of [loadBuffers] holds the handler of the render in which the
    song was selected: when Play is clicked before that timer runs, the
    timer starts a second session over the first, and two live nodes play
    the bass stem. *)
Lemma stale_timer_start_overlaps :
  isLive (wd Scenario.playedBeforeTimer) 0 = true
  /\ isLive (wd Scenario.playedBeforeTimer) 4 = true
  /\ map src_track (nodes (wd Scenario.playedBeforeTimer))
     = [bass; drums; other; vocals; bass; drums; other; vocals]
  /\ sources (st Scenario.playedBeforeTimer) = [4; 5; 6; 7].
Proof. vm_compute. repeat split. Qed.

(** ** What a render pass can touch in the store *)

Lemma renderTrack_touches E base c nt t s :
  forall l,
    buffer (heap (wd (exec (renderTrack E base c nt t) s)) l)
    = buffer (heap (wd s) l)
    /\ muted (heap (wd (exec (renderTrack E base c nt t) s)) l)
       = muted (heap (wd s) l)
    /\ (l <> nt t ->
        heap (wd (exec (renderTrack E base c nt t) s)) l = heap (wd s) l).
Proof.
  intros l. unfold renderTrack. unfold_prims. cbv beta iota zeta.
  destruct (buffer (heap (wd s) (nt t))) as [ob|] eqn:Hob;
    [|repeat split].
  destruct (soundTouch E ob _ _) as [data|]; [|repeat split].
  cbn. unfold updHeap. destruct (Nat.eqb l (nt t)) eqn:Hl.
  - apply Nat.eqb_eq in Hl. subst l. cbn. repeat split.
    intros H. contradiction.
  - repeat split.
Qed.

Lemma renderLoop_touches E base c nt keys s :
  forall l,
    buffer (heap (wd (exec (forEach keys (renderTrack E base c nt)) s)) l)
    = buffer (heap (wd s) l)
    /\ muted (heap (wd (exec (forEach keys (renderTrack E base c nt)) s)) l)
       = muted (heap (wd s) l)
    /\ ((forall t, nt t <> l) ->
        heap (wd (exec (forEach keys (renderTrack E base c nt)) s)) l
        = heap (wd s) l).
Proof.
  apply (forEach_preserves
           (fun x => forall l,
              buffer (heap (wd x) l) = buffer (heap (wd s) l)
              /\ muted (heap (wd x) l) = muted (heap (wd s) l)
              /\ ((forall t, nt t <> l) -> heap (wd x) l = heap (wd s) l))).
  - intros t x Hx l. destruct (Hx l) as (H1 & H2 & H3).
    destruct (renderTrack_touches E base c nt t x l) as (G1 & G2 & G3).
    split; [congruence|]. split; [congruence|].
    intros Hout. rewrite G3 by (intros ->; exact (Hout t eq_refl)).
    apply H3. exact Hout.
  - intros l. repeat split.
Qed.

(** What a render pass of either prototype can change in the store. *)
Lemma renderPass_touches (E : Env) (c : State) (s : Sys)
  (l : loc) :
  let s1 := exec (Latest.processAllTracks E c) s in
  let s2 := exec (Legacy.processAllTracks E c) s in
  (buffer (heap (wd s1) l) = buffer (heap (wd s) l)
   /\ muted (heap (wd s1) l) = muted (heap (wd s) l)
   /\ ((forall t, tracks c t <> l) -> heap (wd s1) l = heap (wd s) l))
  /\ (buffer (heap (wd s2) l) = buffer (heap (wd s) l)
      /\ muted (heap (wd s2) l) = muted (heap (wd s) l)
      /\ ((forall t, tracks c t <> l) -> heap (wd s2) l = heap (wd s) l)).
Proof.
  cbv zeta. split.
  - unfold exec at 1 2 3. rewrite Latest_processAllTracks_unfold.
    set (s0 := exec (notePass ;; setIsProcessing true) s).
    pose proof (renderLoop_touches E (baseBpm c) c (tracks c) trackNames s0 l)
      as H.
    unfold exec in H.
    destruct (forEach trackNames (renderTrack E (baseBpm c) c (tracks c)) s0)
      as [[[]|] s1]; exact H.
  - unfold exec at 1 2 3. rewrite Legacy_processAllTracks_unfold.
    set (s0 := exec (notePass ;; setIsProcessing true) s).
    pose proof (renderLoop_touches E Legacy.BASE_BPM c (tracks c) trackNames
                  s0 l) as H.
    unfold exec in H.
    destruct (forEach trackNames (renderTrack E Legacy.BASE_BPM c (tracks c))
                s0)
      as [[[]|] s1]; exact H.
Qed.

Lemma renderTrack_keeps_playable E base c nt t s l :
  processedBuffer (heap (wd s) l) <> None ->
  processedBuffer (heap (wd (exec (renderTrack E base c nt t) s)) l) <> None.
Proof.
  unfold renderTrack. unfold_prims. cbv beta iota zeta.
  destruct (buffer (heap (wd s) (nt t))) as [ob|]; [|auto].
  destruct (soundTouch E ob _ _) as [data|]; [|auto].
  cbn. unfold updHeap. destruct (Nat.eqb l (nt t)); [discriminate|auto].
Qed.

(** A render pass of the latest prototype takes no processed buffer away. *)
Lemma Latest_processAllTracks_keeps_playable E c s l :
  processedBuffer (heap (wd s) l) <> None ->
  processedBuffer (heap (wd (exec (Latest.processAllTracks E c) s)) l)
  <> None.
Proof.
  intros Hl. unfold exec. rewrite Latest_processAllTracks_unfold.
  set (s0 := exec (notePass ;; setIsProcessing true) s).
  assert (H : processedBuffer
                (heap (wd (exec (forEach trackNames
                                   (renderTrack E (baseBpm c) c (tracks c)))
                             s0)) l) <> None).
  { apply (forEach_preserves
             (fun x => processedBuffer (heap (wd x) l) <> None));
      [|exact Hl].
    intros t x Hx. apply renderTrack_keeps_playable. exact Hx. }
  unfold exec in H.
  destruct (forEach trackNames (renderTrack E (baseBpm c) c (tracks c)) s0)
    as [[[]|] s1]; exact H.
Qed.

(** ** Mute toggles *)

Lemma TrackName_eqb_eq a b : TrackName_eqb a b = true <-> a = b.
Proof. destruct a, b; cbn; split; intros H; try reflexivity; discriminate. Qed.

Lemma flipMuted_run track s :
  let old := heap (wd s) (tracks (st s) track) in
  let s' := exec (flipMuted track) s in
  fst (flipMuted track s) = Ok tt
  /\ tracks (st s') = updTrack (tracks (st s)) track (nextLoc (wd s))
  /\ heap (wd s')
     = updHeap (heap (wd s)) (nextLoc (wd s))
         (mkTrackState (buffer old) (processedBuffer old) (negb (muted old)))
  /\ nextLoc (wd s') = S (nextLoc (wd s))
  /\ nodes (wd s') = nodes (wd s)
  /\ currentTime (wd s') = currentTime (wd s)
  /\ engineCalls (wd s') = engineCalls (wd s)
  /\ renderPasses (wd s') = renderPasses (wd s)
  /\ timers (wd s') = timers (wd s)
  /\ isPlaying (st s') = isPlaying (st s)
  /\ sources (st s') = sources (st s)
  /\ selectedSong (st s') = selectedSong (st s)
  /\ baseBpm (st s') = baseBpm (st s).
Proof. cbv zeta. repeat split. Qed.

Lemma flipMuted_muteStep track s :
  allocated (tracks (st s)) (wd s) ->
  muteStep s (exec (flipMuted track) s)
  /\ allocated (tracks (st (exec (flipMuted track) s)))
       (wd (exec (flipMuted track) s)).
Proof.
  intros Hal.
  pose proof (flipMuted_run track s) as H. cbv zeta in H.
  destruct H as (_ & Ht & Hh & Hn & _ & _ & He & Hr & _).
  assert (Hobj : forall t,
            heap (wd (exec (flipMuted track) s))
              (tracks (st (exec (flipMuted track) s)) t)
            = if TrackName_eqb t track
              then mkTrackState
                     (buffer (heap (wd s) (tracks (st s) track)))
                     (processedBuffer (heap (wd s) (tracks (st s) track)))
                     (negb (muted (heap (wd s) (tracks (st s) track))))
              else heap (wd s) (tracks (st s) t)).
  { intros t. rewrite Ht, Hh. unfold updTrack, updHeap.
    destruct (TrackName_eqb t track) eqn:Et.
    - rewrite Nat.eqb_refl. reflexivity.
    - destruct (Nat.eqb (tracks (st s) t) (nextLoc (wd s))) eqn:El;
        [|reflexivity].
      apply Nat.eqb_eq in El. specialize (Hal t). lia. }
  split.
  - unfold muteStep. rewrite Hn, He, Hr. repeat split; try lia.
    + intros l Hl. rewrite Hh. unfold updHeap.
      destruct (Nat.eqb l (nextLoc (wd s))) eqn:El; [|reflexivity].
      apply Nat.eqb_eq in El. lia.
    + intros t. rewrite Hobj. destruct (TrackName_eqb t track) eqn:Et;
        [|reflexivity].
      apply TrackName_eqb_eq in Et. subst t. reflexivity.
    + intros t. rewrite Hobj. destruct (TrackName_eqb t track) eqn:Et;
        [|reflexivity].
      apply TrackName_eqb_eq in Et. subst t. reflexivity.
  - intros t. rewrite Ht, Hn. unfold updTrack.
    destruct (TrackName_eqb t track); [lia|]. specialize (Hal t). lia.
Qed.

Lemma muteStep_refl s : muteStep s s.
Proof. unfold muteStep. repeat split; auto. Qed.

Lemma muteStep_trans s1 s2 s3 :
  muteStep s1 s2 -> muteStep s2 s3 -> muteStep s1 s3.
Proof.
  unfold muteStep.
  intros (a1 & a2 & a3 & a4 & a5 & a6) (b1 & b2 & b3 & b4 & b5 & b6).
  repeat split; try congruence; try lia.
  intros l Hl. rewrite b2 by lia. apply a2. exact Hl.
Qed.

Lemma handleStop_muteStep c s :
  muteStep s (exec (handleStop c) s)
  /\ tracks (st (exec (handleStop c) s)) = tracks (st s)
  /\ nextLoc (wd (exec (handleStop c) s)) = nextLoc (wd s).
Proof.
  pose proof (handleStop_run c s) as H. cbv zeta in H.
  destruct H as (_ & _ & _ & _ & Hh & He & Hr & _ & Hn & _ & Ht & _).
  split; [|split; assumption].
  unfold muteStep. rewrite Hh, He, Hr, Hn, Ht. repeat split; auto.
Qed.

Lemma Latest_toggleMute_unfold c track s :
  exec (Latest.toggleMute c track) s =
  exec (flipMuted track) (if isPlaying c then exec (handleStop c) s else s).
Proof.
  unfold Latest.toggleMute. rewrite exec_bind.
  destruct (isPlaying c).
  - pose proof (handleStop_run c s) as H. cbv zeta in H.
    destruct H as (-> & _). reflexivity.
  - reflexivity.
Qed.

Lemma Latest_toggleMute_muteStep c track s :
  allocated (tracks (st s)) (wd s) ->
  muteStep s (exec (Latest.toggleMute c track) s)
  /\ allocated (tracks (st (exec (Latest.toggleMute c track) s)))
       (wd (exec (Latest.toggleMute c track) s)).
Proof.
  intros Hal. rewrite Latest_toggleMute_unfold. destruct (isPlaying c).
  - destruct (handleStop_muteStep c s) as (Hm & Ht & Hn).
    assert (Hal' : allocated (tracks (st (exec (handleStop c) s)))
                     (wd (exec (handleStop c) s))).
    { intros t. rewrite Ht, Hn. apply Hal. }
    destruct (flipMuted_muteStep track _ Hal') as (Hm' & Hal'').
    split; [|exact Hal'']. eapply muteStep_trans; eassumption.
  - apply flipMuted_muteStep. exact Hal.
Qed.

Lemma toggleAll_Latest ts : forall s,
  allocated (tracks (st s)) (wd s) ->
  muteStep s (toggleAll Latest.toggleMute ts s).
Proof.
  induction ts as [|t rest IH]; intros s Hal; [apply muteStep_refl|].
  cbn [toggleAll].
  destruct (Latest_toggleMute_muteStep (st s) t s Hal) as (Hm & Hal').
  eapply muteStep_trans; [exact Hm|]. apply IH. exact Hal'.
Qed.

Lemma toggleAll_Legacy ts : forall s,
  allocated (tracks (st s)) (wd s) ->
  muteStep s (toggleAll Legacy.toggleMute ts s).
Proof.
  induction ts as [|t rest IH]; intros s Hal; [apply muteStep_refl|].
  cbn [toggleAll]. unfold Legacy.toggleMute at 2.
  destruct (flipMuted_muteStep t s Hal) as (Hm & Hal').
  eapply muteStep_trans; [exact Hm|]. apply IH. exact Hal'.
Qed.

(** C8: no run of mute toggles, in either prototype, changes the processed
    or the original buffer of any stem, changes any object that existed
    before, or reaches the transform engine. *)
Theorem C8_mute_independence (ts : list TrackName) (s : Sys) :
  allocated (tracks (st s)) (wd s) ->
  forall s',
    s' = toggleAll Latest.toggleMute ts s
    \/ s' = toggleAll Legacy.toggleMute ts s ->
    (forall t, processedBuffer (heap (wd s') (tracks (st s') t))
               = processedBuffer (heap (wd s) (tracks (st s) t)))
    /\ (forall t, buffer (heap (wd s') (tracks (st s') t))
                  = buffer (heap (wd s) (tracks (st s) t)))
    /\ (forall l, l < nextLoc (wd s) -> heap (wd s') l = heap (wd s) l)
    /\ engineCalls (wd s') = engineCalls (wd s)
    /\ renderPasses (wd s') = renderPasses (wd s).
Proof.
  intros Hal s' Hs'.
  assert (Hm : muteStep s s').
  { destruct Hs' as [->| ->];
      [apply toggleAll_Latest|apply toggleAll_Legacy]; exact Hal. }
  destruct Hm as (_ & H2 & H3 & H4 & H5 & H6). auto.
Qed.

Lemma C8_mute_independence_witness :
  allocated (tracks (st Scenario.loadedPlaying)) (wd Scenario.loadedPlaying)
  /\ engineCalls
       (wd (toggleAll Latest.toggleMute [bass; vocals; bass]
              Scenario.loadedPlaying))
     = engineCalls (wd Scenario.loadedPlaying).
Proof.
  assert (Hal : allocated (tracks (st Scenario.loadedPlaying))
                  (wd Scenario.loadedPlaying)).
  { intros t. destruct t; vm_compute; lia. }
  split; [exact Hal|].
  apply (C8_mute_independence [bass; vocals; bass] Scenario.loadedPlaying Hal
           _ (or_introl eq_refl)).
Defined.

Lemma stopAt_outputs ns : forall h,
  map src_output (stopAt ns h) = map src_output ns.
Proof.
  induction ns as [|n r IH]; intros [|h]; cbn; try reflexivity.
  rewrite IH. reflexivity.
Qed.

Lemma stopAll_outputs l : forall ns,
  map src_output (fold_left stopAt l ns) = map src_output ns.
Proof.
  induction l as [|h r IH]; intros ns; cbn; [reflexivity|].
  rewrite IH. apply stopAt_outputs.
Qed.

Lemma stopAll_not_live l ns w h :
  nodes w = fold_left stopAt l ns -> In h l -> isLive w h = false.
Proof.
  intros Hn Hin. unfold isLive. rewrite Hn.
  destruct (nth_error (fold_left stopAt l ns) h) as [n'|] eqn:Hh;
    [|reflexivity].
  apply stopAll_nth in Hh. destruct Hh as (n & _ & _ & _ & _ & _ & _ & Hs & _).
  rewrite (Hs Hin). reflexivity.
Qed.

(** A stop when a session plays, as the user must do before the next
    start: it leaves the store and the tracks record alone and ends with
    [isPlaying] clear. *)
Lemma stop_if_playing s :
  let r := if isPlaying (st s) then exec (handleStop (st s)) s else s in
  heap (wd r) = heap (wd s) /\ tracks (st r) = tracks (st s)
  /\ isPlaying (st r) = false
  /\ List.length (nodes (wd r)) = List.length (nodes (wd s)).
Proof.
  cbv zeta. destruct (isPlaying (st s)) eqn:Hp; [|auto].
  pose proof (handleStop_run (st s) s) as H. cbv zeta in H.
  destruct H as (_ & Hn & _ & Hpl & Hh & _ & _ & _ & _ & _ & Ht & _).
  rewrite Hn, stopAll_length. auto.
Qed.

(** C7, as the code has it: in the first prototypes [toggleMute] only
    replaces the stem's object by a copy with [muted] flipped and leaves the
    session alone; in the latest prototype it first stops the session when
    [isPlaying] is set (every node of [sources] stopped, [sources] emptied,
    [isPlaying] cleared) and leaves it alone otherwise.  In neither is the
    output of an existing node changed.  A start made from the render that
    follows the toggle, after a stop when a session still plays, creates
    for the stem a running node routed by the flipped flag: Play All of the
    first prototypes, and a play click of the latest prototype that goes
    through, whether or not it renders first. *)
Theorem C7_toggleMute_session E (c : State) (t : TrackName) (s : Sys) :
  let old := heap (wd s) (tracks (st s) t) in
  let flipped := if negb (muted old) then DetachedGain else Destination in
  let s1 := exec (Legacy.toggleMute c t) s in
  let s2 := exec (Latest.toggleMute c t) s in
  (nodes (wd s1) = nodes (wd s) /\ sources (st s1) = sources (st s)
   /\ isPlaying (st s1) = isPlaying (st s))
  /\ (if isPlaying c
      then (forall h, In h (sources c) -> isLive (wd s2) h = false)
           /\ sources (st s2) = [] /\ isPlaying (st s2) = false
      else nodes (wd s2) = nodes (wd s) /\ sources (st s2) = sources (st s)
           /\ isPlaying (st s2) = isPlaying (st s))
  /\ map src_output (nodes (wd s2)) = map src_output (nodes (wd s))
  /\ muted (heap (wd s1) (tracks (st s1) t)) = negb (muted old)
  /\ muted (heap (wd s2) (tracks (st s2) t)) = negb (muted old)
  /\ (forall pb, processedBuffer old = Some pb ->
        let r1 := if isPlaying (st s1) then exec (handleStop (st s1)) s1
                  else s1 in
        let p1 := exec (handlePlay E (st r1)) r1 in
        exists h when_,
          List.length (nodes (wd s)) <= h /\ In h (sources (st p1))
          /\ nth_error (nodes (wd p1)) h
             = Some (mkSourceNode t pb flipped when_ false))
  /\ (forall pb, processedBuffer old = Some pb ->
        let r2 := if isPlaying (st s2) then exec (handleStop (st s2)) s2
                  else s2 in
        let p2 := exec (Latest.handlePlayClick E (st r2)) r2 in
        fst (Latest.handlePlayClick E (st r2) r2) = Ok tt ->
        exists h n,
          List.length (nodes (wd s)) <= h /\ In h (sources (st p2))
          /\ nth_error (nodes (wd p2)) h = Some n
          /\ src_track n = t /\ src_output n = flipped
          /\ src_stopped n = false
          /\ (Latest.needsProcessing (st r2) = false -> src_buffer n = pb)).
Proof.
  cbv zeta.
  pose proof (flipMuted_run t s) as H1. cbv zeta in H1.
  destruct H1 as (_ & Ht1 & Hh1 & _ & Hn1 & _ & _ & _ & _ & Hp1 & Hs1 & _).
  assert (Ho1 : heap (wd (exec (Legacy.toggleMute c t) s))
                  (tracks (st (exec (Legacy.toggleMute c t) s)) t)
                = mkTrackState (buffer (heap (wd s) (tracks (st s) t)))
                    (processedBuffer (heap (wd s) (tracks (st s) t)))
                    (negb (muted (heap (wd s) (tracks (st s) t))))).
  { unfold Legacy.toggleMute. rewrite Ht1, Hh1. unfold updTrack, updHeap.
    replace (TrackName_eqb t t) with true by (destruct t; reflexivity).
    rewrite Nat.eqb_refl. reflexivity. }
  set (s0 := if isPlaying c then exec (handleStop c) s else s).
  assert (Hs0 : heap (wd s0) = heap (wd s) /\ tracks (st s0) = tracks (st s)
                /\ List.length (nodes (wd s0)) = List.length (nodes (wd s))).
  { unfold s0. destruct (isPlaying c); [|repeat split].
    pose proof (handleStop_run c s) as H. cbv zeta in H.
    destruct H as (_ & Hn & _ & _ & Hh & _ & _ & _ & _ & _ & Ht & _).
    rewrite Hn, stopAll_length. auto. }
  destruct Hs0 as (Hh0 & Ht0 & Hl0).
  pose proof (flipMuted_run t s0) as H2. cbv zeta in H2.
  destruct H2 as (_ & Ht2 & Hh2 & _ & Hn2 & _ & _ & _ & _ & Hp2 & Hs2 & _).
  assert (Ho2 : heap (wd (exec (Latest.toggleMute c t) s))
                  (tracks (st (exec (Latest.toggleMute c t) s)) t)
                = mkTrackState (buffer (heap (wd s) (tracks (st s) t)))
                    (processedBuffer (heap (wd s) (tracks (st s) t)))
                    (negb (muted (heap (wd s) (tracks (st s) t))))).
  { rewrite Latest_toggleMute_unfold. fold s0.
    rewrite Ht2, Hh2. unfold updTrack, updHeap.
    replace (TrackName_eqb t t) with true by (destruct t; reflexivity).
    rewrite Nat.eqb_refl. rewrite Hh0, Ht0. reflexivity. }
  split; [unfold Legacy.toggleMute; auto|].
  split; [|split; [|split; [rewrite Ho1; reflexivity
                           |split; [rewrite Ho2; reflexivity|split]]]].
  - assert (Hlive : forall h, isLive (wd (exec (flipMuted t) s0)) h
                              = isLive (wd s0) h).
    { intros h. unfold isLive. rewrite Hn2. reflexivity. }
    rewrite Latest_toggleMute_unfold. fold s0. rewrite Hn2, Hs2, Hp2.
    destruct (isPlaying c) eqn:Hp.
    + pose proof (handleStop_run c s) as H. cbv zeta in H.
      destruct H as (_ & Hn & Hs & Hpl & _).
      split; [|split; assumption].
      intros h Hin. rewrite Hlive. eapply stopAll_not_live; eassumption.
    + repeat split.
  - rewrite Latest_toggleMute_unfold. fold s0. rewrite Hn2.
    unfold s0. destruct (isPlaying c); [|reflexivity].
    pose proof (handleStop_run c s) as H. cbv zeta in H.
    destruct H as (_ & -> & _). apply stopAll_outputs.
  - intros pb Hpb.
    set (s1 := exec (Legacy.toggleMute c t) s) in *.
    pose proof (stop_if_playing s1) as Hr. cbv zeta in Hr.
    set (r1 := if isPlaying (st s1) then exec (handleStop (st s1)) s1
               else s1) in *.
    destruct Hr as (Rh & Rt & Rp & Rl).
    destruct (handlePlay_starts_stem E (st r1) r1 t pb Rp) as (h & Hge & Hin & Hnth).
    { rewrite Rh, Rt, Ho1. exact Hpb. }
    exists h, (currentTime (wd r1)). split; [|split; [exact Hin|]].
    + rewrite Rl in Hge. unfold s1, Legacy.toggleMute in Hge.
      rewrite Hn1 in Hge. exact Hge.
    + rewrite Hnth, Rh, Rt, Ho1. reflexivity.
  - intros pb Hpb.
    set (s2 := exec (Latest.toggleMute c t) s) in *.
    pose proof (stop_if_playing s2) as Hr. cbv zeta in Hr.
    set (r2 := if isPlaying (st s2) then exec (handleStop (st s2)) s2
               else s2) in *.
    destruct Hr as (Rh & Rt & Rp & Rl).
    assert (Hlen : List.length (nodes (wd r2)) = List.length (nodes (wd s))).
    { rewrite Rl. unfold s2. rewrite Latest_toggleMute_unfold. fold s0.
      rewrite Hn2. exact Hl0. }
    assert (Hobj : processedBuffer (heap (wd r2) (tracks (st r2) t)) = Some pb
                   /\ muted (heap (wd r2) (tracks (st r2) t))
                      = negb (muted (heap (wd s) (tracks (st s) t)))).
    { rewrite Rh, Rt, Ho2. split; [exact Hpb|reflexivity]. }
    destruct Hobj as (Hpb2 & Hm2).
    unfold Latest.handlePlayClick. rewrite Rp.
    rewrite fst_bind, exec_bind.
    destruct (Latest.needsProcessing (st r2)) eqn:Hneeds.
    + destruct (fst (Latest.processAllTracks E (st r2) r2)) as [[]|] eqn:Hpass;
        [|discriminate].
      intros _.
      set (q := exec (Latest.processAllTracks E (st r2)) r2).
      pose proof (Latest_processAllTracks_frame E (st r2) r2) as Hf.
      cbv zeta in Hf. destruct Hf as (_ & Hnq & _). fold q in Hnq.
      pose proof (renderPass_touches E (st r2) r2 (tracks (st r2) t)) as Hk.
      cbv zeta in Hk. destruct Hk as ((_ & Hmq & _) & _). fold q in Hmq.
      pose proof (Latest_processAllTracks_keeps_playable E (st r2) r2
                    (tracks (st r2) t)) as Hkeep.
      fold q in Hkeep.
      destruct (processedBuffer (heap (wd q) (tracks (st r2) t)))
        as [pb'|] eqn:Hpb'.
      2:{ exfalso. apply Hkeep; [rewrite Hpb2; discriminate|reflexivity]. }
      destruct (handlePlay_starts_stem E (st r2) q t pb' Rp Hpb')
        as (h & Hge & Hin & Hnth).
      eexists h, _. split; [rewrite Hnq, Hlen in Hge; exact Hge|].
      split; [exact Hin|]. split; [exact Hnth|]. cbn.
      rewrite Hmq, Hm2. repeat split. intros Hfalse. discriminate Hfalse.
    + cbn. intros _.
      destruct (handlePlay_starts_stem E (st r2) r2 t pb Rp Hpb2)
        as (h & Hge & Hin & Hnth).
      eexists h, _. split; [rewrite Hlen in Hge; exact Hge|].
      split; [exact Hin|]. split; [exact Hnth|]. cbn.
      rewrite Hm2. repeat split.
Qed.

Lemma C7_toggleMute_session_witness :
  processedBuffer (heap (wd Scenario.loadedPlaying)
                     (tracks (st Scenario.loadedPlaying) bass))
  = Some (Scenario.stemBuffer bass)
  /\ muted (heap (wd Scenario.loadedPlaying)
              (tracks (st Scenario.loadedPlaying) bass)) = false
  /\ fst (Latest.handlePlayClick Scenario.env
            (st (if isPlaying
                      (st (exec (Latest.toggleMute (st Scenario.loadedPlaying)
                                   bass) Scenario.loadedPlaying))
                 then exec (handleStop
                              (st (exec (Latest.toggleMute
                                           (st Scenario.loadedPlaying) bass)
                                     Scenario.loadedPlaying)))
                        (exec (Latest.toggleMute (st Scenario.loadedPlaying)
                                 bass) Scenario.loadedPlaying)
                 else exec (Latest.toggleMute (st Scenario.loadedPlaying)
                              bass) Scenario.loadedPlaying))
            (if isPlaying
                  (st (exec (Latest.toggleMute (st Scenario.loadedPlaying)
                               bass) Scenario.loadedPlaying))
             then exec (handleStop
                          (st (exec (Latest.toggleMute
                                       (st Scenario.loadedPlaying) bass)
                                 Scenario.loadedPlaying)))
                    (exec (Latest.toggleMute (st Scenario.loadedPlaying)
                             bass) Scenario.loadedPlaying)
             else exec (Latest.toggleMute (st Scenario.loadedPlaying) bass)
                    Scenario.loadedPlaying)) = Ok tt
  /\ exists h n,
       List.length (nodes (wd Scenario.loadedPlaying)) <= h
       /\ src_track n = bass /\ src_stopped n = false
       /\ src_output n
          = if negb (muted (heap (wd Scenario.loadedPlaying)
                              (tracks (st Scenario.loadedPlaying) bass)))
            then DetachedGain else Destination.
Proof.
  assert (Hpb : processedBuffer (heap (wd Scenario.loadedPlaying)
                                   (tracks (st Scenario.loadedPlaying) bass))
                = Some (Scenario.stemBuffer bass))
    by (vm_compute; reflexivity).
  assert (Hm : muted (heap (wd Scenario.loadedPlaying)
                        (tracks (st Scenario.loadedPlaying) bass)) = false)
    by (vm_compute; reflexivity).
  assert (Hok : fst (Latest.handlePlayClick Scenario.env
            (st (if isPlaying
                      (st (exec (Latest.toggleMute (st Scenario.loadedPlaying)
                                   bass) Scenario.loadedPlaying))
                 then exec (handleStop
                              (st (exec (Latest.toggleMute
                                           (st Scenario.loadedPlaying) bass)
                                     Scenario.loadedPlaying)))
                        (exec (Latest.toggleMute (st Scenario.loadedPlaying)
                                 bass) Scenario.loadedPlaying)
                 else exec (Latest.toggleMute (st Scenario.loadedPlaying)
                              bass) Scenario.loadedPlaying))
            (if isPlaying
                  (st (exec (Latest.toggleMute (st Scenario.loadedPlaying)
                               bass) Scenario.loadedPlaying))
             then exec (handleStop
                          (st (exec (Latest.toggleMute
                                       (st Scenario.loadedPlaying) bass)
                                 Scenario.loadedPlaying)))
                    (exec (Latest.toggleMute (st Scenario.loadedPlaying)
                             bass) Scenario.loadedPlaying)
             else exec (Latest.toggleMute (st Scenario.loadedPlaying) bass)
                    Scenario.loadedPlaying)) = Ok tt)
    by (vm_compute; reflexivity).
  split; [exact Hpb|]. split; [exact Hm|]. split; [exact Hok|].
  destruct (proj2 (proj2 (proj2 (proj2 (proj2 (proj2
              (C7_toggleMute_session Scenario.env (st Scenario.loadedPlaying)
                 bass Scenario.loadedPlaying))))))
              (Scenario.stemBuffer bass) Hpb Hok)
    as (h & n & Hge & _ & _ & Ht & Ho & Hs & _).
  exists h, n. auto.
Defined.

(** C7 as stated fails in the latest prototype: toggling the mute of a stem
    while the song plays stops the live node 0. *)
Lemma C7_counterexample :
  ~ (forall h, isLive (wd Scenario.loadedPlaying) h = true ->
       isLive (wd (exec (Latest.toggleMute (st Scenario.loadedPlaying) bass)
                     Scenario.loadedPlaying)) h = true).
Proof.
  assert (Hbefore : isLive (wd Scenario.loadedPlaying) 0 = true)
    by (vm_compute; reflexivity).
  assert (Hafter : isLive
            (wd (exec (Latest.toggleMute (st Scenario.loadedPlaying) bass)
                   Scenario.loadedPlaying)) 0 = false)
    by (vm_compute; reflexivity).
  intros H. rewrite (H 0 Hbefore) in Hafter. discriminate Hafter.
Qed.

(** ** Repeated play requests *)

Lemma needsProcessing_false c :
  Latest.needsProcessing c = false <->
  lastProcessedBpm c = Some (bpm c)
  /\ lastProcessedPitch c = pitchSemitones c.
Proof.
  unfold Latest.needsProcessing. destruct (lastProcessedBpm c) as [last|].
  - rewrite orb_false_iff, !negb_false_iff, !Z.eqb_eq. split.
    + intros (-> & ->). auto.
    + intros ([= ->] & ->). auto.
  - split; [discriminate|intros (H & _); discriminate].
Qed.

(** A play request that goes through leaves the sliders alone, records them
    as processed, and ends playing. *)
Lemma handlePlayClick_plays E s :
  isPlaying (st s) = false ->
  fst (Latest.handlePlayClick E (st s) s) = Ok tt ->
  let s1 := exec (Latest.handlePlayClick E (st s)) s in
  bpm (st s1) = bpm (st s)
  /\ pitchSemitones (st s1) = pitchSemitones (st s)
  /\ lastProcessedBpm (st s1) = Some (bpm (st s))
  /\ lastProcessedPitch (st s1) = pitchSemitones (st s)
  /\ isPlaying (st s1) = true.
Proof.
  intros Hp Hok. cbv zeta.
  unfold Latest.handlePlayClick in Hok |- *. rewrite Hp in Hok |- *.
  rewrite fst_bind in Hok. rewrite exec_bind.
  destruct (Latest.needsProcessing (st s)) eqn:Hneeds.
  - destruct (fst (Latest.processAllTracks E (st s) s)) as [[]|] eqn:Hpass;
      [|discriminate].
    pose proof (Latest_processAllTracks_ok E (st s) s Hpass) as Hs.
    pose proof (Latest_processAllTracks_frame E (st s) s) as Hf.
    cbv zeta in Hs, Hf.
    pose proof (handlePlay_starts E (st s)
                  (exec (Latest.processAllTracks E (st s)) s) Hp) as H.
    cbv zeta in H.
    destruct Hs as (L1 & L2 & _).
    destruct Hf as (_ & _ & _ & _ & _ & F1 & _ & F2 & _).
    destruct H as (_ & _ & _ & P1 & _ & _ & _ & _ & _ & _ & P2 & P3 & _ & P4
                   & P5 & _).
    rewrite P1, P2, P3, P4, P5, F1, F2, L1, L2. repeat split.
  - apply needsProcessing_false in Hneeds. destruct Hneeds as (L1 & L2).
    cbn. pose proof (handlePlay_starts E (st s) s Hp) as H. cbv zeta in H.
    destruct H as (_ & _ & _ & P1 & _ & _ & _ & _ & _ & _ & P2 & P3 & _ & P4
                   & P5 & _).
    rewrite P1, P2, P3, P4, P5, L1, L2. repeat split.
Qed.

(** C6, as the code has it: in the latest prototype a play request that
    went through, a stop, and a second play request with the sliders
    untouched invoke the engine during the first request only; the second
    finds [needsProcessing] false and goes straight to playback. *)
Theorem C6_second_request_skips_render E (s : Sys) :
  isPlaying (st s) = false ->
  fst (Latest.handlePlayClick E (st s) s) = Ok tt ->
  let s1 := exec (Latest.handlePlayClick E (st s)) s in
  let s2 := exec (Latest.handlePlayClick E (st s1)) s1 in
  let s3 := exec (Latest.handlePlayClick E (st s2)) s2 in
  isPlaying (st s1) = true
  /\ isPlaying (st s2) = false
  /\ bpm (st s2) = bpm (st s)
  /\ pitchSemitones (st s2) = pitchSemitones (st s)
  /\ Latest.needsProcessing (st s2) = false
  /\ engineCalls (wd s3) = engineCalls (wd s1)
  /\ renderPasses (wd s3) = renderPasses (wd s1)
  /\ isPlaying (st s3) = true.
Proof.
  intros Hp Hok. cbv zeta.
  pose proof (handlePlayClick_plays E s Hp Hok) as H1. cbv zeta in H1.
  destruct H1 as (B1 & S1 & L1 & Q1 & P1).
  set (s1 := exec (Latest.handlePlayClick E (st s)) s) in *.
  assert (Hstop : exec (Latest.handlePlayClick E (st s1)) s1
                  = exec (handleStop (st s1)) s1).
  { unfold Latest.handlePlayClick. rewrite P1. reflexivity. }
  rewrite Hstop.
  pose proof (handleStop_run (st s1) s1) as H2. cbv zeta in H2.
  destruct H2 as (_ & _ & _ & P2 & _ & E2 & R2 & _ & _ & _ & _ & B2 & S2 & _
                  & L2 & Q2 & _).
  set (s2 := exec (handleStop (st s1)) s1) in *.
  assert (Hclean : Latest.needsProcessing (st s2) = false).
  { apply needsProcessing_false. rewrite L2, Q2, B2, S2. split; congruence. }
  assert (Hplay : exec (Latest.handlePlayClick E (st s2)) s2
                  = exec (handlePlay E (st s2)) s2).
  { unfold Latest.handlePlayClick. rewrite P2, Hclean. rewrite exec_bind.
    reflexivity. }
  rewrite Hplay.
  pose proof (handlePlay_starts E (st s2) s2 P2) as H3. cbv zeta in H3.
  destruct H3 as (_ & _ & _ & P3 & _ & E3 & R3 & _).
  rewrite E3, R3, E2, R2, P3. repeat split; congruence.
Qed.

Lemma C6_second_request_skips_render_witness :
  isPlaying (st (Scenario.retimed 120)) = false
  /\ Latest.needsProcessing (st (Scenario.retimed 120)) = true
  /\ fst (Latest.handlePlayClick Scenario.env (st (Scenario.retimed 120))
            (Scenario.retimed 120)) = Ok tt
  /\ Latest.needsProcessing
       (st (exec (Latest.handlePlayClick Scenario.env
                    (st (exec (Latest.handlePlayClick Scenario.env
                                 (st (Scenario.retimed 120)))
                           (Scenario.retimed 120))))
              (exec (Latest.handlePlayClick Scenario.env
                       (st (Scenario.retimed 120)))
                 (Scenario.retimed 120)))) = false.
Proof.
  assert (Hp : isPlaying (st (Scenario.retimed 120)) = false)
    by reflexivity.
  assert (Hok : fst (Latest.handlePlayClick Scenario.env
                       (st (Scenario.retimed 120)) (Scenario.retimed 120))
                = Ok tt)
    by reflexivity.
  split; [exact Hp|]. split; [reflexivity|]. split; [exact Hok|].
  apply (C6_second_request_skips_render Scenario.env (Scenario.retimed 120)
           Hp Hok).
Defined.

(** C6 as stated fails: [processAllTracks] has no dirty check of its own.
    In the first prototype, where the Apply button calls it, two calls in a
    row with the sliders untouched invoke the engine for every stem both
    times. *)
Lemma C6_counterexample :
  ~ (engineCalls
       (wd (exec (Legacy.processAllTracks Scenario.env
                    (st (exec (Legacy.processAllTracks Scenario.env
                                 (st (Scenario.legacyLoaded Scenario.thisLove)))
                           (Scenario.legacyLoaded Scenario.thisLove))))
              (exec (Legacy.processAllTracks Scenario.env
                       (st (Scenario.legacyLoaded Scenario.thisLove)))
                 (Scenario.legacyLoaded Scenario.thisLove))))
     = engineCalls
         (wd (exec (Legacy.processAllTracks Scenario.env
                      (st (Scenario.legacyLoaded Scenario.thisLove)))
                (Scenario.legacyLoaded Scenario.thisLove)))).
Proof.
  intros H. apply (f_equal (@List.length EngineCall)) in H.
  revert H.
  assert (H2 : List.length
            (engineCalls
               (wd (exec (Legacy.processAllTracks Scenario.env
                            (st (exec (Legacy.processAllTracks Scenario.env
                                   (st (Scenario.legacyLoaded Scenario.thisLove)))
                                   (Scenario.legacyLoaded Scenario.thisLove))))
                      (exec (Legacy.processAllTracks Scenario.env
                               (st (Scenario.legacyLoaded Scenario.thisLove)))
                         (Scenario.legacyLoaded Scenario.thisLove))))) = 8)
    by reflexivity.
  assert (H1 : List.length
            (engineCalls
               (wd (exec (Legacy.processAllTracks Scenario.env
                            (st (Scenario.legacyLoaded Scenario.thisLove)))
                      (Scenario.legacyLoaded Scenario.thisLove)))) = 4)
    by reflexivity.
  rewrite H2, H1. discriminate.
Qed.

(** ** Format of the rendered buffers *)

(** C2, as the code has it: the offline context of every render is created
    with the frame count, channel count and sample rate of the original
    buffer, so after a render pass that went through, in either prototype,
    the processed buffer of every loaded stem has exactly the frame count of
    its original, whatever the tempo ratio. *)
Theorem C2_render_keeps_frame_count E (c : State) (s : Sys) (t : TrackName)
  (ob : AudioBuffer) :
  buffer (heap (wd s) (tracks c t)) = Some ob ->
  (fst (Latest.processAllTracks E c s) = Ok tt ->
   exists rb,
     processedBuffer
       (heap (wd (exec (Latest.processAllTracks E c) s)) (tracks c t))
     = Some rb
     /\ bufLength rb = bufLength ob
     /\ numberOfChannels rb = numberOfChannels ob
     /\ sampleRate rb = sampleRate ob)
  /\ (fst (Legacy.processAllTracks E c s) = Ok tt ->
      exists rb,
        processedBuffer
          (heap (wd (exec (Legacy.processAllTracks E c) s)) (tracks c t))
        = Some rb
        /\ bufLength rb = bufLength ob
        /\ numberOfChannels rb = numberOfChannels ob
        /\ sampleRate rb = sampleRate ob).
Proof.
  intros Hob. split; intros Hok.
  - pose proof (Latest_processAllTracks_ok E c s Hok) as H. cbv zeta in H.
    destruct H as (_ & _ & _ & _ & Hb & Hf).
    destruct (Hf t ob) as (rb & Hrb & Hc & Hl & Hr).
    + rewrite Hb. exact Hob.
    + exists rb. auto.
  - pose proof (Legacy_processAllTracks_ok E c s Hok) as H. cbv zeta in H.
    destruct H as (Hb & Hf).
    destruct (Hf t ob) as (rb & Hrb & Hc & Hl & Hr).
    + rewrite Hb. exact Hob.
    + exists rb. auto.
Qed.

Lemma C2_render_keeps_frame_count_witness :
  buffer (heap (wd (Scenario.retimed 120))
            (tracks (st (Scenario.retimed 120)) bass))
  = Some (Scenario.stemBuffer bass)
  /\ fst (Latest.processAllTracks Scenario.env (st (Scenario.retimed 120))
            (Scenario.retimed 120)) = Ok tt
  /\ exists rb,
       processedBuffer
         (heap (wd (exec (Latest.processAllTracks Scenario.env
                            (st (Scenario.retimed 120)))
                      (Scenario.retimed 120)))
            (tracks (st (Scenario.retimed 120)) bass))
       = Some rb
       /\ bufLength rb = bufLength (Scenario.stemBuffer bass)
       /\ numberOfChannels rb = numberOfChannels (Scenario.stemBuffer bass)
       /\ sampleRate rb = sampleRate (Scenario.stemBuffer bass).
Proof.
  assert (Hob : buffer (heap (wd (Scenario.retimed 120))
                          (tracks (st (Scenario.retimed 120)) bass))
                = Some (Scenario.stemBuffer bass)) by reflexivity.
  assert (Hok : fst (Latest.processAllTracks Scenario.env
                       (st (Scenario.retimed 120)) (Scenario.retimed 120))
                = Ok tt) by reflexivity.
  split; [exact Hob|]. split; [exact Hok|].
  exact (proj1 (C2_render_keeps_frame_count Scenario.env
                  (st (Scenario.retimed 120)) (Scenario.retimed 120) bass
                  (Scenario.stemBuffer bass) Hob) Hok).
Defined.

(** C2 as stated fails: at 120 BPM over the song's 95 the rendered bass
    buffer still has the 1000 frames of the original, not about 792. *)
Lemma C2_counterexample :
  ~ (forall rb,
       processedBuffer
         (heap (wd (exec (Latest.processAllTracks Scenario.env
                            (st (Scenario.retimed 120)))
                      (Scenario.retimed 120)))
            (tracks (st (Scenario.retimed 120)) bass))
       = Some rb ->
       (Rabs (IZR (bufLength rb)
              - IZR (bufLength (Scenario.stemBuffer bass))
                / (IZR (bpm (st (Scenario.retimed 120)))
                   / IZR (baseBpm (st (Scenario.retimed 120)))))
        <= 1)%R).
Proof.
  intros H.
  specialize (H (mkAudioBuffer 2 1000 44100 [[11%Z]; [11%Z]]) eq_refl).
  change (Rabs (1000 - 1000 / (120 / 95)) <= 1)%R in H.
  assert (Hgap : (1000 - 1000 / (120 / 95) > 1)%R) by lra.
  unfold Rabs in H.
  destruct (Rcase_abs (1000 - 1000 / (120 / 95))) as [Hneg|Hpos] in H; lra.
Qed.

(** ** The ratios handed to the engine *)

(** Every render of a pass of the latest prototype is made with the tempo
    ratio [bpm / baseBpm] and the pitch ratio [2 ^ (pitchSemitones / 12)]. *)
Lemma Latest_ratios E c s :
  loggedWith (IZR (bpm c) / IZR (baseBpm c))%R
    (Rpower 2 (IZR (pitchSemitones c) / 12)) s
    (exec (Latest.processAllTracks E c) s).
Proof. apply Latest_processAllTracks_frame. Qed.

(** The select handler of the latest prototype makes [baseBpm] the tempo of
    the selected song. *)
Lemma Latest_selectSong_base E s song :
  baseIsSongTempo (st s) ->
  baseIsSongTempo (st (exec (Latest.selectSong E (st s) song) s)).
Proof.
  intros Hinv.
  assert (Hgoal : selectedSong (st (exec (Latest.selectSong E (st s) song) s))
                  = Some song
                  /\ baseBpm (st (exec (Latest.selectSong E (st s) song) s))
                     = tempo song).
  { set (P := fun x : Sys => selectedSong (st x) = Some song
                              /\ baseBpm (st x) = tempo song).
    unfold Latest.selectSong. rewrite exec_bind.
    change (fst (setSelectedSong (Some song) s)) with (Ok tt).
    cbv beta iota.
    apply (exec_bind_preserves P).
    - unfold Latest.songEffects.
      destruct (selectedSong (st s)) as [old|] eqn:Hsel.
      + destruct (Song_eqb old song) eqn:Heq.
        * split; [reflexivity|]. cbn. rewrite (Hinv old Hsel).
          unfold Song_eqb in Heq. rewrite !andb_true_iff in Heq.
          destruct Heq as (_ & Heq). apply Z.eqb_eq. exact Heq.
        * split; reflexivity.
      + split; reflexivity.
    - intros _ s1 H1. unfold Latest.loadBuffers.
      apply (exec_bind_preserves P); [exact H1|]. intros _ s2 H2.
      apply (exec_bind_preserves P).
      + apply (forEach_preserves P); [|exact H2].
        intros t x Hx. unfold loadTrack.
        destruct (decodeAudioData E song t); exact Hx.
      + intros _ s3 H3.
        repeat (apply (exec_bind_preserves P); [exact H3|]; clear s3 H3;
                intros _ s3 H3).
        exact H3. }
  destruct Hgoal as (Hsel & Hbase). intros song' Hs'.
  rewrite Hsel in Hs'. injection Hs' as <-. exact Hbase.
Qed.

(** C9 at the failing input: in the first prototype, with a song recorded at
    120 BPM selected and the tempo slider left at the song's tempo, Apply
    renders every stem at the ratio 120/95 (the constant [BASE_BPM]), not at
    120/120. *)
Theorem C9_legacy_divides_by_constant :
  tempo Scenario.fastSong = 120%Z
  /\ bpm (st (Scenario.legacyLoaded Scenario.fastSong)) = 120%Z
  /\ map call_tempo
       (engineCalls
          (wd (exec (Legacy.processAllTracks Scenario.env
                       (st (Scenario.legacyLoaded Scenario.fastSong)))
                 (Scenario.legacyLoaded Scenario.fastSong))))
     = [(120 / 95)%R; (120 / 95)%R; (120 / 95)%R; (120 / 95)%R]
  /\ (120 / 95 <> IZR (tempo Scenario.fastSong) / IZR (tempo Scenario.fastSong))%R.
Proof.
  split; [reflexivity|]. split; [reflexivity|]. split; [reflexivity|].
  change (120 / 95 <> 120 / 120)%R. lra.
Qed.

(** ** A render pass that fails *)

(** C1 at the failing input: the song is loaded, the tempo slider is at
    120, and the engine rejects the vocals render.  The play request throws,
    the last processed values and [tracks] are as before, [isProcessing]
    stays set, yet the drums object already holds its new processed buffer
    while the vocals object holds the old one. *)
Theorem C1_failed_pass_is_partial :
  let s := Scenario.retimed 120 in
  let s' := exec (Latest.handlePlayClick Scenario.envFailing (st s)) s in
  fst (Latest.handlePlayClick Scenario.envFailing (st s) s) = Throw
  /\ (lastProcessedBpm (st s) = Some 95%Z
      /\ lastProcessedBpm (st s') = Some 95%Z)
  /\ (lastProcessedPitch (st s) = 0%Z /\ lastProcessedPitch (st s') = 0%Z)
  /\ (map (tracks (st s)) trackNames = [0; 1; 2; 3]
      /\ map (tracks (st s')) trackNames = [0; 1; 2; 3])
  /\ isProcessing (st s') = true
  /\ (processedBuffer (heap (wd s) 1) = Some (Scenario.stemBuffer drums)
      /\ processedBuffer (heap (wd s') 1)
         = Some (mkAudioBuffer 2 1000 44100 [[12%Z]; [12%Z]]))
  /\ (processedBuffer (heap (wd s) 3) = Some (Scenario.stemBuffer vocals)
      /\ processedBuffer (heap (wd s') 3) = Some (Scenario.stemBuffer vocals))
  /\ processedBuffer (heap (wd s') 1) <> processedBuffer (heap (wd s) 1).
Proof.
  cbv zeta.
  assert (Hbefore : processedBuffer (heap (wd (Scenario.retimed 120)) 1)
                    = Some (Scenario.stemBuffer drums)) by reflexivity.
  assert (Hafter : processedBuffer
                     (heap (wd (exec (Latest.handlePlayClick
                                        Scenario.envFailing
                                        (st (Scenario.retimed 120)))
                                  (Scenario.retimed 120))) 1)
                   = Some (mkAudioBuffer 2 1000 44100 [[12%Z]; [12%Z]]))
    by reflexivity.
  split; [reflexivity|]. split; [split; reflexivity|].
  split; [split; reflexivity|]. split; [split; reflexivity|].
  split; [reflexivity|]. split; [split; assumption|].
  split; [split; reflexivity|].
  rewrite Hbefore, Hafter. discriminate.
Qed.

(** ** Loading a song *)

Lemma Latest_selectSong_run E c s song (b : TrackName -> AudioBuffer) :
  (forall t, decodeAudioData E song t = Some (b t)) ->
  let s1 := exec (Latest.selectSong E c song) s in
  fst (Latest.selectSong E c song s) = Ok tt
  /\ timers (wd s1) = timers (wd s) ++ [c]
  /\ nodes (wd s1) = nodes (wd s)
  /\ currentTime (wd s1) = currentTime (wd s)
  /\ engineCalls (wd s1) = engineCalls (wd s)
  /\ isPlaying (st s1) = isPlaying (st s)
  /\ sources (st s1) = sources (st s)
  /\ isLoading (st s1) = false
  /\ selectedSong (st s1) = Some song
  /\ lastProcessedBpm (st s1) = Some (tempo song)
  /\ lastProcessedPitch (st s1) = 0%Z
  /\ (forall t, tracks (st s1) t = INITIAL_TRACKS t)
  /\ (forall t, heap (wd s1) (INITIAL_TRACKS t)
                = mkTrackState (Some (b t)) (Some (b t))
                    (muted (heap (wd s) (INITIAL_TRACKS t))))
  /\ (forall l, 4 <= l -> heap (wd s1) l = heap (wd s) l).
Proof.
  intros Hd. cbv zeta.
  unfold Latest.selectSong, Latest.loadBuffers, Latest.songEffects, trackNames.
  cbn [forEach]. unfold loadTrack. rewrite !Hd.
  destruct (selectedSong c) as [old|]; [destruct (Song_eqb old song)|];
    (repeat split;
     [ intros t; destruct t; reflexivity
     | intros l Hl; do 4 (destruct l as [|l]; [lia|]); reflexivity ]).
Qed.

Lemma runTimer_run E c rest s :
  timers (wd s) = c :: rest ->
  runTimer E s = handlePlay E c (mkSys (st s) (withTimers rest (wd s))).
Proof. intros H. unfold runTimer. rewrite H. reflexivity. Qed.

(** A song selected from a render in which [isPlaying] is set: the load
    goes through and schedules [handlePlay] of that render, which returns at
    its guard.  No node is created and none is stopped. *)
Lemma autoplay_turned_away E (c : State) (s : Sys) (song : Song)
  (b : TrackName -> AudioBuffer) :
  isPlaying c = true ->
  (forall t, decodeAudioData E song t = Some (b t)) ->
  timers (wd s) = [] ->
  let s1 := exec (Latest.selectSong E c song) s in
  let s2 := exec (runTimer E) s1 in
  fst (Latest.selectSong E c song s) = Ok tt
  /\ timers (wd s1) = [c]
  /\ (forall t, processedBuffer (heap (wd s1) (tracks (st s1) t))
                = Some (b t))
  /\ nodes (wd s2) = nodes (wd s)
  /\ sources (st s2) = sources (st s)
  /\ timers (wd s2) = [].
Proof.
  intros Hc Hd Htm. cbv zeta.
  pose proof (Latest_selectSong_run E c s song b Hd) as H. cbv zeta in H.
  destruct H as (Hok & Ht & Hn & _ & _ & _ & Hs & _ & _ & _ & _ & Htr & Hh & _).
  rewrite Htm in Ht. cbn [app] in Ht.
  set (s1 := exec (Latest.selectSong E c song) s) in *.
  split; [exact Hok|]. split; [exact Ht|]. split.
  { intros t. rewrite Htr, Hh. reflexivity. }
  unfold exec at 1 2 3. rewrite (runTimer_run E c [] s1 Ht).
  rewrite handlePlay_guard by exact Hc. cbn. auto.
Qed.

(** A song selected from a render in which [isPlaying] is clear and whose
    tracks record still holds the initial object of a stem: the start that
    the load schedules plays, for that stem, the buffer just loaded. *)
Lemma autoplay_starts_loaded_stem E (c : State) (s : Sys) (song : Song)
  (b : TrackName -> AudioBuffer) (t : TrackName) :
  isPlaying c = false ->
  (forall k, decodeAudioData E song k = Some (b k)) ->
  timers (wd s) = [] ->
  tracks c t = INITIAL_TRACKS t ->
  let s1 := exec (Latest.selectSong E c song) s in
  let s2 := exec (runTimer E) s1 in
  isPlaying (st s2) = true
  /\ exists h when_,
       In h (sources (st s2))
       /\ nth_error (nodes (wd s2)) h
          = Some (mkSourceNode t (b t)
                    (if muted (heap (wd s) (INITIAL_TRACKS t))
                     then DetachedGain else Destination) when_ false).
Proof.
  intros Hc Hd Htm Hsame. cbv zeta.
  pose proof (Latest_selectSong_run E c s song b Hd) as H. cbv zeta in H.
  destruct H as (_ & Ht & _ & _ & _ & _ & _ & _ & _ & _ & _ & _ & Hh & _).
  rewrite Htm in Ht. cbn [app] in Ht.
  set (s1 := exec (Latest.selectSong E c song) s) in *.
  set (s1' := mkSys (st s1) (withTimers [] (wd s1))).
  assert (Hrun : exec (runTimer E) s1 = exec (handlePlay E c) s1').
  { unfold exec. rewrite (runTimer_run E c [] s1 Ht). reflexivity. }
  rewrite Hrun.
  pose proof (handlePlay_starts E c s1' Hc) as Hst. cbv zeta in Hst.
  destruct Hst as (_ & _ & _ & Hp & _).
  split; [exact Hp|].
  destruct (handlePlay_starts_stem E c s1' t (b t) Hc) as (h & _ & Hin & Hnth).
  { change (heap (wd s1')) with (heap (wd s1)). rewrite Hsame, Hh.
    reflexivity. }
  exists h, (currentTime (wd s1')). split; [exact Hin|].
  rewrite Hnth. change (heap (wd s1')) with (heap (wd s1)).
  rewrite Hsame, Hh. reflexivity.
Qed.

(** A song selected from a render whose tracks record holds, for a stem, a
    copy made by an earlier mute toggle: the load writes into the initial
    objects, and the start it schedules plays through the record of the
    selecting render, so the node of that stem plays the buffer and follows
    the flag of the copy, not the buffer just loaded. *)
Lemma autoplay_plays_stale_record E (c : State) (s : Sys) (song : Song)
  (b : TrackName -> AudioBuffer) (t : TrackName) (pb : AudioBuffer) :
  isPlaying c = false ->
  (forall k, decodeAudioData E song k = Some (b k)) ->
  timers (wd s) = [] ->
  4 <= tracks c t ->
  processedBuffer (heap (wd s) (tracks c t)) = Some pb ->
  let s1 := exec (Latest.selectSong E c song) s in
  let s2 := exec (runTimer E) s1 in
  heap (wd s2) (tracks (st s2) t)
  = mkTrackState (Some (b t)) (Some (b t))
      (muted (heap (wd s) (INITIAL_TRACKS t)))
  /\ exists h when_,
       In h (sources (st s2))
       /\ nth_error (nodes (wd s2)) h
          = Some (mkSourceNode t pb
                    (if muted (heap (wd s) (tracks c t))
                     then DetachedGain else Destination) when_ false).
Proof.
  intros Hc Hd Htm Hcopy Hpb. cbv zeta.
  pose proof (Latest_selectSong_run E c s song b Hd) as H. cbv zeta in H.
  destruct H as (_ & Ht & _ & _ & _ & _ & _ & _ & _ & _ & _ & Htr & Hh & Hout).
  rewrite Htm in Ht. cbn [app] in Ht.
  set (s1 := exec (Latest.selectSong E c song) s) in *.
  set (s1' := mkSys (st s1) (withTimers [] (wd s1))).
  assert (Hrun : exec (runTimer E) s1 = exec (handlePlay E c) s1').
  { unfold exec. rewrite (runTimer_run E c [] s1 Ht). reflexivity. }
  rewrite Hrun.
  pose proof (handlePlay_starts E c s1' Hc) as Hst. cbv zeta in Hst.
  destruct Hst as (_ & _ & _ & _ & Hhp & _ & _ & _ & _ & Htp & _).
  split.
  - rewrite Hhp, Htp. change (heap (wd s1')) with (heap (wd s1)).
    change (tracks (st s1')) with (tracks (st s1)). rewrite Htr. apply Hh.
  - destruct (handlePlay_starts_stem E c s1' t pb Hc) as (h & _ & Hin & Hnth).
    { change (heap (wd s1')) with (heap (wd s1)). rewrite Hout by exact Hcopy.
      exact Hpb. }
    exists h, (currentTime (wd s1')). split; [exact Hin|].
    rewrite Hnth. change (heap (wd s1')) with (heap (wd s1)).
    rewrite Hout by exact Hcopy. reflexivity.
Qed.

(** C10 at the failing inputs, with buffers of ten frames per BPM so that
    the songs can be told apart (950 frames for the first song, 1200 for the
    second).  First input: the second song is selected while the first
    plays.  Its load goes through and leaves its timer, but the timer starts
    nothing: the nodes are the four of the first song, still running.
    Second input: every stem was muted by hand before the second song is
    selected.  The timer starts a session, but of the first song's buffers,
    all into gain nodes connected to nothing, while the tracks record shows
    the second song's buffers, unmuted. *)
Theorem C10_autoplay_misses_the_load :
  let s1 := Scenario.secondLoadedWhilePlaying in
  let s2 := Latest.step Scenario.envBySong s1 Latest.TimerFires in
  let m1 := Scenario.secondLoadedAfterMutes in
  let m2 := Latest.step Scenario.envBySong m1 Latest.TimerFires in
  let shown := fun (x : Sys) =>
    map (fun t => (option_map bufLength
                     (processedBuffer (heap (wd x) (tracks (st x) t))),
                   muted (heap (wd x) (tracks (st x) t)))) trackNames in
  let heard := fun (x : Sys) =>
    map (fun n => (src_track n, bufLength (src_buffer n), src_output n,
                   src_stopped n)) (nodes (wd x)) in
  (tempo Scenario.thisLove = 95%Z /\ tempo Scenario.fastSong = 120%Z)
  /\ (selectedSong (st s1) = Some Scenario.fastSong
      /\ isLoading (st s1) = false
      /\ List.length (timers (wd s1)) = 1
      /\ shown s1 = [(Some 1200%Z, false); (Some 1200%Z, false);
                     (Some 1200%Z, false); (Some 1200%Z, false)])
  /\ (timers (wd s2) = []
      /\ heard s2 = [(bass, 950%Z, Destination, false);
                     (drums, 950%Z, Destination, false);
                     (other, 950%Z, Destination, false);
                     (vocals, 950%Z, Destination, false)]
      /\ heard s2 = heard s1)
  /\ (selectedSong (st m1) = Some Scenario.fastSong
      /\ isLoading (st m1) = false /\ isPlaying (st m1) = false
      /\ List.length (timers (wd m1)) = 1)
  /\ (timers (wd m2) = [] /\ isPlaying (st m2) = true
      /\ sources (st m2) = [4; 5; 6; 7]
      /\ heard m2 = [(bass, 950%Z, Destination, true);
                     (drums, 950%Z, Destination, true);
                     (other, 950%Z, Destination, true);
                     (vocals, 950%Z, Destination, true);
                     (bass, 950%Z, DetachedGain, false);
                     (drums, 950%Z, DetachedGain, false);
                     (other, 950%Z, DetachedGain, false);
                     (vocals, 950%Z, DetachedGain, false)]
      /\ shown m2 = [(Some 1200%Z, false); (Some 1200%Z, false);
                     (Some 1200%Z, false); (Some 1200%Z, false)]).
Proof.
  cbv zeta. vm_compute. repeat split.
Qed.

(** ** Invariants of the latest prototype

    The hypotheses used above hold in every state the user can reach. *)

Lemma handlePlay_storeCovers E c s :
  storeCovers s -> storeCovers (exec (handlePlay E c) s).
Proof.
  intros (H4 & Hal). destruct (isPlaying c) eqn:Hp.
  - unfold exec. rewrite handlePlay_guard by exact Hp. split; assumption.
  - pose proof (handlePlay_starts E c s Hp) as H. cbv zeta in H.
    destruct H as (_ & _ & _ & _ & _ & _ & _ & _ & Hn & Ht & _).
    split; [rewrite Hn; exact H4|]. intros t. rewrite Ht, Hn. apply Hal.
Qed.

Lemma handleStop_storeCovers c s :
  storeCovers s -> storeCovers (exec (handleStop c) s).
Proof.
  intros (H4 & Hal). destruct (handleStop_muteStep c s) as (_ & Ht & Hn).
  split; [rewrite Hn; exact H4|]. intros t. rewrite Ht, Hn. apply Hal.
Qed.

Lemma processAllTracks_storeCovers E s :
  storeCovers s -> storeCovers (exec (Latest.processAllTracks E (st s)) s).
Proof.
  intros (H4 & Hal).
  pose proof (Latest_processAllTracks_frame E (st s) s) as Hf. cbv zeta in Hf.
  destruct Hf as (_ & _ & _ & _ & Hn & _).
  split; [rewrite Hn; exact H4|].
  assert (Ht : tracks (st (exec (Latest.processAllTracks E (st s)) s))
               = tracks (st s)).
  { destruct (fst (Latest.processAllTracks E (st s) s)) as [[]|] eqn:Hr.
    - apply (Latest_processAllTracks_ok E (st s) s Hr).
    - apply (Latest_processAllTracks_throw E (st s) s Hr). }
  intros t. rewrite Ht, Hn. apply Hal.
Qed.

Lemma selectSong_storeCovers E c s song :
  storeCovers s -> storeCovers (exec (Latest.selectSong E c song) s).
Proof.
  intros Hs.
  unfold Latest.selectSong, Latest.loadBuffers, Latest.songEffects.
  apply (exec_bind_preserves storeCovers); [exact Hs|]. intros _ s1 H1.
  apply (exec_bind_preserves storeCovers).
  { destruct (selectedSong c) as [old|]; [destruct (Song_eqb old song)|];
      exact H1. }
  clear s1 H1. intros _ s1 H1.
  apply (exec_bind_preserves storeCovers); [exact H1|].
  clear s1 H1. intros _ s1 H1.
  apply (exec_bind_preserves storeCovers).
  { apply (forEach_preserves storeCovers); [|exact H1].
    intros t x Hx. unfold loadTrack.
    destruct (decodeAudioData E song t); exact Hx. }
  clear s1 H1. intros _ s1 H1.
  apply (exec_bind_preserves storeCovers).
  { destruct H1 as (H4 & _). split; [exact H4|].
    intros t. cbn. destruct t; cbn; lia. }
  clear s1 H1. intros _ s1 H1.
  repeat (apply (exec_bind_preserves storeCovers); [exact H1|];
          clear s1 H1; intros _ s1 H1).
  exact H1.
Qed.

Lemma toggleMute_storeCovers c track s :
  storeCovers s -> storeCovers (exec (Latest.toggleMute c track) s).
Proof.
  intros (H4 & Hal).
  destruct (Latest_toggleMute_muteStep c track s Hal) as ((Hn & _) & Hal').
  split; [lia|exact Hal'].
Qed.

Lemma step_storeCovers E s e :
  storeCovers s -> storeCovers (Latest.step E s e).
Proof.
  intros Hs. unfold Latest.step. destruct e as [song| |track|v|v|]; cbn.
  - apply selectSong_storeCovers. exact Hs.
  - unfold Latest.handlePlayClick. destruct (isPlaying (st s)).
    + apply handleStop_storeCovers. exact Hs.
    + rewrite exec_bind.
      destruct (Latest.needsProcessing (st s)).
      * pose proof (processAllTracks_storeCovers E s Hs) as Hp.
        destruct (fst (Latest.processAllTracks E (st s) s)); [|exact Hp].
        apply handlePlay_storeCovers. exact Hp.
      * cbn. apply handlePlay_storeCovers. exact Hs.
  - apply toggleMute_storeCovers. exact Hs.
  - unfold Latest.changeBpm.
    apply (exec_bind_preserves storeCovers); [|intros _ s1 H1; exact H1].
    destruct (isPlaying (st s)); [apply handleStop_storeCovers|]; exact Hs.
  - unfold Latest.changePitch.
    apply (exec_bind_preserves storeCovers); [|intros _ s1 H1; exact H1].
    destruct (isPlaying (st s)); [apply handleStop_storeCovers|]; exact Hs.
  - unfold exec, runTimer. destruct (timers (wd s)) as [|c rest]; [exact Hs|].
    apply (handlePlay_storeCovers E c
             (mkSys (st s) (withTimers rest (wd s)))).
    exact Hs.
Qed.

(** In every reachable state the tracks record holds allocated objects: the
    hypothesis of the mute results. *)
Lemma reachable_storeCovers E es :
  storeCovers (Latest.run E es Latest.initialSys).
Proof.
  unfold Latest.run.
  assert (H0 : storeCovers Latest.initialSys).
  { split; [cbn; lia|]. intros t. destruct t; cbn; lia. }
  revert H0. generalize Latest.initialSys.
  induction es as [|e rest IH]; intros s Hs; [exact Hs|].
  cbn [fold_left]. apply IH. apply step_storeCovers. exact Hs.
Qed.

Lemma keeps_song_inv s s' :
  selectedSong (st s') = selectedSong (st s)
  /\ baseBpm (st s') = baseBpm (st s) ->
  baseIsSongTempo (st s) -> baseIsSongTempo (st s').
Proof.
  intros (Hs1 & Hs2) Hinv song Hsong.
  rewrite Hs2. apply Hinv. rewrite <- Hs1. exact Hsong.
Qed.

Lemma step_baseIsSongTempo E s e :
  baseIsSongTempo (st s) -> baseIsSongTempo (st (Latest.step E s e)).
Proof.
  intros Hinv. unfold Latest.step.
  destruct e as [song| |track|v|v|]; cbn [Latest.dispatch];
    [apply Latest_selectSong_base; exact Hinv|..];
    (apply (keeps_song_inv s); [|exact Hinv]).
  - unfold Latest.handlePlayClick. destruct (isPlaying (st s)) eqn:Hp.
    + pose proof (handleStop_run (st s) s) as H. cbv zeta in H.
      split; apply H.
    + rewrite exec_bind.
      assert (Hpre : selectedSong
                       (st (exec (if Latest.needsProcessing (st s)
                                  then Latest.processAllTracks E (st s)
                                  else ret tt) s)) = selectedSong (st s)
                     /\ baseBpm
                          (st (exec (if Latest.needsProcessing (st s)
                                     then Latest.processAllTracks E (st s)
                                     else ret tt) s)) = baseBpm (st s)).
      { destruct (Latest.needsProcessing (st s)); [|split; reflexivity].
        pose proof (Latest_processAllTracks_frame E (st s) s) as H.
        cbv zeta in H. split; apply H. }
      destruct (fst ((if Latest.needsProcessing (st s)
                      then Latest.processAllTracks E (st s)
                      else ret tt) s)); [|exact Hpre].
      pose proof (handlePlay_starts E (st s)
                    (exec (if Latest.needsProcessing (st s)
                           then Latest.processAllTracks E (st s)
                           else ret tt) s) Hp) as H.
      cbv zeta in H. destruct Hpre as (<- & <-). split; apply H.
  - rewrite Latest_toggleMute_unfold.
    pose proof (flipMuted_run track
                  (if isPlaying (st s) then exec (handleStop (st s)) s
                   else s)) as H.
    cbv zeta in H.
    destruct H as (_ & _ & _ & _ & _ & _ & _ & _ & _ & _ & _ & -> & ->).
    destruct (isPlaying (st s)); [|split; reflexivity].
    pose proof (handleStop_run (st s) s) as H. cbv zeta in H.
    split; apply H.
  - unfold Latest.changeBpm. rewrite exec_bind.
    destruct (isPlaying (st s)); [|split; reflexivity].
    pose proof (handleStop_run (st s) s) as H. cbv zeta in H.
    destruct H as (-> & H). cbn. split; apply H.
  - unfold Latest.changePitch. rewrite exec_bind.
    destruct (isPlaying (st s)); [|split; reflexivity].
    pose proof (handleStop_run (st s) s) as H. cbv zeta in H.
    destruct H as (-> & H). cbn. split; apply H.
  - unfold exec, runTimer. destruct (timers (wd s)) as [|c rest];
      [split; reflexivity|].
    destruct (isPlaying c) eqn:Hp.
    + rewrite handlePlay_guard by exact Hp. split; reflexivity.
    + pose proof (handlePlay_starts E c
                    (mkSys (st s) (withTimers rest (wd s))) Hp) as H.
      cbv zeta in H. unfold exec in H. split; apply H.
Qed.

Lemma reachable_baseIsSongTempo E es :
  baseIsSongTempo (st (Latest.run E es Latest.initialSys)).
Proof.
  unfold Latest.run.
  assert (H0 : baseIsSongTempo (st Latest.initialSys))
    by (intros song H; discriminate H).
  revert H0. generalize Latest.initialSys.
  induction es as [|e rest IH]; intros s Hs; [exact Hs|].
  cbn [fold_left]. apply IH. apply step_baseIsSongTempo. exact Hs.
Qed.

(** In every reachable state of the latest prototype with a song selected,
    a render pass hands the engine the requested BPM over that song's tempo
    and two to the power of a twelfth of the semitone shift. *)
Lemma Latest_reachable_ratios E es song :
  let s := Latest.run E es Latest.initialSys in
  selectedSong (st s) = Some song ->
  loggedWith (IZR (bpm (st s)) / IZR (tempo song))%R
    (Rpower 2 (IZR (pitchSemitones (st s)) / 12)) s
    (exec (Latest.processAllTracks E (st s)) s).
Proof.
  cbv zeta. intros Hsong.
  rewrite <- (reachable_baseIsSongTempo E es song Hsong).
  apply Latest_ratios.
Qed.

(** * Further properties of the code *)

(** ** Looking a song up from the select *)

Lemma split_nonempty sep s : split sep s <> [].
Proof.
  destruct s as [|ch rest]; cbn; [discriminate|].
  destruct (Ascii.eqb ch sep); [discriminate|].
  destruct (split sep rest); discriminate.
Qed.

Lemma split_clean sep s : occurs sep s = false -> split sep s = [s].
Proof.
  induction s as [|ch rest IH]; cbn; [reflexivity|].
  intros H. apply orb_false_iff in H. destruct H as (Hch & Hrest).
  rewrite Hch, (IH Hrest). reflexivity.
Qed.

Lemma split_at_sep sep a b :
  occurs sep a = false ->
  split sep (a ++ String sep b)%string = a :: split sep b.
Proof.
  induction a as [|ch rest IH]; cbn.
  - intros _. rewrite Ascii.eqb_refl. reflexivity.
  - intros H. apply orb_false_iff in H. destruct H as (Hch & Hrest).
    rewrite Hch, (IH Hrest). reflexivity.
Qed.

Lemma split_parts_clean sep s :
  Forall (fun w => occurs sep w = false) (split sep s).
Proof.
  induction s as [|ch rest IH]; cbn.
  - repeat constructor.
  - destruct (Ascii.eqb ch sep) eqn:Hch.
    + constructor; [reflexivity|exact IH].
    + destruct (split sep rest) as [|w ws].
      * repeat constructor. cbn. rewrite Hch. reflexivity.
      * inversion IH as [|? ? Hw Hws]; subst. constructor; [|exact Hws].
        cbn. rewrite Hch, Hw. reflexivity.
Qed.

(** A song of the library whose artist and title hold no hyphen is found
    again from the value of its own option. *)
Lemma findSong_round_trip (library : list Song) (song : Song) :
  In song library ->
  occurs hyphen (artist song) = false ->
  occurs hyphen (title song) = false ->
  exists found,
    findSong library (optionValue song) = Some found
    /\ artist found = artist song /\ title found = title song.
Proof.
  intros Hin Ha Ht. unfold findSong, optionValue.
  rewrite (split_at_sep _ _ _ Ha), (split_clean _ _ Ht).
  destruct (find (fun s => String.eqb (artist s) (artist song)
                           && String.eqb (title s) (title song)) library)
    as [found|] eqn:Hfind.
  - apply find_some in Hfind. destruct Hfind as (_ & Heq).
    apply andb_true_iff in Heq. destruct Heq as (H1 & H2).
    apply String.eqb_eq in H1, H2. exists found. auto.
  - apply (find_none _ _ Hfind) in Hin.
    rewrite !String.eqb_refl in Hin. discriminate Hin.
Qed.

(** The lookup never returns a song with a hyphen in its artist or in its
    title, and a value without any hyphen finds nothing. *)
Lemma findSong_never_hyphenated (library : list Song) (value : string) :
  (occurs hyphen value = false -> findSong library value = None)
  /\ (forall found, findSong library value = Some found ->
        occurs hyphen (artist found) = false
        /\ occurs hyphen (title found) = false)
  /\ (forall song,
        occurs hyphen (artist song) = true
        \/ occurs hyphen (title song) = true ->
        findSong library value <> Some song).
Proof.
  assert (Hfound : forall found, findSong library value = Some found ->
            occurs hyphen (artist found) = false
            /\ occurs hyphen (title found) = false).
  { intros found. unfold findSong.
    pose proof (split_parts_clean hyphen value) as Hparts.
    destruct (split hyphen value) as [|a [|t rest]]; try discriminate.
    intros Hfind. apply find_some in Hfind. destruct Hfind as (_ & Heq).
    apply andb_true_iff in Heq. destruct Heq as (H1 & H2).
    apply String.eqb_eq in H1, H2. rewrite H1, H2.
    inversion Hparts as [|? ? Ha Hrest]; subst.
    inversion Hrest as [|? ? Ht _]; subst. auto. }
  split; [|split; [exact Hfound|]].
  - intros Hclean. unfold findSong. rewrite (split_clean _ _ Hclean).
    reflexivity.
  - intros song Hhyphen Hfind. apply Hfound in Hfind.
    destruct Hfind as (Ha & Ht). destruct Hhyphen as [H|H];
      rewrite H in *; discriminate.
Qed.

Lemma Latest_selectSong_selected E c s song :
  selectedSong (st (exec (Latest.selectSong E c song) s)) = Some song.
Proof.
  set (P := fun x : Sys => selectedSong (st x) = Some song).
  change (P (exec (Latest.selectSong E c song) s)).
  unfold Latest.selectSong, Latest.loadBuffers, Latest.songEffects.
  apply (exec_bind_preserves P); [reflexivity|]. intros _ s1 H1.
  apply (exec_bind_preserves P).
  { destruct (selectedSong c) as [old|]; [destruct (Song_eqb old song)|];
      exact H1. }
  clear s1 H1. intros _ s1 H1.
  apply (exec_bind_preserves P); [exact H1|]. clear s1 H1. intros _ s1 H1.
  apply (exec_bind_preserves P).
  { apply (forEach_preserves P); [|exact H1].
    intros t x Hx. unfold loadTrack.
    destruct (decodeAudioData E song t); exact Hx. }
  clear s1 H1. intros _ s1 H1.
  repeat (apply (exec_bind_preserves P); [exact H1|];
          clear s1 H1; intros _ s1 H1).
  exact H1.
Qed.



(** X1: choosing the option of a library song whose artist and title hold
    no hyphen selects a song of that artist and title: the lookup finds
    such a song in the library and the handler makes it the selected song,
    whether or not its stems then load. *)
Theorem select_finds_own_song (E : Env) (library : list Song) (song : Song)
  (c : State) (s : Sys) :
  In song library ->
  occurs hyphen (artist song) = false ->
  occurs hyphen (title song) = false ->
  exists found,
    findSong library (optionValue song) = Some found
    /\ artist found = artist song /\ title found = title song
    /\ selectedSong
         (st (exec (Latest.onSongChange E library c (optionValue song)) s))
       = Some found.
Proof.
  intros Hin Ha Ht.
  destruct (findSong_round_trip library song Hin Ha Ht)
    as (found & Hfind & Hfa & Hft).
  exists found. repeat (split; [assumption|]).
  unfold Latest.onSongChange. rewrite Hfind.
  apply Latest_selectSong_selected.
Qed.

Lemma select_finds_own_song_witness :
  In Scenario.thisLove [Scenario.fastSong; Scenario.thisLove]
  /\ occurs hyphen (artist Scenario.thisLove) = false
  /\ occurs hyphen (title Scenario.thisLove) = false
  /\ exists found,
       findSong [Scenario.fastSong; Scenario.thisLove]
         (optionValue Scenario.thisLove) = Some found
       /\ artist found = artist Scenario.thisLove
       /\ title found = title Scenario.thisLove
       /\ selectedSong
            (st (exec (Latest.onSongChange Scenario.env
                         [Scenario.fastSong; Scenario.thisLove]
                         Latest.initialState (optionValue Scenario.thisLove))
                   Latest.initialSys))
          = Some found.
Proof.
  assert (Hin : In Scenario.thisLove [Scenario.fastSong; Scenario.thisLove])
    by (right; left; reflexivity).
  assert (Ha : occurs hyphen (artist Scenario.thisLove) = false)
    by (vm_compute; reflexivity).
  assert (Ht : occurs hyphen (title Scenario.thisLove) = false)
    by (vm_compute; reflexivity).
  split; [exact Hin|]. split; [exact Ha|]. split; [exact Ht|].
  exact (select_finds_own_song Scenario.env
           [Scenario.fastSong; Scenario.thisLove] Scenario.thisLove
           Latest.initialState Latest.initialSys Hin Ha Ht).
Defined.

(** X2: a song with a hyphen in its artist or in its title can never be
    selected: whatever value the select delivers and whatever the library
    holds, the handler does not make it the selected song; and a value
    without any hyphen changes nothing at all. *)
Theorem hyphenated_song_unselectable (E : Env) (library : list Song)
  (value : string) (song : Song) (c : State) (s : Sys) :
  occurs hyphen (artist song) = true \/ occurs hyphen (title song) = true ->
  selectedSong (st s) <> Some song ->
  selectedSong (st (exec (Latest.onSongChange E library c value) s))
  <> Some song
  /\ (occurs hyphen value = false ->
      Latest.onSongChange E library c value s = (Ok tt, s)).
Proof.
  intros Hhyphen Hbefore.
  destruct (findSong_never_hyphenated library value) as (Hnone & _ & Hnever).
  split.
  - unfold Latest.onSongChange.
    destruct (findSong library value) as [found|] eqn:Hfind; [|exact Hbefore].
    rewrite Latest_selectSong_selected. intros [= ->].
    exact (Hnever song Hhyphen eq_refl).
  - intros Hclean. unfold Latest.onSongChange. rewrite (Hnone Hclean).
    reflexivity.
Qed.

Lemma hyphenated_song_unselectable_witness :
  (occurs hyphen (artist (mkSong "99 Problems" "Jay-Z" "F#m" 94)) = true
   \/ occurs hyphen (title (mkSong "99 Problems" "Jay-Z" "F#m" 94)) = true)
  /\ selectedSong (st Latest.initialSys)
     <> Some (mkSong "99 Problems" "Jay-Z" "F#m" 94)
  /\ selectedSong
       (st (exec (Latest.onSongChange Scenario.env
                    [mkSong "99 Problems" "Jay-Z" "F#m" 94]
                    Latest.initialState
                    (optionValue (mkSong "99 Problems" "Jay-Z" "F#m" 94)))
              Latest.initialSys))
     <> Some (mkSong "99 Problems" "Jay-Z" "F#m" 94).
Proof.
  assert (Hh : occurs hyphen (artist (mkSong "99 Problems" "Jay-Z" "F#m" 94))
               = true
               \/ occurs hyphen (title (mkSong "99 Problems" "Jay-Z" "F#m" 94))
                  = true)
    by (left; vm_compute; reflexivity).
  assert (Hb : selectedSong (st Latest.initialSys)
               <> Some (mkSong "99 Problems" "Jay-Z" "F#m" 94))
    by (intros H; discriminate H).
  split; [exact Hh|]. split; [exact Hb|].
  exact (proj1 (hyphenated_song_unselectable Scenario.env
                  [mkSong "99 Problems" "Jay-Z" "F#m" 94]
                  (optionValue (mkSong "99 Problems" "Jay-Z" "F#m" 94))
                  (mkSong "99 Problems" "Jay-Z" "F#m" 94)
                  Latest.initialState Latest.initialSys Hh Hb)).
Defined.

(** ** Stopping *)

Lemma stopAll_nth_outside l : forall ns h,
  ~ In h l -> nth_error (fold_left stopAt l ns) h = nth_error ns h.
Proof.
  induction l as [|x r IH]; intros ns h Hout; [reflexivity|].
  cbn [fold_left]. rewrite IH by (intros Hr; apply Hout; right; exact Hr).
  apply stopAt_nth_other. intros ->. apply Hout. left. reflexivity.
Qed.

Lemma stopAll_keeps_dead l ns h :
  match nth_error ns h with
  | Some n => src_stopped n = true
  | None => True
  end ->
  match nth_error (fold_left stopAt l ns) h with
  | Some n => src_stopped n = true
  | None => True
  end.
Proof.
  intros Hdead.
  destruct (nth_error (fold_left stopAt l ns) h) as [n'|] eqn:Hh; [|exact I].
  apply stopAll_nth in Hh.
  destruct Hh as (n & Hn & _ & _ & _ & _ & Hs & _).
  rewrite Hn in Hdead. auto.
Qed.

(** What [handleStop] does to the nodes, the render state and the store. *)
Lemma handleStop_effect (c : State) (s : Sys) :
  let s' := exec (handleStop c) s in
  fst (handleStop c s) = Ok tt
  /\ (forall h, In h (sources c) -> isLive (wd s') h = false)
  /\ (forall h, ~ In h (sources c) ->
        nth_error (nodes (wd s')) h = nth_error (nodes (wd s)) h)
  /\ (forall h, isLive (wd s) h = false -> isLive (wd s') h = false)
  /\ sources (st s') = [] /\ isPlaying (st s') = false
  /\ heap (wd s') = heap (wd s)
  /\ engineCalls (wd s') = engineCalls (wd s)
  /\ nodes (wd (exec (handleStop (st s')) s')) = nodes (wd s').
Proof.
  cbv zeta. pose proof (handleStop_run c s) as H. cbv zeta in H.
  destruct H as (Hok & Hn & Hs & Hp & Hh & He & _).
  split; [exact Hok|]. split.
  { intros h Hin. eapply stopAll_not_live; eassumption. }
  split.
  { intros h Hout. rewrite Hn. apply stopAll_nth_outside. exact Hout. }
  split.
  { intros h Hdead. unfold isLive in *. rewrite Hn.
    pose proof (stopAll_keeps_dead (sources c) (nodes (wd s)) h) as Hk.
    destruct (nth_error (nodes (wd s)) h) as [n|].
    - apply negb_false_iff in Hdead. specialize (Hk Hdead).
      destruct (nth_error (fold_left stopAt (sources c) (nodes (wd s))) h);
        [rewrite Hk|]; reflexivity.
    - specialize (Hk I).
      destruct (nth_error (fold_left stopAt (sources c) (nodes (wd s))) h)
        as [n'|] eqn:Hn'; [|reflexivity].
      rewrite Hk. reflexivity. }
  split; [exact Hs|]. split; [exact Hp|]. split; [exact Hh|].
  split; [exact He|].
  pose proof (handleStop_run (st (exec (handleStop c) s))
                (exec (handleStop c) s)) as H2.
  cbv zeta in H2. destruct H2 as (_ & Hn2 & _). rewrite Hn2, Hs. reflexivity.
Qed.

(** X3: [handleStop] never throws; it stops every node of the render's
    [sources], leaves every other node exactly as it was, revives none,
    empties [sources] and clears [isPlaying]; it touches neither the store
    nor the engine; and stopping again from the next render changes no
    node. *)
Theorem handleStop_stops_session (c : State) (s : Sys) :
  let s' := exec (handleStop c) s in
  fst (handleStop c s) = Ok tt
  /\ (forall h, In h (sources c) -> isLive (wd s') h = false)
  /\ (forall h, ~ In h (sources c) ->
        nth_error (nodes (wd s')) h = nth_error (nodes (wd s)) h)
  /\ (forall h, isLive (wd s) h = false -> isLive (wd s') h = false)
  /\ sources (st s') = [] /\ isPlaying (st s') = false
  /\ heap (wd s') = heap (wd s)
  /\ engineCalls (wd s') = engineCalls (wd s)
  /\ nodes (wd (exec (handleStop (st s')) s')) = nodes (wd s').
Proof.
  exact (handleStop_effect c s).
Qed.

(** ** Sessions of the first prototype *)

Lemma sessionTracked_frame s s' :
  nodes (wd s') = nodes (wd s) -> sources (st s') = sources (st s) ->
  isPlaying (st s') = isPlaying (st s) ->
  sessionTracked s -> sessionTracked s'.
Proof.
  intros Hn Hs Hp (H1 & H2 & H3).
  unfold sessionTracked, isLive, noOverlap. rewrite Hn, Hs, Hp. auto.
Qed.

Lemma sessionTracked_stop s :
  sessionTracked s -> sessionTracked (exec (handleStop (st s)) s)
  /\ forall h, isLive (wd (exec (handleStop (st s)) s)) h = false.
Proof.
  intros (Hlive & Hidle & Hno).
  pose proof (handleStop_effect (st s) s) as H. cbv zeta in H.
  destruct H as (_ & Hin & _ & Hdead & Hs & Hp & _).
  assert (Hnone : forall h, isLive (wd (exec (handleStop (st s)) s)) h = false).
  { intros h. destruct (isLive (wd s) h) eqn:Hh.
    - apply Hin. apply Hlive. exact Hh.
    - apply Hdead. exact Hh. }
  split; [|exact Hnone]. split; [|split].
  - intros h Hh. rewrite Hnone in Hh. discriminate.
  - intros _. exact Hs.
  - intros h1 h2 n1 n2 H1 H2 L1 L2 _.
    specialize (Hnone h1). unfold isLive in Hnone. rewrite H1, L1 in Hnone.
    discriminate.
Qed.

(** A start that resumes when nothing plays. *)
Lemma sessionTracked_start E c s :
  isPlaying c = false -> sessionTracked s -> isPlaying (st s) = false ->
  sessionTracked (exec (startSession E c) s)
  /\ isPlaying (st (exec (startSession E c) s)) = true.
Proof.
  intros Hc (Hlive & Hidle & Hno) Hp.
  assert (Heq : exec (startSession E c) s = exec (handlePlay E c) s).
  { unfold exec. rewrite handlePlay_resumes, Hc. reflexivity. }
  rewrite Heq.
  assert (Hdead : forall h, isLive (wd s) h = false).
  { intros h. destruct (isLive (wd s) h) eqn:Hh; [|reflexivity].
    apply Hlive in Hh. rewrite (Hidle Hp) in Hh. destruct Hh. }
  pose proof (handlePlay_starts E c s Hc) as H. cbv zeta in H.
  destruct H as (_ & Hn & Hs & Hp' & _).
  split; [|exact Hp']. split; [|split].
  - intros h Hh. rewrite Hs. apply in_seq. unfold isLive in Hh.
    rewrite Hn in Hh.
    destruct (nth_error (nodes (wd s) ++ _) h) as [n|] eqn:Hnth;
      [|discriminate].
    assert (Hlt : h < List.length (nodes (wd s) ++
              sessionNodes (heap (wd s)) c (currentTime (wd s)) trackNames)).
    { apply nth_error_Some. rewrite Hnth. discriminate. }
    rewrite length_app in Hlt.
    destruct (Nat.lt_ge_cases h (List.length (nodes (wd s)))) as [Hold|Hnew];
      [|lia].
    rewrite nth_error_app1 in Hnth by exact Hold.
    specialize (Hdead h). unfold isLive in Hdead. rewrite Hnth in Hdead.
    rewrite Hdead in Hh. discriminate.
  - intros H. rewrite Hp' in H. discriminate.
  - apply noOverlap_after_start; assumption.
Qed.

Lemma sessionUntouched_refl s : sessionUntouched s s.
Proof. repeat split. Qed.

Lemma sessionUntouched_trans s1 s2 s3 :
  sessionUntouched s1 s2 -> sessionUntouched s2 s3 -> sessionUntouched s1 s3.
Proof.
  unfold sessionUntouched. intros (a1 & a2 & a3) (b1 & b2 & b3).
  repeat split; congruence.
Qed.

Lemma sessionUntouched_tracked s s' :
  sessionUntouched s s' -> sessionTracked s -> sessionTracked s'.
Proof.
  intros (Hn & Hs & Hp). apply sessionTracked_frame; assumption.
Qed.

(** The tasks of [loadBuffers] and [processAllTracks], one by one. *)
Lemma renderFrom_session c keys : forall s,
  sessionUntouched s (fst (Interleaved.renderFrom c keys s)).
Proof.
  induction keys as [|t rest IH]; intros s; cbn [Interleaved.renderFrom].
  - repeat split.
  - destruct (buffer (heap (wd s) (tracks c t)));
      [apply sessionUntouched_refl|apply IH].
Qed.

Lemma resume_session E f s :
  sessionUntouched s (fst (Interleaved.resume E f s)).
Proof.
  destruct f as [song [|t rest]|c t ob rest]; cbn [Interleaved.resume].
  - apply sessionUntouched_refl.
  - unfold loadTrack. destruct (decodeAudioData E song t) as [b|];
      [|apply sessionUntouched_refl].
    destruct rest; repeat split.
  - cbv zeta. unfold bind, startRendering.
    destruct (soundTouch E ob _ _) as [data|]; [|repeat split].
    eapply sessionUntouched_trans; [|apply renderFrom_session].
    repeat split.
Qed.

Lemma click_session E e k :
  e <> Legacy.PlayAll -> e <> Legacy.StopAll ->
  sessionUntouched (Interleaved.sys k)
    (Interleaved.sys (Interleaved.click E e k))
  /\ Interleaved.starting (Interleaved.click E e k) = Interleaved.starting k.
Proof.
  intros Hplay Hstop. destruct e as [song| | | |track|v|v];
    try contradiction; cbn [Interleaved.click].
  - split; [|reflexivity]. cbn [Interleaved.sys].
    unfold Legacy.songEffects.
    destruct (selectedSong (st (Interleaved.sys k))) as [old|];
      [destruct (Song_eqb old song)|]; repeat split.
  - destruct (Interleaved.renderFrom (st (Interleaved.sys k)) trackNames
                (exec (notePass ;; setIsProcessing true) (Interleaved.sys k)))
      as [s' f] eqn:Hr.
    split; [|reflexivity]. cbn [Interleaved.sys].
    pose proof (renderFrom_session (st (Interleaved.sys k)) trackNames
                  (exec (notePass ;; setIsProcessing true)
                     (Interleaved.sys k))) as H.
    rewrite Hr in H. cbn [fst] in H.
    eapply sessionUntouched_trans; [|exact H]. repeat split.
  - split; [|reflexivity]. cbn [Interleaved.sys Legacy.dispatch].
    unfold Legacy.toggleMute.
    pose proof (flipMuted_run track (Interleaved.sys k)) as H.
    cbv zeta in H.
    destruct H as (_ & _ & _ & _ & H1 & _ & _ & _ & _ & H3 & H2 & _).
    repeat split; assumption.
  - split; [|reflexivity]. repeat split.
  - split; [|reflexivity]. repeat split.
Qed.

Lemma perform_startsTracked E k task :
  startsTracked k ->
  (task = Interleaved.Click Legacy.PlayAll -> Interleaved.starting k = []) ->
  startsTracked (Interleaved.perform E k task).
Proof.
  intros (Htr & Hlen & Hidle & Hall) Hone.
  destruct task as [e|i|i|i]; cbn [Interleaved.perform].
  - assert (Hother : e <> Legacy.PlayAll -> e <> Legacy.StopAll ->
                     startsTracked (Interleaved.click E e k)).
    { intros Hplay Hstop.
      destruct (click_session E e k Hplay Hstop) as (Hun & Hst).
      split; [eapply sessionUntouched_tracked; eassumption|].
      rewrite Hst. split; [exact Hlen|]. split; [|exact Hall].
      intros Hne. destruct Hun as (_ & _ & ->). apply Hidle. exact Hne. }
    destruct e as [song| | | |track|v|v];
      try (apply Hother; discriminate).
    + cbn [Interleaved.click].
      destruct (isPlaying (st (Interleaved.sys k))) eqn:Hp.
      * split; [exact Htr|]. split; [exact Hlen|]. split; [|exact Hall].
        intros Hne. rewrite (Hone eq_refl) in Hne. contradiction.
      * split; [exact Htr|]. cbn [Interleaved.starting Interleaved.sys].
        rewrite (Hone eq_refl). cbn [app].
        split; [cbn; lia|]. split; [intros _; exact Hp|].
        constructor; [exact Hp|constructor].
    + cbn [Interleaved.click Legacy.dispatch].
      destruct (sessionTracked_stop _ Htr) as (Htr' & _).
      pose proof (handleStop_run (st (Interleaved.sys k))
                    (Interleaved.sys k)) as H.
      cbv zeta in H. destruct H as (_ & _ & _ & Hp & _).
      split; [exact Htr'|]. split; [exact Hlen|].
      split; [intros _; exact Hp|exact Hall].
  - destruct (nth_error (Interleaved.starting k) i) as [c|] eqn:Hi;
      [|exact (conj Htr (conj Hlen (conj Hidle Hall)))].
    destruct (Interleaved.starting k) as [|c0 [|c1 rest]] eqn:Hst;
      [destruct i; discriminate| |cbn in Hlen; lia].
    destruct i as [|i]; [|destruct i; discriminate].
    injection Hi as <-.
    inversion Hall as [|? ? Hc _]; subst.
    destruct (sessionTracked_start E c0 (Interleaved.sys k) Hc Htr)
      as (Htr' & _).
    { apply Hidle. discriminate. }
    split; [exact Htr'|]. cbn.
    split; [lia|]. split; [intros H; contradiction|constructor].
  - split; [exact Htr|]. cbn [Interleaved.starting Interleaved.sys].
    destruct (Interleaved.starting k) as [|c0 [|c1 rest]] eqn:Hst;
      [| |cbn in Hlen; lia].
    + destruct i; cbn; (split; [lia|]); (split; [intros H; contradiction|]);
        constructor.
    + destruct i as [|i].
      * cbn. split; [lia|]. split; [intros H; contradiction|constructor].
      * replace (Interleaved.removeAt (S i) [c0]) with [c0]
          by (destruct i; reflexivity).
        split; [exact Hlen|]. split; [exact Hidle|exact Hall].
  - destruct (nth_error (Interleaved.waiting k) i) as [f|];
      [|exact (conj Htr (conj Hlen (conj Hidle Hall)))].
    pose proof (resume_session E f (Interleaved.sys k)) as Hun.
    destruct (Interleaved.resume E f (Interleaved.sys k)) as [s' f'].
    cbn [fst] in Hun. cbn [Interleaved.sys Interleaved.starting].
    split; [eapply sessionUntouched_tracked; eassumption|].
    split; [exact Hlen|]. split; [|exact Hall].
    intros Hne. destruct Hun as (_ & _ & Hp). cbn [Interleaved.sys].
    rewrite Hp. apply Hidle. exact Hne.
Qed.

Lemma run_startsTracked E tasks : forall k,
  startsTracked k -> Interleaved.oneStartAtATime E tasks k = true ->
  startsTracked (Interleaved.run E tasks k).
Proof.
  induction tasks as [|task rest IH]; intros k Hk Hone; [exact Hk|].
  change (Interleaved.run E (task :: rest) k)
    with (Interleaved.run E rest (Interleaved.perform E k task)).
  cbn [Interleaved.oneStartAtATime] in Hone.
  assert (Hstep : (task = Interleaved.Click Legacy.PlayAll ->
                   Interleaved.starting k = [])
                  /\ Interleaved.oneStartAtATime E rest
                       (Interleaved.perform E k task) = true).
  { destruct task as [[song| | | |track|v|v]|i|i|i];
      try (split; [intros H; discriminate H|exact Hone]).
    destruct (Interleaved.starting k); [|discriminate].
    split; [reflexivity|exact Hone]. }
  destruct Hstep as (Hfirst & Hrest).
  apply IH; [|exact Hrest]. apply perform_startsTracked; assumption.
Qed.

Lemma initial_startsTracked : startsTracked Interleaved.initialConfig.
Proof.
  split; [|split; [cbn; lia|split; [intros H; contradiction|constructor]]].
  split; [|split].
  - intros [|h] Hh; discriminate Hh.
  - reflexivity.
  - intros [|h1] h2 n1 n2 H1; discriminate H1.
Qed.

(** Tasks run back to back are the handlers of [Legacy]: a click on Play
    All followed at once by its [Tone.start()], a song selection followed at
    once by its stems, and Apply followed at once by its renders. *)
Lemma play_back_to_back E k :
  Interleaved.starting k = [] ->
  Interleaved.sys
    (Interleaved.run E
       [Interleaved.Click Legacy.PlayAll; Interleaved.ToneStarted 0] k)
  = exec (handlePlay E (st (Interleaved.sys k))) (Interleaved.sys k).
Proof.
  intros Hst. unfold exec. rewrite handlePlay_resumes.
  cbn [Interleaved.run fold_left Interleaved.perform Interleaved.click].
  destruct (isPlaying (st (Interleaved.sys k))).
  - rewrite Hst. reflexivity.
  - cbn [Interleaved.starting]. rewrite Hst. reflexivity.
Qed.

Lemma exec_loop_step {A} (body : A -> M unit) (x : A) (rest : list A)
  (after : M unit) (s : Sys) :
  exec (forEach (x :: rest) body ;; after) s
  = match body x s with
    | (Ok _, s') => exec (forEach rest body ;; after) s'
    | (Throw, s') => s'
    end.
Proof.
  unfold exec. cbn [forEach]. unfold bind.
  destruct (body x s) as [[[]|] s']; reflexivity.
Qed.

Lemma settle_stems E song stg : forall keys s,
  keys <> [] ->
  Interleaved.sys
    (Interleaved.run E (repeat (Interleaved.Settled 0) (List.length keys))
       (Interleaved.mkConfig s stg [Interleaved.AwaitStem song keys]))
  = exec (forEach keys (loadTrack E song INITIAL_TRACKS) ;;
          setTracks INITIAL_TRACKS ;; setIsLoading false) s.
Proof.
  assert (Hidle : forall n s,
            Interleaved.run E (repeat (Interleaved.Settled 0) n)
              (Interleaved.mkConfig s stg [])
            = Interleaved.mkConfig s stg []).
  { induction n as [|n IH]; intros s; [reflexivity|]. cbn. apply IH. }
  induction keys as [|t rest IH]; intros s Hne; [contradiction|].
  cbn [List.length repeat Interleaved.run fold_left Interleaved.perform
       Interleaved.waiting nth_error Interleaved.sys Interleaved.starting
       Interleaved.resume].
  rewrite exec_loop_step.
  destruct (loadTrack E song INITIAL_TRACKS t s) as [[[]|] s'] eqn:Ht.
  - destruct rest as [|t' rest'].
    + reflexivity.
    + change (fold_left (Interleaved.perform E)
                (repeat (Interleaved.Settled 0) (List.length (t' :: rest')))
                (Interleaved.mkConfig s' stg
                   (Interleaved.replaceAt 0
                      (Some (Interleaved.AwaitStem song (t' :: rest')))
                      [Interleaved.AwaitStem song (t :: t' :: rest')])))
        with (Interleaved.run E
                (repeat (Interleaved.Settled 0) (List.length (t' :: rest')))
                (Interleaved.mkConfig s' stg
                   [Interleaved.AwaitStem song (t' :: rest')])).
      rewrite IH by discriminate. reflexivity.
  - change (fold_left (Interleaved.perform E)
              (repeat (Interleaved.Settled 0) (List.length rest))
              (Interleaved.mkConfig s' stg
                 (Interleaved.replaceAt 0 None
                    [Interleaved.AwaitStem song (t :: rest)])))
      with (Interleaved.run E
              (repeat (Interleaved.Settled 0) (List.length rest))
              (Interleaved.mkConfig s' stg [])).
    rewrite Hidle. reflexivity.
Qed.

Lemma load_back_to_back E k song :
  Interleaved.waiting k = [] ->
  Interleaved.sys
    (Interleaved.run E
       (Interleaved.Click (Legacy.SelectSong song)
        :: repeat (Interleaved.Settled 0) (List.length trackNames)) k)
  = exec (Legacy.selectSong E (st (Interleaved.sys k)) song)
      (Interleaved.sys k).
Proof.
  intros Hw. destruct k as [s0 stg wt]. cbn in Hw. subst wt.
  change (Interleaved.run E
            (Interleaved.Click (Legacy.SelectSong song)
             :: repeat (Interleaved.Settled 0) (List.length trackNames))
            (Interleaved.mkConfig s0 stg []))
    with (Interleaved.run E
            (repeat (Interleaved.Settled 0) (List.length trackNames))
            (Interleaved.mkConfig
               (exec (setSelectedSong (Some song) ;;
                      Legacy.songEffects (st s0) song ;;
                      setIsLoading true) s0)
               stg [Interleaved.AwaitStem song trackNames])).
  rewrite settle_stems by discriminate.
  cbn [Interleaved.sys]. unfold Legacy.selectSong, Legacy.loadBuffers.
  unfold Legacy.songEffects.
  destruct (selectedSong (st s0)) as [old|];
    [destruct (Song_eqb old song)|]; reflexivity.
Qed.

Lemma settle_renders E c stg : forall keys s n,
  List.length keys <= n ->
  Interleaved.sys
    (Interleaved.run E (repeat (Interleaved.Settled 0) n)
       (let (s', f) := Interleaved.renderFrom c keys s in
        Interleaved.mkConfig s' stg
          match f with Some f' => [f'] | None => [] end))
  = exec (forEach keys (renderTrack E Legacy.BASE_BPM c (tracks c)) ;;
          setTracks (tracks c) ;; setIsProcessing false) s.
Proof.
  assert (Hidle : forall n s,
            Interleaved.run E (repeat (Interleaved.Settled 0) n)
              (Interleaved.mkConfig s stg [])
            = Interleaved.mkConfig s stg []).
  { induction n as [|n IH]; intros s; [reflexivity|]. cbn. apply IH. }
  induction keys as [|t rest IH]; intros s n Hn.
  - cbn [Interleaved.renderFrom]. rewrite Hidle. reflexivity.
  - rewrite exec_loop_step. cbn [Interleaved.renderFrom].
    unfold renderTrack at 1. unfold bind at 1, deref at 1.
    destruct (buffer (heap (wd s) (tracks c t))) as [ob|] eqn:Hob.
    + destruct n as [|n]; [cbn in Hn; lia|].
      cbn [repeat Interleaved.run fold_left Interleaved.perform
           Interleaved.waiting nth_error Interleaved.sys
           Interleaved.starting Interleaved.resume].
      cbv zeta.
      destruct ((renderedBuffer <-
                   startRendering E
                     (mkOfflineAudioContext (numberOfChannels ob)
                        (bufLength ob) (sampleRate ob)) ob
                     (IZR (bpm c) / IZR Legacy.BASE_BPM)%R
                     (Rpower 2 (IZR (pitchSemitones c) / 12)) ;;
                 assignProcessedBuffer (tracks c t) renderedBuffer) s)
        as [[[]|] s'] eqn:Hr.
      * rewrite <- (IH s' n) by (cbn in Hn; lia).
        unfold Interleaved.run.
        destruct (Interleaved.renderFrom c rest s') as [s'' [f|]];
          reflexivity.
      * change (fold_left (Interleaved.perform E)
                  (repeat (Interleaved.Settled 0) n)
                  (Interleaved.mkConfig s' stg
                     (Interleaved.replaceAt 0 None
                        [Interleaved.AwaitRender c t ob rest])))
          with (Interleaved.run E (repeat (Interleaved.Settled 0) n)
                  (Interleaved.mkConfig s' stg [])).
        rewrite Hidle. reflexivity.
    + unfold ret at 1. apply IH. cbn in Hn. lia.
Qed.

Lemma apply_back_to_back E k :
  Interleaved.waiting k = [] ->
  Interleaved.sys
    (Interleaved.run E
       (Interleaved.Click Legacy.Apply
        :: repeat (Interleaved.Settled 0) (List.length trackNames)) k)
  = exec (Legacy.processAllTracks E (st (Interleaved.sys k)))
      (Interleaved.sys k).
Proof.
  intros Hw. destruct k as [s0 stg wt]. cbn in Hw. subst wt.
  pose proof (settle_renders E (st s0) stg trackNames
                (exec (notePass ;; setIsProcessing true) s0)
                (List.length trackNames) (le_n _)) as H.
  cbn [Interleaved.sys]. unfold Legacy.processAllTracks.
  etransitivity; [|etransitivity; [exact H|]].
  - unfold Interleaved.run at 1. cbn [fold_left Interleaved.perform
      Interleaved.click Interleaved.sys Interleaved.starting
      Interleaved.waiting app].
    destruct (Interleaved.renderFrom (st s0) trackNames
                (exec (notePass ;; setIsProcessing true) s0)) as [s' f].
    reflexivity.
  - reflexivity.
Qed.

(** While a start waits for [Tone.start()] in such a run, no node is
    live: the start resumes in a state where [handlePlay] creates a session
    of its own. *)
Lemma start_waits_with_nothing_live E tasks :
  Interleaved.oneStartAtATime E tasks Interleaved.initialConfig = true ->
  Interleaved.starting (Interleaved.run E tasks Interleaved.initialConfig)
  <> [] ->
  forall h,
    isLive (wd (Interleaved.sys
                  (Interleaved.run E tasks Interleaved.initialConfig))) h
    = false.
Proof.
  intros Hone Hne h.
  destruct (run_startsTracked E tasks _ initial_startsTracked Hone)
    as ((Hlive & Hidle & _) & _ & Hp & _).
  destruct (isLive _ h) eqn:Hh; [|reflexivity].
  apply Hlive in Hh. rewrite (Hidle (Hp Hne)) in Hh. destruct Hh.
Qed.

(** X4: in the first prototype, task by task, with the waits of
    [handlePlay], [loadBuffers] and [processAllTracks] interleaved in any
    order: as long as Play All is not clicked while an earlier start still
    waits for [Tone.start()], no two live nodes ever play the same stem,
    every live node is one of [sources], and nothing is live while
    [isPlaying] is clear. *)
Theorem one_start_at_a_time_never_overlaps (E : Env)
  (tasks : list Interleaved.Task) :
  Interleaved.oneStartAtATime E tasks Interleaved.initialConfig = true ->
  let s := Interleaved.sys
             (Interleaved.run E tasks Interleaved.initialConfig) in
  noOverlap (wd s)
  /\ (forall h, isLive (wd s) h = true -> In h (sources (st s)))
  /\ (isPlaying (st s) = false -> forall h, isLive (wd s) h = false).
Proof.
  intros Hone. cbv zeta.
  destruct (run_startsTracked E tasks _ initial_startsTracked Hone)
    as ((Hlive & Hidle & Hno) & _).
  split; [exact Hno|]. split; [exact Hlive|].
  intros Hp h. destruct (isLive _ h) eqn:Hh; [|reflexivity].
  apply Hlive in Hh. rewrite (Hidle Hp) in Hh. destruct Hh.
Qed.

Lemma one_start_at_a_time_never_overlaps_witness :
  Interleaved.oneStartAtATime Scenario.env Scenario.tasksPlayTwice
    Interleaved.initialConfig = true
  /\ isLive
       (wd (Interleaved.sys
              (Interleaved.run Scenario.env Scenario.tasksPlayTwice
                 Interleaved.initialConfig))) 4 = true
  /\ noOverlap
       (wd (Interleaved.sys
              (Interleaved.run Scenario.env Scenario.tasksPlayTwice
                 Interleaved.initialConfig))).
Proof.
  assert (Hone : Interleaved.oneStartAtATime Scenario.env
                   Scenario.tasksPlayTwice Interleaved.initialConfig = true)
    by (vm_compute; reflexivity).
  split; [exact Hone|]. split; [vm_compute; reflexivity|].
  exact (proj1 (one_start_at_a_time_never_overlaps Scenario.env
                  Scenario.tasksPlayTwice Hone)).
Defined.

(** X5: in the first prototype, task by task, as long as Play All is not
    clicked while an earlier start still waits for [Tone.start()], Stop All
    leaves no live node behind. *)
Theorem stop_after_single_starts_leaves_nothing_live (E : Env)
  (tasks : list Interleaved.Task) :
  Interleaved.oneStartAtATime E tasks Interleaved.initialConfig = true ->
  let s := Interleaved.sys
             (Interleaved.perform E
                (Interleaved.run E tasks Interleaved.initialConfig)
                (Interleaved.Click Legacy.StopAll)) in
  (forall h, isLive (wd s) h = false)
  /\ sources (st s) = [] /\ isPlaying (st s) = false.
Proof.
  intros Hone. cbv zeta. cbn [Interleaved.perform Interleaved.click
                               Interleaved.sys Legacy.dispatch].
  destruct (run_startsTracked E tasks _ initial_startsTracked Hone)
    as (Htr & _).
  destruct (sessionTracked_stop _ Htr) as (_ & Hnone).
  pose proof (handleStop_run
                (st (Interleaved.sys
                       (Interleaved.run E tasks Interleaved.initialConfig)))
                (Interleaved.sys
                   (Interleaved.run E tasks Interleaved.initialConfig))) as H.
  cbv zeta in H. destruct H as (_ & _ & Hs & Hp & _). auto.
Qed.

Lemma stop_after_single_starts_leaves_nothing_live_witness :
  Interleaved.oneStartAtATime Scenario.env Scenario.tasksPlayTwice
    Interleaved.initialConfig = true
  /\ isLive
       (wd (Interleaved.sys
              (Interleaved.run Scenario.env Scenario.tasksPlayTwice
                 Interleaved.initialConfig))) 4 = true
  /\ forall h,
       isLive
         (wd (Interleaved.sys
                (Interleaved.perform Scenario.env
                   (Interleaved.run Scenario.env Scenario.tasksPlayTwice
                      Interleaved.initialConfig)
                   (Interleaved.Click Legacy.StopAll)))) h = false.
Proof.
  assert (Hone : Interleaved.oneStartAtATime Scenario.env
                   Scenario.tasksPlayTwice Interleaved.initialConfig = true)
    by (vm_compute; reflexivity).
  split; [exact Hone|]. split; [vm_compute; reflexivity|].
  exact (proj1 (stop_after_single_starts_leaves_nothing_live Scenario.env
                  Scenario.tasksPlayTwice Hone)).
Defined.

(** The condition is needed.  Play All clicked twice before [Tone.start()]
    resolves: both clicks pass the guard of the same render, two sessions
    start one over the other, only the second is recorded in [sources], and
    Stop All leaves the four nodes of the first running with [sources]
    empty. *)
Lemma double_click_overlaps :
  Interleaved.oneStartAtATime Scenario.env Scenario.tasksDoubleClick
    Interleaved.initialConfig = false
  /\ map (fun n => (src_track n, src_stopped n))
       (nodes (wd (Interleaved.sys
                     (Interleaved.run Scenario.env Scenario.tasksDoubleClick
                        Interleaved.initialConfig))))
     = [(bass, false); (drums, false); (other, false); (vocals, false);
        (bass, true); (drums, true); (other, true); (vocals, true)]
  /\ sources (st (Interleaved.sys
                    (Interleaved.run Scenario.env Scenario.tasksDoubleClick
                       Interleaved.initialConfig))) = []
  /\ isPlaying (st (Interleaved.sys
                      (Interleaved.run Scenario.env Scenario.tasksDoubleClick
                         Interleaved.initialConfig))) = false.
Proof. vm_compute. repeat split. Qed.

(** ** Failed loads and failed render passes *)

Lemma handlePlay_flags E c s :
  let s' := exec (handlePlay E c) s in
  fst (handlePlay E c s) = Ok tt
  /\ isLoading (st s') = isLoading (st s)
  /\ isProcessing (st s') = isProcessing (st s).
Proof.
  cbv zeta. unfold exec, handlePlay. destruct (isPlaying c).
  - repeat split.
  - unfold bind, readCurrentTime. cbv beta iota. rewrite playLoop_run.
    repeat split.
Qed.

Lemma enabled_when_busy c e :
  (isProcessing c || isLoading c) = true -> e <> Latest.TimerFires ->
  Latest.enabled c e = false.
Proof.
  intros Hbusy Hne. destruct e; cbn; rewrite ?Hbusy, ?andb_false_r; cbn;
    try reflexivity.
  contradiction.
Qed.

(** While a load or a render pass is marked as under way, the only event
    that can happen is the timer, and it clears neither mark. *)
Lemma busy_run E es : forall s,
  (isProcessing (st s) || isLoading (st s)) = true ->
  Latest.feasible E es s = true ->
  isProcessing (st (Latest.run E es s)) = isProcessing (st s)
  /\ isLoading (st (Latest.run E es s)) = isLoading (st s)
  /\ engineCalls (wd (Latest.run E es s)) = engineCalls (wd s)
  /\ heap (wd (Latest.run E es s)) = heap (wd s).
Proof.
  induction es as [|e rest IH]; intros s Hbusy Hfeas; [repeat split|].
  cbn [Latest.feasible] in Hfeas. apply andb_true_iff in Hfeas.
  destruct Hfeas as (Hen & Hrest).
  assert (He : e = Latest.TimerFires).
  { destruct e; try reflexivity;
      rewrite (enabled_when_busy (st s) _ Hbusy) in Hen;
      discriminate. }
  subst e.
  change (Latest.run E (Latest.TimerFires :: rest) s)
    with (Latest.run E rest (Latest.step E s Latest.TimerFires)).
  assert (Hstep : isProcessing (st (Latest.step E s Latest.TimerFires))
                  = isProcessing (st s)
                  /\ isLoading (st (Latest.step E s Latest.TimerFires))
                     = isLoading (st s)
                  /\ engineCalls (wd (Latest.step E s Latest.TimerFires))
                     = engineCalls (wd s)
                  /\ heap (wd (Latest.step E s Latest.TimerFires))
                     = heap (wd s)).
  { unfold Latest.step. cbn [Latest.dispatch]. unfold exec, runTimer.
    destruct (timers (wd s)) as [|c rest']; [repeat split|].
    pose proof (handlePlay_flags E c (mkSys (st s) (withTimers rest' (wd s))))
      as Hf.
    pose proof (handlePlay_engine E c (mkSys (st s) (withTimers rest' (wd s))))
      as He.
    cbv zeta in Hf, He. unfold exec in Hf, He.
    destruct Hf as (_ & F1 & F2). destruct He as (E1 & _ & E2).
    repeat split; assumption. }
  destruct Hstep as (S1 & S2 & S3 & S4).
  destruct (IH (Latest.step E s Latest.TimerFires)) as (I1 & I2 & I3 & I4).
  - rewrite S1, S2. exact Hbusy.
  - exact Hrest.
  - repeat split; congruence.
Qed.

(** X6: when the decoding of any stem is rejected, the select handler of
    the latest prototype throws with [isLoading] still set: the tracks
    record, the processing state and the timer queue are as before, nothing
    is played, every control is disabled from then on and no later event can
    clear the mark.  The load is not undone: a bass stem decoded before the
    failure is already in the shared initial object. *)
Theorem Latest_failed_load (E : Env) (c : State) (s : Sys) (song : Song) :
  (exists t, decodeAudioData E song t = None) ->
  let s1 := exec (Latest.selectSong E c song) s in
  fst (Latest.selectSong E c song s) = Throw
  /\ isLoading (st s1) = true
  /\ selectedSong (st s1) = Some song
  /\ tracks (st s1) = tracks (st s)
  /\ lastProcessedBpm (st s1) = lastProcessedBpm (st s)
  /\ lastProcessedPitch (st s1) = lastProcessedPitch (st s)
  /\ timers (wd s1) = timers (wd s)
  /\ nodes (wd s1) = nodes (wd s)
  /\ (forall b, decodeAudioData E song bass = Some b ->
        buffer (heap (wd s1) (INITIAL_TRACKS bass)) = Some b
        /\ processedBuffer (heap (wd s1) (INITIAL_TRACKS bass)) = Some b)
  /\ (forall e, e <> Latest.TimerFires -> Latest.enabled (st s1) e = false)
  /\ (forall es, Latest.feasible E es s1 = true ->
        isLoading (st (Latest.run E es s1)) = true).
Proof.
  intros (t & Hfail). cbv zeta.
  assert (Hmain :
    fst (Latest.selectSong E c song s) = Throw
    /\ isLoading (st (exec (Latest.selectSong E c song) s)) = true
    /\ selectedSong (st (exec (Latest.selectSong E c song) s)) = Some song
    /\ tracks (st (exec (Latest.selectSong E c song) s)) = tracks (st s)
    /\ lastProcessedBpm (st (exec (Latest.selectSong E c song) s))
       = lastProcessedBpm (st s)
    /\ lastProcessedPitch (st (exec (Latest.selectSong E c song) s))
       = lastProcessedPitch (st s)
    /\ timers (wd (exec (Latest.selectSong E c song) s)) = timers (wd s)
    /\ nodes (wd (exec (Latest.selectSong E c song) s)) = nodes (wd s)
    /\ (forall b, decodeAudioData E song bass = Some b ->
          buffer (heap (wd (exec (Latest.selectSong E c song) s))
                    (INITIAL_TRACKS bass)) = Some b
          /\ processedBuffer (heap (wd (exec (Latest.selectSong E c song) s))
                                (INITIAL_TRACKS bass)) = Some b)).
  { unfold Latest.selectSong, Latest.loadBuffers, Latest.songEffects,
      trackNames.
    cbn [forEach]. unfold loadTrack.
    destruct (decodeAudioData E song bass) as [b0|] eqn:D0;
    destruct (decodeAudioData E song drums) as [b1|] eqn:D1;
    destruct (decodeAudioData E song other) as [b2|] eqn:D2;
    destruct (decodeAudioData E song vocals) as [b3|] eqn:D3;
    try (destruct t; congruence);
    (destruct (selectedSong c) as [old|]; [destruct (Song_eqb old song)|]);
    (repeat split; try reflexivity; cbn; congruence). }
  destruct Hmain as (H1 & H2 & H3 & H4 & H5 & H6 & H7 & H8 & H9).
  repeat (split; [assumption|]).
  assert (Hbusy : (isProcessing (st (exec (Latest.selectSong E c song) s))
                   || isLoading (st (exec (Latest.selectSong E c song) s)))
                  = true)
    by (rewrite H2; apply orb_true_r).
  split.
  - intros e He. apply enabled_when_busy; assumption.
  - intros es Hfeas.
    destruct (busy_run E es _ Hbusy Hfeas) as (_ & -> & _). exact H2.
Qed.

Lemma Latest_failed_load_witness :
  (exists t, decodeAudioData
               (mkEnv (fun _ t => match t with
                                  | other => None
                                  | _ => Some (Scenario.stemBuffer t)
                                  end)
                  Scenario.engineOk 1)
               Scenario.thisLove t = None)
  /\ fst (Latest.selectSong
            (mkEnv (fun _ t => match t with
                               | other => None
                               | _ => Some (Scenario.stemBuffer t)
                               end)
               Scenario.engineOk 1)
            Latest.initialState Scenario.thisLove Latest.initialSys) = Throw.
Proof.
  assert (Hex : exists t, decodeAudioData
               (mkEnv (fun _ t => match t with
                                  | other => None
                                  | _ => Some (Scenario.stemBuffer t)
                                  end)
                  Scenario.engineOk 1)
               Scenario.thisLove t = None)
    by (exists other; reflexivity).
  split; [exact Hex|].
  exact (proj1 (Latest_failed_load _ Latest.initialState Latest.initialSys
                  Scenario.thisLove Hex)).
Defined.

(** X7: a play request whose render pass is rejected leaves [isProcessing]
    set; every control of the latest prototype is disabled from then on, and
    no later event clears the mark or reaches the engine again. *)
Theorem Latest_failed_pass_blocks (E : Env) (c : State) (s : Sys) :
  fst (Latest.handlePlayClick E c s) = Throw ->
  let s' := exec (Latest.handlePlayClick E c) s in
  isProcessing (st s') = true
  /\ nodes (wd s') = nodes (wd s)
  /\ (forall e, e <> Latest.TimerFires -> Latest.enabled (st s') e = false)
  /\ (forall es, Latest.feasible E es s' = true ->
        isProcessing (st (Latest.run E es s')) = true
        /\ engineCalls (wd (Latest.run E es s')) = engineCalls (wd s')).
Proof.
  intros Hthrow. cbv zeta.
  assert (Hpass : exec (Latest.handlePlayClick E c) s
                  = exec (Latest.processAllTracks E c) s
                  /\ fst (Latest.processAllTracks E c s) = Throw).
  { unfold Latest.handlePlayClick in Hthrow |- *.
    destruct (isPlaying c).
    - pose proof (handleStop_run c s) as H. cbv zeta in H.
      destruct H as (Hok & _). rewrite Hok in Hthrow. discriminate.
    - rewrite fst_bind in Hthrow. rewrite exec_bind.
      destruct (Latest.needsProcessing c).
      + destruct (fst (Latest.processAllTracks E c s)) as [[]|] eqn:Hp.
        * pose proof (handlePlay_flags E c
                        (exec (Latest.processAllTracks E c) s)) as H.
          cbv zeta in H. destruct H as (Hok & _).
          rewrite Hok in Hthrow. discriminate.
        * split; reflexivity.
      + cbn in Hthrow. pose proof (handlePlay_flags E c s) as H.
        cbv zeta in H. destruct H as (Hok & _).
        unfold exec in Hthrow. cbn in Hthrow. rewrite Hok in Hthrow.
        discriminate. }
  destruct Hpass as (-> & Hp).
  pose proof (Latest_processAllTracks_throw E c s Hp) as H. cbv zeta in H.
  destruct H as (_ & _ & _ & Hproc).
  pose proof (Latest_processAllTracks_frame E c s) as Hf. cbv zeta in Hf.
  destruct Hf as (_ & Hn & _).
  assert (Hbusy : (isProcessing (st (exec (Latest.processAllTracks E c) s))
                   || isLoading (st (exec (Latest.processAllTracks E c) s)))
                  = true)
    by (rewrite Hproc; reflexivity).
  split; [exact Hproc|]. split; [exact Hn|]. split.
  - intros e He. apply enabled_when_busy; assumption.
  - intros es Hfeas.
    destruct (busy_run E es _ Hbusy Hfeas) as (-> & _ & -> & _). auto.
Qed.

Lemma Latest_failed_pass_blocks_witness :
  fst (Latest.handlePlayClick Scenario.envFailing (st (Scenario.retimed 120))
         (Scenario.retimed 120)) = Throw
  /\ isProcessing
       (st (exec (Latest.handlePlayClick Scenario.envFailing
                    (st (Scenario.retimed 120))) (Scenario.retimed 120)))
     = true.
Proof.
  assert (Hthrow : fst (Latest.handlePlayClick Scenario.envFailing
                          (st (Scenario.retimed 120)) (Scenario.retimed 120))
                   = Throw) by reflexivity.
  split; [exact Hthrow|].
  exact (proj1 (Latest_failed_pass_blocks Scenario.envFailing
                  (st (Scenario.retimed 120)) (Scenario.retimed 120) Hthrow)).
Defined.

(** ** What a render pass reads and writes *)

(** X8: a render pass of either prototype, whether it goes through or
    throws, changes no object's original [buffer] and no [muted] flag, and
    leaves every object outside the render's tracks record exactly as it
    was. *)
Theorem processAllTracks_keeps_originals (E : Env) (c : State) (s : Sys)
  (l : loc) :
  let s1 := exec (Latest.processAllTracks E c) s in
  let s2 := exec (Legacy.processAllTracks E c) s in
  (buffer (heap (wd s1) l) = buffer (heap (wd s) l)
   /\ muted (heap (wd s1) l) = muted (heap (wd s) l)
   /\ ((forall t, tracks c t <> l) -> heap (wd s1) l = heap (wd s) l))
  /\ (buffer (heap (wd s2) l) = buffer (heap (wd s) l)
      /\ muted (heap (wd s2) l) = muted (heap (wd s) l)
      /\ ((forall t, tracks c t <> l) -> heap (wd s2) l = heap (wd s) l)).
Proof.
  exact (renderPass_touches E c s l).
Qed.

Lemma loadedBuffers_ext h h' nt keys :
  (forall l, buffer (h' l) = buffer (h l)) ->
  loadedBuffers h' nt keys = loadedBuffers h nt keys.
Proof.
  intros Hb. unfold loadedBuffers. induction keys as [|k rest IH];
    [reflexivity|].
  cbn [flat_map]. rewrite Hb, IH. reflexivity.
Qed.

Lemma renderLoop_calls E base c nt keys : forall s s1,
  forEach keys (renderTrack E base c nt) s = (Ok tt, s1) ->
  engineCalls (wd s1)
  = engineCalls (wd s)
    ++ map (fun ob => mkEngineCall ob (IZR (bpm c) / IZR base)%R
                        (Rpower 2 (IZR (pitchSemitones c) / 12)))
         (loadedBuffers (heap (wd s)) nt keys).
Proof.
  induction keys as [|k rest IH]; intros s s1 H.
  - injection H as <-. cbn. rewrite app_nil_r. reflexivity.
  - cbn [forEach] in H. unfold bind in H.
    destruct (renderTrack E base c nt k s) as [[[]|] s0] eqn:Hk;
      [|discriminate].
    apply IH in H. rewrite H.
    assert (Hb : forall l, buffer (heap (wd s0) l) = buffer (heap (wd s) l)).
    { intros l. pose proof (renderTrack_touches E base c nt k s l) as Ht.
      unfold exec in Ht. rewrite Hk in Ht. apply Ht. }
    rewrite (loadedBuffers_ext _ _ nt rest Hb).
    unfold loadedBuffers at 2. cbn [flat_map].
    fold (loadedBuffers (heap (wd s)) nt rest).
    revert Hk. unfold renderTrack. unfold_prims. cbv beta iota zeta.
    destruct (buffer (heap (wd s) (nt k))) as [ob|].
    + destruct (soundTouch E ob _ _); [|discriminate].
      intros [= <-]. cbn. rewrite <- app_assoc. reflexivity.
    + intros [= <-]. reflexivity.
Qed.

(** X9: a render pass that goes through invokes the engine once for every
    stem that has an original buffer, in key order, each time on the
    original buffer and never on a processed one, so passes do not compound;
    with no stem loaded it invokes the engine not at all. *)
Theorem processAllTracks_renders_originals (E : Env) (c : State) (s : Sys) :
  (fst (Latest.processAllTracks E c s) = Ok tt ->
   engineCalls (wd (exec (Latest.processAllTracks E c) s))
   = engineCalls (wd s)
     ++ map (fun ob => mkEngineCall ob (IZR (bpm c) / IZR (baseBpm c))%R
                         (Rpower 2 (IZR (pitchSemitones c) / 12)))
          (loadedBuffers (heap (wd s)) (tracks c) trackNames))
  /\ (fst (Legacy.processAllTracks E c s) = Ok tt ->
      engineCalls (wd (exec (Legacy.processAllTracks E c) s))
      = engineCalls (wd s)
        ++ map (fun ob => mkEngineCall ob
                            (IZR (bpm c) / IZR Legacy.BASE_BPM)%R
                            (Rpower 2 (IZR (pitchSemitones c) / 12)))
             (loadedBuffers (heap (wd s)) (tracks c) trackNames)).
Proof.
  split.
  - unfold exec. rewrite Latest_processAllTracks_unfold.
    pose proof (renderLoop_calls E (baseBpm c) c (tracks c) trackNames
                  (exec (notePass ;; setIsProcessing true) s)) as H.
    destruct (forEach trackNames (renderTrack E (baseBpm c) c (tracks c))
                (exec (notePass ;; setIsProcessing true) s))
      as [[[]|] s1]; cbn; [|discriminate].
    intros _. rewrite (H s1 eq_refl). reflexivity.
  - unfold exec. rewrite Legacy_processAllTracks_unfold.
    pose proof (renderLoop_calls E Legacy.BASE_BPM c (tracks c) trackNames
                  (exec (notePass ;; setIsProcessing true) s)) as H.
    destruct (forEach trackNames (renderTrack E Legacy.BASE_BPM c (tracks c))
                (exec (notePass ;; setIsProcessing true) s))
      as [[[]|] s1]; cbn; [|discriminate].
    intros _. rewrite (H s1 eq_refl). reflexivity.
Qed.

Lemma processAllTracks_renders_originals_witness :
  fst (Latest.processAllTracks Scenario.env (st (Scenario.retimed 120))
         (Scenario.retimed 120)) = Ok tt
  /\ map call_input
       (engineCalls
          (wd (exec (Latest.processAllTracks Scenario.env
                       (st (Scenario.retimed 120))) (Scenario.retimed 120))))
     = map call_input (engineCalls (wd (Scenario.retimed 120)))
       ++ loadedBuffers (heap (wd (Scenario.retimed 120)))
            (tracks (st (Scenario.retimed 120))) trackNames.
Proof.
  assert (Hok : fst (Latest.processAllTracks Scenario.env
                       (st (Scenario.retimed 120)) (Scenario.retimed 120))
                = Ok tt) by reflexivity.
  split; [exact Hok|].
  rewrite (proj1 (processAllTracks_renders_originals Scenario.env
                    (st (Scenario.retimed 120)) (Scenario.retimed 120)) Hok).
  rewrite map_app, map_map. cbn [call_input]. rewrite map_id. reflexivity.
Defined.

(** ** Playing what was rendered *)

Lemma renderTrack_rendered E base c nt t s s1 :
  renderTrack E base c nt t s = (Ok tt, s1) ->
  renderedAt E (IZR (bpm c) / IZR base)%R
    (Rpower 2 (IZR (pitchSemitones c) / 12)) (heap (wd s1)) (nt t)
  /\ (forall l,
        renderedAt E (IZR (bpm c) / IZR base)%R
          (Rpower 2 (IZR (pitchSemitones c) / 12)) (heap (wd s)) l ->
        renderedAt E (IZR (bpm c) / IZR base)%R
          (Rpower 2 (IZR (pitchSemitones c) / 12)) (heap (wd s1)) l).
Proof.
  unfold renderTrack. unfold_prims. cbv beta iota zeta.
  destruct (buffer (heap (wd s) (nt t))) as [ob|] eqn:Hob.
  - destruct (soundTouch E ob _ _) as [data|] eqn:Hdata; [|discriminate].
    intros [= <-]. cbn. unfold updHeap, renderedAt. split.
    + rewrite Nat.eqb_refl. cbn. intros ob' Hob'.
      rewrite Hob in Hob'. injection Hob' as <-.
      exists data. split; [exact Hdata|reflexivity].
    + intros l Hl ob'. destruct (Nat.eqb l (nt t)) eqn:El.
      * apply Nat.eqb_eq in El. subst l. cbn. intros Hob'.
        rewrite Hob in Hob'. injection Hob' as <-.
        exists data. split; [exact Hdata|reflexivity].
      * apply Hl.
  - intros [= <-]. split; [|auto]. intros ob' Hob'. congruence.
Qed.

Lemma renderLoop_rendered E base c nt keys : forall s s1,
  forEach keys (renderTrack E base c nt) s = (Ok tt, s1) ->
  (forall t, In t keys ->
     renderedAt E (IZR (bpm c) / IZR base)%R
       (Rpower 2 (IZR (pitchSemitones c) / 12)) (heap (wd s1)) (nt t))
  /\ (forall l,
        renderedAt E (IZR (bpm c) / IZR base)%R
          (Rpower 2 (IZR (pitchSemitones c) / 12)) (heap (wd s)) l ->
        renderedAt E (IZR (bpm c) / IZR base)%R
          (Rpower 2 (IZR (pitchSemitones c) / 12)) (heap (wd s1)) l).
Proof.
  induction keys as [|k rest IH]; intros s s1 H.
  - injection H as <-. split; [intros t []|auto].
  - cbn [forEach] in H. unfold bind in H.
    destruct (renderTrack E base c nt k s) as [[[]|] s0] eqn:Hk;
      [|discriminate].
    apply renderTrack_rendered in Hk. destruct Hk as (Hf & Hp).
    apply IH in H. destruct H as (Hf' & Hp').
    split; [|auto]. intros t [<-|Hin]; auto.
Qed.

(** X10: a play request of the latest prototype that needs processing and
    goes through starts, for every stem with an original buffer, a node
    that plays the engine's rendering of that original at the requested
    ratios, in the original's format, routed by the stem's mute flag; all
    these nodes are given one and the same start time.  The handler plays
    through the tracks record of its own render; it hears the new buffers
    because the objects are shared. *)
Theorem play_after_render_plays_rendered (E : Env) (c : State) (s : Sys) :
  isPlaying c = false ->
  Latest.needsProcessing c = true ->
  fst (Latest.handlePlayClick E c s) = Ok tt ->
  exists when_,
    forall t ob,
      buffer (heap (wd s) (tracks c t)) = Some ob ->
      exists data,
        soundTouch E ob (IZR (bpm c) / IZR (baseBpm c))%R
          (Rpower 2 (IZR (pitchSemitones c) / 12)) = Some data
        /\ In (mkSourceNode t
                 (mkAudioBuffer (numberOfChannels ob) (bufLength ob)
                    (sampleRate ob) data)
                 (if muted (heap (wd s) (tracks c t))
                  then DetachedGain else Destination)
                 when_ false)
              (nodes (wd (exec (Latest.handlePlayClick E c) s))).
Proof.
  intros Hp Hneeds Hok.
  exists (currentTime (wd (exec (Latest.processAllTracks E c) s))).
  intros t ob Hob.
  unfold Latest.handlePlayClick in Hok |- *. rewrite Hp, Hneeds in Hok |- *.
  rewrite fst_bind in Hok. rewrite exec_bind.
  destruct (fst (Latest.processAllTracks E c s)) as [[]|] eqn:Hpass;
    [|discriminate].
  clear Hok.
  pose proof (renderPass_touches E c s (tracks c t)) as Hk.
  cbv zeta in Hk. destruct Hk as ((Hb & Hm & _) & _).
  assert (Hr : renderedAt E (IZR (bpm c) / IZR (baseBpm c))%R
                 (Rpower 2 (IZR (pitchSemitones c) / 12))
                 (heap (wd (exec (Latest.processAllTracks E c) s)))
                 (tracks c t)).
  { revert Hpass. unfold exec. rewrite Latest_processAllTracks_unfold.
    pose proof (renderLoop_rendered E (baseBpm c) c (tracks c) trackNames
                  (exec (notePass ;; setIsProcessing true) s)) as H.
    destruct (forEach trackNames (renderTrack E (baseBpm c) c (tracks c))
                (exec (notePass ;; setIsProcessing true) s))
      as [[[]|] s1]; cbn; [|discriminate].
    intros _. destruct (H s1 eq_refl) as (Hall & _). apply Hall.
    apply trackNames_all. }
  destruct (Hr ob) as (data & Hdata & Hpb); [rewrite Hb; exact Hob|].
  exists data. split; [exact Hdata|].
  pose proof (handlePlay_starts E c (exec (Latest.processAllTracks E c) s) Hp)
    as H.
  cbv zeta in H. destruct H as (_ & Hn & _). rewrite Hn.
  apply in_or_app. right. apply sessionNodes_In.
  eexists t, _. split; [apply trackNames_all|]. split; [exact Hpb|].
  rewrite Hm. reflexivity.
Qed.

Lemma play_after_render_plays_rendered_witness :
  isPlaying (st (Scenario.retimed 120)) = false
  /\ Latest.needsProcessing (st (Scenario.retimed 120)) = true
  /\ fst (Latest.handlePlayClick Scenario.env (st (Scenario.retimed 120))
            (Scenario.retimed 120)) = Ok tt
  /\ buffer (heap (wd (Scenario.retimed 120))
               (tracks (st (Scenario.retimed 120)) drums))
     = Some (Scenario.stemBuffer drums)
  /\ exists when_ data,
       soundTouch Scenario.env (Scenario.stemBuffer drums)
         (IZR (bpm (st (Scenario.retimed 120)))
          / IZR (baseBpm (st (Scenario.retimed 120))))%R
         (Rpower 2 (IZR (pitchSemitones (st (Scenario.retimed 120))) / 12))
       = Some data
       /\ In (mkSourceNode drums
                (mkAudioBuffer (numberOfChannels (Scenario.stemBuffer drums))
                   (bufLength (Scenario.stemBuffer drums))
                   (sampleRate (Scenario.stemBuffer drums)) data)
                (if muted (heap (wd (Scenario.retimed 120))
                             (tracks (st (Scenario.retimed 120)) drums))
                 then DetachedGain else Destination)
                when_ false)
             (nodes (wd (exec (Latest.handlePlayClick Scenario.env
                                 (st (Scenario.retimed 120)))
                           (Scenario.retimed 120)))).
Proof.
  assert (H1 : isPlaying (st (Scenario.retimed 120)) = false) by reflexivity.
  assert (H2 : Latest.needsProcessing (st (Scenario.retimed 120)) = true)
    by reflexivity.
  assert (H3 : fst (Latest.handlePlayClick Scenario.env
                      (st (Scenario.retimed 120)) (Scenario.retimed 120))
               = Ok tt) by reflexivity.
  assert (H4 : buffer (heap (wd (Scenario.retimed 120))
                         (tracks (st (Scenario.retimed 120)) drums))
               = Some (Scenario.stemBuffer drums)) by reflexivity.
  split; [exact H1|]. split; [exact H2|]. split; [exact H3|].
  split; [exact H4|].
  destruct (play_after_render_plays_rendered Scenario.env
              (st (Scenario.retimed 120)) (Scenario.retimed 120) H1 H2 H3)
    as (when_ & Hall).
  exists when_. exact (Hall drums (Scenario.stemBuffer drums) H4).
Defined.

(** ** Routing of a new session *)

(** X11: a start of playback creates exactly one node for each stem that
    has a processed buffer and none for the others; each node plays that
    processed buffer, and goes to the destination when the stem is unmuted
    and to a gain node connected to nothing when it is muted.  With no
    processed buffer at all the session is empty, yet [isPlaying] is set. *)
Theorem handlePlay_routes_by_mute (E : Env) (c : State) (s : Sys) :
  isPlaying c = false ->
  let s' := exec (handlePlay E c) s in
  (forall h n,
     nth_error (nodes (wd s')) h = Some n ->
     List.length (nodes (wd s)) <= h ->
     processedBuffer (heap (wd s) (tracks c (src_track n)))
     = Some (src_buffer n)
     /\ src_output n
        = (if muted (heap (wd s) (tracks c (src_track n)))
           then DetachedGain else Destination)
     /\ src_stopped n = false)
  /\ map src_track (skipn (List.length (nodes (wd s))) (nodes (wd s')))
     = filter (fun t => match processedBuffer (heap (wd s) (tracks c t)) with
                        | Some _ => true
                        | None => false
                        end) trackNames
  /\ ((forall t, processedBuffer (heap (wd s) (tracks c t)) = None) ->
      nodes (wd s') = nodes (wd s) /\ sources (st s') = []
      /\ isPlaying (st s') = true).
Proof.
  intros Hp. cbv zeta.
  pose proof (handlePlay_starts E c s Hp) as H. cbv zeta in H.
  destruct H as (_ & Hn & Hs & Hp' & _).
  split; [|split].
  - intros h n Hh Hge. rewrite Hn in Hh.
    rewrite nth_error_app2 in Hh by exact Hge.
    apply nth_error_In in Hh. apply sessionNodes_In in Hh.
    destruct Hh as (t & pb & _ & Hpb & ->). cbn. auto.
  - rewrite Hn, skipn_app, skipn_all, Nat.sub_diag. cbn [skipn app].
    apply sessionNodes_tracks.
  - intros Hnone.
    assert (Hempty : sessionNodes (heap (wd s)) c (currentTime (wd s))
                       trackNames = []).
    { unfold sessionNodes, trackNames. cbn [flat_map]. unfold sessionNode.
      rewrite !Hnone. reflexivity. }
    rewrite Hn, Hs, Hempty, app_nil_r. auto.
Qed.

Lemma handlePlay_routes_by_mute_witness :
  isPlaying (st (Scenario.legacyLoaded Scenario.thisLove)) = false
  /\ map src_track
       (skipn (List.length (nodes (wd (Scenario.legacyLoaded Scenario.thisLove))))
          (nodes (wd (exec (handlePlay Scenario.env
                              (st (Scenario.legacyLoaded Scenario.thisLove)))
                        (Scenario.legacyLoaded Scenario.thisLove)))))
     = filter (fun t => match processedBuffer
                                (heap (wd (Scenario.legacyLoaded
                                             Scenario.thisLove))
                                   (tracks (st (Scenario.legacyLoaded
                                                  Scenario.thisLove)) t)) with
                        | Some _ => true
                        | None => false
                        end) trackNames.
Proof.
  assert (Hp : isPlaying (st (Scenario.legacyLoaded Scenario.thisLove))
               = false) by reflexivity.
  split; [exact Hp|].
  exact (proj1 (proj2 (handlePlay_routes_by_mute Scenario.env
                         (st (Scenario.legacyLoaded Scenario.thisLove))
                         (Scenario.legacyLoaded Scenario.thisLove) Hp))).
Defined.

(** ** The store in every reachable state *)

Lemma loadTrack_storeSound E song t x :
  storeSound x -> storeSound (exec (loadTrack E song INITIAL_TRACKS t) x).
Proof.
  intros (Hf & Hn & Hm). unfold loadTrack.
  destruct (decodeAudioData E song t) as [b|]; [|repeat split; assumption].
  unfold_prims. cbn. unfold storeSound, formatted. cbn. unfold updHeap.
  rewrite !Nat.eqb_refl. cbn.
  split; [|split].
  - intros l ob. destruct (Nat.eqb l (INITIAL_TRACKS t)); cbn.
    + intros [= <-]. exists b. repeat split.
    + apply Hf.
  - intros l. destruct (Nat.eqb l (INITIAL_TRACKS t)); cbn;
      [discriminate|apply Hn].
  - intros t'.
    destruct (Nat.eqb (INITIAL_TRACKS t') (INITIAL_TRACKS t)) eqn:El; cbn;
      [|apply Hm].
    apply Nat.eqb_eq in El. rewrite <- El. apply Hm.
Qed.

Lemma renderTrack_storeSound E base c nt t x :
  storeSound x -> storeSound (exec (renderTrack E base c nt t) x).
Proof.
  intros (Hf & Hn & Hm). unfold renderTrack. unfold_prims.
  cbv beta iota zeta.
  destruct (buffer (heap (wd x) (nt t))) as [ob|] eqn:Hob;
    [|repeat split; assumption].
  destruct (soundTouch E ob _ _) as [data|]; [|repeat split; assumption].
  cbn. unfold storeSound, formatted. cbn. unfold updHeap.
  split; [|split].
  - intros l ob'. destruct (Nat.eqb l (nt t)) eqn:El; cbn.
    + apply Nat.eqb_eq in El. subst l. rewrite Hob. intros [= <-].
      eexists. split; [reflexivity|]. repeat split.
    + apply Hf.
  - intros l. destruct (Nat.eqb l (nt t)) eqn:El; cbn; [|apply Hn].
    apply Nat.eqb_eq in El. subst l. rewrite Hob. discriminate.
  - intros t'. destruct (Nat.eqb (INITIAL_TRACKS t') (nt t)) eqn:El; cbn;
      [|apply Hm].
    apply Nat.eqb_eq in El. rewrite <- El. apply Hm.
Qed.

Lemma flipMuted_storeSound t x :
  storeCovers x -> storeSound x -> storeSound (exec (flipMuted t) x).
Proof.
  intros (H4 & _) (Hf & Hn & Hm).
  pose proof (flipMuted_run t x) as H. cbv zeta in H.
  destruct H as (_ & _ & Hh & _).
  unfold storeSound, formatted. rewrite Hh. unfold updHeap.
  split; [|split].
  - intros l. destruct (Nat.eqb l (nextLoc (wd x))); cbn; apply Hf.
  - intros l. destruct (Nat.eqb l (nextLoc (wd x))); cbn; apply Hn.
  - intros t'. destruct (Nat.eqb (INITIAL_TRACKS t') (nextLoc (wd x))) eqn:El;
      [|apply Hm].
    apply Nat.eqb_eq in El. destruct t'; cbn in El; lia.
Qed.

Lemma storeSound_same_heap s s' :
  heap (wd s') = heap (wd s) -> storeSound s -> storeSound s'.
Proof. unfold storeSound. intros ->. auto. Qed.

Lemma processAllTracks_storeSound E c s :
  storeSound s -> storeSound (exec (Latest.processAllTracks E c) s).
Proof.
  intros Hs. unfold Latest.processAllTracks.
  apply (exec_bind_preserves storeSound); [exact Hs|]. intros _ s1 H1.
  apply (exec_bind_preserves storeSound); [exact H1|].
  clear s1 H1. intros _ s1 H1.
  apply (exec_bind_preserves storeSound).
  { apply (forEach_preserves storeSound); [|exact H1].
    intros t x Hx. apply renderTrack_storeSound. exact Hx. }
  clear s1 H1. intros _ s1 H1.
  repeat (apply (exec_bind_preserves storeSound); [exact H1|];
          clear s1 H1; intros _ s1 H1).
  exact H1.
Qed.

Lemma selectSong_storeSound E c s song :
  storeSound s -> storeSound (exec (Latest.selectSong E c song) s).
Proof.
  intros Hs.
  unfold Latest.selectSong, Latest.loadBuffers, Latest.songEffects.
  apply (exec_bind_preserves storeSound); [exact Hs|]. intros _ s1 H1.
  apply (exec_bind_preserves storeSound).
  { destruct (selectedSong c) as [old|]; [destruct (Song_eqb old song)|];
      exact H1. }
  clear s1 H1. intros _ s1 H1.
  apply (exec_bind_preserves storeSound); [exact H1|].
  clear s1 H1. intros _ s1 H1.
  apply (exec_bind_preserves storeSound).
  { apply (forEach_preserves storeSound); [|exact H1].
    intros t x Hx. apply loadTrack_storeSound. exact Hx. }
  clear s1 H1. intros _ s1 H1.
  repeat (apply (exec_bind_preserves storeSound); [exact H1|];
          clear s1 H1; intros _ s1 H1).
  exact H1.
Qed.

Lemma step_storeSound E s e :
  storeCovers s -> storeSound s -> storeSound (Latest.step E s e).
Proof.
  intros Hc Hs. unfold Latest.step.
  destruct e as [song| |track|v|v|]; cbn [Latest.dispatch].
  - apply selectSong_storeSound. exact Hs.
  - unfold Latest.handlePlayClick. destruct (isPlaying (st s)).
    + apply (storeSound_same_heap s); [|exact Hs].
      apply (handleStop_run (st s) s).
    + rewrite exec_bind.
      assert (Hpre : storeSound
                       (exec (if Latest.needsProcessing (st s)
                              then Latest.processAllTracks E (st s)
                              else ret tt) s)).
      { destruct (Latest.needsProcessing (st s));
          [apply processAllTracks_storeSound|]; exact Hs. }
      destruct (fst ((if Latest.needsProcessing (st s)
                      then Latest.processAllTracks E (st s)
                      else ret tt) s)); [|exact Hpre].
      eapply storeSound_same_heap; [|exact Hpre].
      apply handlePlay_engine.
  - rewrite Latest_toggleMute_unfold. destruct (isPlaying (st s)).
    + apply flipMuted_storeSound.
      * apply handleStop_storeCovers. exact Hc.
      * apply (storeSound_same_heap s); [|exact Hs].
        apply (handleStop_run (st s) s).
    + apply flipMuted_storeSound; assumption.
  - unfold Latest.changeBpm.
    apply (exec_bind_preserves storeSound); [|intros _ s1 H1; exact H1].
    destruct (isPlaying (st s)); [|exact Hs].
    apply (storeSound_same_heap s); [|exact Hs].
    apply (handleStop_run (st s) s).
  - unfold Latest.changePitch.
    apply (exec_bind_preserves storeSound); [|intros _ s1 H1; exact H1].
    destruct (isPlaying (st s)); [|exact Hs].
    apply (storeSound_same_heap s); [|exact Hs].
    apply (handleStop_run (st s) s).
  - unfold exec, runTimer. destruct (timers (wd s)) as [|c rest]; [exact Hs|].
    apply (storeSound_same_heap (mkSys (st s) (withTimers rest (wd s))));
      [|exact Hs].
    apply (handlePlay_engine E c (mkSys (st s) (withTimers rest (wd s)))).
Qed.

Lemma reachable_storeSound E es :
  storeSound (Latest.run E es Latest.initialSys).
Proof.
  unfold Latest.run.
  assert (H0 : storeCovers Latest.initialSys /\ storeSound Latest.initialSys).
  { split; [split; [cbn; lia|intros t; destruct t; cbn; lia]|].
    split; [|split]; [intros l ob H; discriminate H|reflexivity|reflexivity]. }
  revert H0. generalize Latest.initialSys.
  induction es as [|e rest IH]; intros s (Hc & Hs); [exact Hs|].
  cbn [fold_left]. apply IH. split.
  - apply step_storeCovers. exact Hc.
  - apply step_storeSound; assumption.
Qed.

(** X12: in every state the latest prototype can reach, each stem either has
    neither an original nor a processed buffer, or has both, and then the
    processed buffer has the channel count, frame count and sample rate of
    the original. *)
Theorem reachable_buffers_paired (E : Env) (es : list Latest.Event)
  (t : TrackName) :
  let s := Latest.run E es Latest.initialSys in
  match buffer (heap (wd s) (tracks (st s) t)),
        processedBuffer (heap (wd s) (tracks (st s) t)) with
  | Some ob, Some pb =>
      numberOfChannels pb = numberOfChannels ob
      /\ bufLength pb = bufLength ob /\ sampleRate pb = sampleRate ob
  | None, None => True
  | _, _ => False
  end.
Proof.
  cbv zeta. destruct (reachable_storeSound E es) as (Hf & Hn & _).
  specialize (Hf (tracks (st (Latest.run E es Latest.initialSys)) t)).
  specialize (Hn (tracks (st (Latest.run E es Latest.initialSys)) t)).
  unfold formatted in Hf.
  destruct (buffer (heap (wd (Latest.run E es Latest.initialSys))
                      (tracks (st (Latest.run E es Latest.initialSys)) t)))
    as [ob|].
  - destruct (Hf ob eq_refl) as (rb & -> & Hfmt). exact Hfmt.
  - rewrite (Hn eq_refl). exact I.
Qed.

(** X13: a load that goes through, from any reachable state, leaves every
    stem unmuted and gives it the decoded buffer both as original and as
    processed buffer, whatever was muted or rendered before. *)
Theorem load_resets_tracks (E : Env) (es : list Latest.Event) (song : Song)
  (b : TrackName -> AudioBuffer) (t : TrackName) :
  (forall k, decodeAudioData E song k = Some (b k)) ->
  let s1 := Latest.step E (Latest.run E es Latest.initialSys)
              (Latest.SelectSong song) in
  heap (wd s1) (tracks (st s1) t) = mkTrackState (Some (b t)) (Some (b t)) false.
Proof.
  intros Hd. cbv zeta. unfold Latest.step. cbn [Latest.dispatch].
  pose proof (Latest_selectSong_run E
                (st (Latest.run E es Latest.initialSys))
                (Latest.run E es Latest.initialSys) song b Hd) as H.
  cbv zeta in H.
  destruct H as (_ & _ & _ & _ & _ & _ & _ & _ & _ & _ & _ & Ht & Hh & _).
  destruct (reachable_storeSound E es) as (_ & _ & Hm).
  rewrite Ht, Hh, Hm. reflexivity.
Qed.

Lemma load_resets_tracks_witness :
  (forall k, decodeAudioData Scenario.env Scenario.fastSong k
             = Some (Scenario.stemBuffer k))
  /\ heap (wd (Latest.step Scenario.env
                 (Latest.run Scenario.env
                    [Latest.SelectSong Scenario.thisLove; Latest.TimerFires;
                     Latest.ToggleMute bass]
                    Latest.initialSys)
                 (Latest.SelectSong Scenario.fastSong)))
       (tracks (st (Latest.step Scenario.env
                      (Latest.run Scenario.env
                         [Latest.SelectSong Scenario.thisLove;
                          Latest.TimerFires; Latest.ToggleMute bass]
                         Latest.initialSys)
                      (Latest.SelectSong Scenario.fastSong))) bass)
     = mkTrackState (Some (Scenario.stemBuffer bass))
         (Some (Scenario.stemBuffer bass)) false.
Proof.
  assert (Hd : forall k, decodeAudioData Scenario.env Scenario.fastSong k
                         = Some (Scenario.stemBuffer k))
    by (intros k; reflexivity).
  split; [exact Hd|].
  exact (load_resets_tracks Scenario.env
           [Latest.SelectSong Scenario.thisLove; Latest.TimerFires;
            Latest.ToggleMute bass]
           Scenario.fastSong Scenario.stemBuffer bass Hd).
Defined.

(** ** Which flags a mute toggle changes *)

Lemma flipMuted_objects track s :
  allocated (tracks (st s)) (wd s) ->
  forall t,
    heap (wd (exec (flipMuted track) s))
      (tracks (st (exec (flipMuted track) s)) t)
    = if TrackName_eqb t track
      then mkTrackState (buffer (heap (wd s) (tracks (st s) track)))
             (processedBuffer (heap (wd s) (tracks (st s) track)))
             (negb (muted (heap (wd s) (tracks (st s) track))))
      else heap (wd s) (tracks (st s) t).
Proof.
  intros Hal t.
  pose proof (flipMuted_run track s) as H. cbv zeta in H.
  destruct H as (_ & Ht & Hh & _).
  rewrite Ht, Hh. unfold updTrack, updHeap.
  destruct (TrackName_eqb t track) eqn:Et.
  - rewrite Nat.eqb_refl. reflexivity.
  - destruct (Nat.eqb (tracks (st s) t) (nextLoc (wd s))) eqn:El;
      [|reflexivity].
    apply Nat.eqb_eq in El. specialize (Hal t). lia.
Qed.

Lemma toggle_flags track s :
  allocated (tracks (st s)) (wd s) ->
  forall t,
    muted (heap (wd (exec (flipMuted track) s))
             (tracks (st (exec (flipMuted track) s)) t))
    = if TrackName_eqb t track
      then negb (muted (heap (wd s) (tracks (st s) t)))
      else muted (heap (wd s) (tracks (st s) t)).
Proof.
  intros Hal t. rewrite (flipMuted_objects track s Hal t).
  destruct (TrackName_eqb t track) eqn:Et; [|reflexivity].
  apply TrackName_eqb_eq in Et. subst t. reflexivity.
Qed.

Lemma handleStop_objects c s :
  heap (wd (exec (handleStop c) s)) = heap (wd s)
  /\ tracks (st (exec (handleStop c) s)) = tracks (st s)
  /\ nextLoc (wd (exec (handleStop c) s)) = nextLoc (wd s).
Proof.
  pose proof (handleStop_run c s) as H. cbv zeta in H.
  destruct H as (_ & _ & _ & _ & Hh & _ & _ & _ & Hn & _ & Ht & _).
  auto.
Qed.

Lemma Latest_toggle_flags c track s :
  allocated (tracks (st s)) (wd s) ->
  forall t,
    muted (heap (wd (exec (Latest.toggleMute c track) s))
             (tracks (st (exec (Latest.toggleMute c track) s)) t))
    = if TrackName_eqb t track
      then negb (muted (heap (wd s) (tracks (st s) t)))
      else muted (heap (wd s) (tracks (st s) t)).
Proof.
  intros Hal t. rewrite Latest_toggleMute_unfold. destruct (isPlaying c).
  - destruct (handleStop_objects c s) as (Hh & Ht & Hn).
    rewrite toggle_flags by (intros k; rewrite Ht, Hn; apply Hal).
    rewrite Hh, Ht. reflexivity.
  - apply toggle_flags. exact Hal.
Qed.

(** X14: a mute toggle, in either prototype, flips the flag of the chosen
    stem and of no other; toggling the same stem again gives every stem the
    flag it had. *)
Theorem toggleMute_flips_one (c : State) (track : TrackName) (s : Sys) :
  allocated (tracks (st s)) (wd s) ->
  let flag := fun (x : Sys) t => muted (heap (wd x) (tracks (st x) t)) in
  let s1 := exec (Latest.toggleMute c track) s in
  let s2 := exec (Latest.toggleMute (st s1) track) s1 in
  let l1 := exec (Legacy.toggleMute c track) s in
  let l2 := exec (Legacy.toggleMute (st l1) track) l1 in
  (forall t, flag s1 t = if TrackName_eqb t track then negb (flag s t)
                         else flag s t)
  /\ (forall t, flag s2 t = flag s t)
  /\ (forall t, flag l1 t = if TrackName_eqb t track then negb (flag s t)
                            else flag s t)
  /\ (forall t, flag l2 t = flag s t).
Proof.
  intros Hal. cbv zeta.
  destruct (Latest_toggleMute_muteStep c track s Hal) as (_ & Hal1).
  destruct (flipMuted_muteStep track s Hal) as (_ & Hal1').
  split; [apply Latest_toggle_flags; exact Hal|]. split.
  - intros t. rewrite (Latest_toggle_flags _ track _ Hal1 t).
    rewrite (Latest_toggle_flags c track s Hal t).
    destruct (TrackName_eqb t track); [apply negb_involutive|reflexivity].
  - unfold Legacy.toggleMute.
    split; [apply toggle_flags; exact Hal|].
    intros t. rewrite (toggle_flags track _ Hal1' t).
    rewrite (toggle_flags track s Hal t).
    destruct (TrackName_eqb t track); [apply negb_involutive|reflexivity].
Qed.

Lemma toggleMute_flips_one_witness :
  allocated (tracks (st Scenario.loadedPlaying)) (wd Scenario.loadedPlaying)
  /\ forall t,
       muted (heap (wd (exec (Latest.toggleMute (st Scenario.loadedPlaying)
                                vocals) Scenario.loadedPlaying))
                (tracks (st (exec (Latest.toggleMute
                                     (st Scenario.loadedPlaying) vocals)
                               Scenario.loadedPlaying)) t))
       = if TrackName_eqb t vocals
         then negb (muted (heap (wd Scenario.loadedPlaying)
                             (tracks (st Scenario.loadedPlaying) t)))
         else muted (heap (wd Scenario.loadedPlaying)
                       (tracks (st Scenario.loadedPlaying) t)).
Proof.
  assert (Hal : allocated (tracks (st Scenario.loadedPlaying))
                  (wd Scenario.loadedPlaying)).
  { intros t. destruct t; vm_compute; lia. }
  split; [exact Hal|].
  exact (proj1 (toggleMute_flips_one (st Scenario.loadedPlaying) vocals
                  Scenario.loadedPlaying Hal)).
Defined.

(** ** The sliders *)

Lemma flipMuted_sliders track s :
  let s' := exec (flipMuted track) s in
  bpm (st s') = bpm (st s) /\ baseBpm (st s') = baseBpm (st s)
  /\ pitchSemitones (st s') = pitchSemitones (st s)
  /\ selectedSong (st s') = selectedSong (st s).
Proof. cbv zeta. repeat split. Qed.

Lemma handleStop_sliders c s :
  let s' := exec (handleStop c) s in
  bpm (st s') = bpm (st s) /\ baseBpm (st s') = baseBpm (st s)
  /\ pitchSemitones (st s') = pitchSemitones (st s)
  /\ selectedSong (st s') = selectedSong (st s).
Proof.
  cbv zeta. pose proof (handleStop_run c s) as H. cbv zeta in H.
  destruct H as (_ & _ & _ & _ & _ & _ & _ & _ & _ & _ & _ & H1 & H2 & H3 & _
                 & _ & H4).
  auto.
Qed.

Lemma handlePlay_sliders E c s :
  let s' := exec (handlePlay E c) s in
  bpm (st s') = bpm (st s) /\ baseBpm (st s') = baseBpm (st s)
  /\ pitchSemitones (st s') = pitchSemitones (st s)
  /\ selectedSong (st s') = selectedSong (st s).
Proof.
  cbv zeta. destruct (isPlaying c) eqn:Hp.
  - unfold exec. rewrite handlePlay_guard by exact Hp. repeat split.
  - pose proof (handlePlay_starts E c s Hp) as H. cbv zeta in H.
    destruct H as (_ & _ & _ & _ & _ & _ & _ & _ & _ & _ & H1 & H2 & H3 & _
                   & _ & H4 & _).
    auto.
Qed.

Lemma processAllTracks_sliders E c s :
  let s' := exec (Latest.processAllTracks E c) s in
  bpm (st s') = bpm (st s) /\ baseBpm (st s') = baseBpm (st s)
  /\ pitchSemitones (st s') = pitchSemitones (st s)
  /\ selectedSong (st s') = selectedSong (st s).
Proof.
  cbv zeta. pose proof (Latest_processAllTracks_frame E c s) as H.
  cbv zeta in H.
  destruct H as (_ & _ & _ & _ & _ & H1 & H2 & H3 & _ & _ & H4 & _). auto.
Qed.

Lemma slidersInRange_frame c c' :
  bpm c' = bpm c /\ baseBpm c' = baseBpm c
  /\ pitchSemitones c' = pitchSemitones c
  /\ selectedSong c' = selectedSong c ->
  slidersInRange c -> slidersInRange c'.
Proof.
  intros (H1 & H2 & H3 & H4). unfold slidersInRange.
  rewrite H1, H2, H3, H4. auto.
Qed.

Lemma selectSong_sliders E s song :
  slidersInRange (st s) ->
  slidersInRange (st (exec (Latest.selectSong E (st s) song) s)).
Proof.
  intros (Hb & Hpitch).
  set (P := fun x : Sys =>
              pitchSemitones (st x) = pitchSemitones (st s)
              /\ ((bpm (st x) = baseBpm (st x))
                  \/ (selectedSong (st s) <> None
                      /\ bpm (st x) = bpm (st s)
                      /\ baseBpm (st x) = baseBpm (st s)))).
  assert (HP : P (exec (Latest.selectSong E (st s) song) s)).
  { unfold Latest.selectSong. rewrite exec_bind.
    change (fst (setSelectedSong (Some song) s)) with (Ok tt).
    cbv beta iota.
    apply (exec_bind_preserves P).
    - unfold Latest.songEffects.
      destruct (selectedSong (st s)) as [old|] eqn:Hsel.
      + destruct (Song_eqb old song).
        * split; [reflexivity|]. right. cbn.
          split; [discriminate|]. split; reflexivity.
        * split; [reflexivity|]. left. reflexivity.
      + split; [reflexivity|]. left. reflexivity.
    - intros _ s1 H1. unfold Latest.loadBuffers.
      apply (exec_bind_preserves P); [exact H1|]. intros _ s2 H2.
      apply (exec_bind_preserves P).
      + apply (forEach_preserves P); [|exact H2].
        intros t x Hx. unfold loadTrack.
        destruct (decodeAudioData E song t); exact Hx.
      + intros _ s3 H3.
        repeat (apply (exec_bind_preserves P); [exact H3|]; clear s3 H3;
                intros _ s3 H3).
        exact H3. }
  destruct HP as (Hp' & Hcase). split; [|rewrite Hp'; exact Hpitch].
  intros _. destruct Hcase as [->|(Hsel & -> & ->)]; [lia|].
  apply Hb. exact Hsel.
Qed.

Lemma step_slidersInRange E s e :
  Latest.enabled (st s) e = true ->
  slidersInRange (st s) -> slidersInRange (st (Latest.step E s e)).
Proof.
  intros Hen Hs. unfold Latest.step.
  destruct e as [song| |track|v|v|]; cbn [Latest.dispatch].
  - apply selectSong_sliders. exact Hs.
  - apply (slidersInRange_frame (st s)); [|exact Hs].
    unfold Latest.handlePlayClick. destruct (isPlaying (st s)) eqn:Hp.
    + apply handleStop_sliders.
    + rewrite exec_bind.
      assert (Hpre : let x := exec (if Latest.needsProcessing (st s)
                                    then Latest.processAllTracks E (st s)
                                    else ret tt) s in
                     bpm (st x) = bpm (st s) /\ baseBpm (st x) = baseBpm (st s)
                     /\ pitchSemitones (st x) = pitchSemitones (st s)
                     /\ selectedSong (st x) = selectedSong (st s)).
      { destruct (Latest.needsProcessing (st s));
          [apply processAllTracks_sliders|repeat split]. }
      cbv zeta in Hpre.
      destruct (fst ((if Latest.needsProcessing (st s)
                      then Latest.processAllTracks E (st s)
                      else ret tt) s)); [|exact Hpre].
      pose proof (handlePlay_sliders E (st s)
                    (exec (if Latest.needsProcessing (st s)
                           then Latest.processAllTracks E (st s)
                           else ret tt) s)) as H.
      cbv zeta in H. destruct Hpre as (<- & <- & <- & <-). exact H.
  - apply (slidersInRange_frame (st s)); [|exact Hs].
    rewrite Latest_toggleMute_unfold.
    pose proof (flipMuted_sliders track
                  (if isPlaying (st s) then exec (handleStop (st s)) s
                   else s)) as H.
    cbv zeta in H. destruct H as (-> & -> & -> & ->).
    destruct (isPlaying (st s)); [apply handleStop_sliders|repeat split].
  - cbn [Latest.enabled] in Hen. rewrite !andb_true_iff in Hen.
    destruct Hen as (((Hshown & _) & Hlo) & Hhi).
    apply Z.leb_le in Hlo, Hhi.
    unfold Latest.changeBpm. rewrite exec_bind.
    assert (Hpre : let x := exec (if isPlaying (st s)
                                  then handleStop (st s) else ret tt) s in
                   fst ((if isPlaying (st s) then handleStop (st s)
                         else ret tt) s) = Ok tt
                   /\ baseBpm (st x) = baseBpm (st s)
                   /\ pitchSemitones (st x) = pitchSemitones (st s)).
    { cbv zeta. destruct (isPlaying (st s)); [|repeat split].
      pose proof (handleStop_run (st s) s) as H. cbv zeta in H.
      pose proof (handleStop_sliders (st s) s) as H'. cbv zeta in H'.
      split; [apply H|]. split; apply H'. }
    cbv zeta in Hpre. destruct Hpre as (-> & Hbase & Hpitch).
    destruct Hs as (_ & Hrange). split; cbn.
    + intros _. rewrite Hbase. lia.
    + rewrite Hpitch. exact Hrange.
  - cbn [Latest.enabled] in Hen. rewrite !andb_true_iff in Hen.
    destruct Hen as (((Hshown & _) & Hlo) & Hhi).
    apply Z.leb_le in Hlo, Hhi.
    unfold Latest.changePitch. rewrite exec_bind.
    assert (Hpre : let x := exec (if isPlaying (st s)
                                  then handleStop (st s) else ret tt) s in
                   fst ((if isPlaying (st s) then handleStop (st s)
                         else ret tt) s) = Ok tt
                   /\ bpm (st x) = bpm (st s) /\ baseBpm (st x) = baseBpm (st s)
                   /\ selectedSong (st x) = selectedSong (st s)).
    { cbv zeta. destruct (isPlaying (st s)); [|repeat split].
      pose proof (handleStop_run (st s) s) as H. cbv zeta in H.
      pose proof (handleStop_sliders (st s) s) as H'. cbv zeta in H'.
      split; [apply H|]. repeat split; apply H'. }
    cbv zeta in Hpre. destruct Hpre as (-> & Hbpm & Hbase & Hsel).
    destruct Hs as (Hrange & _). split; cbn.
    + rewrite Hsel, Hbpm, Hbase. exact Hrange.
    + lia.
  - apply (slidersInRange_frame (st s)); [|exact Hs].
    unfold exec, runTimer. destruct (timers (wd s)) as [|c rest];
      [repeat split|].
    apply (handlePlay_sliders E c (mkSys (st s) (withTimers rest (wd s)))).
Qed.

Lemma feasible_slidersInRange E es : forall s,
  slidersInRange (st s) -> Latest.feasible E es s = true ->
  slidersInRange (st (Latest.run E es s)).
Proof.
  induction es as [|e rest IH]; intros s Hs Hfeas; [exact Hs|].
  cbn [Latest.feasible] in Hfeas. apply andb_true_iff in Hfeas.
  destruct Hfeas as (Hen & Hrest).
  change (Latest.run E (e :: rest) s)
    with (Latest.run E rest (Latest.step E s e)).
  apply IH; [|exact Hrest]. apply step_slidersInRange; assumption.
Qed.

(** X15: through every run of events the user can cause in the latest
    prototype, the pitch slider stays within twelve semitones of zero and,
    once a song is selected, the tempo slider stays within fifty BPM of the
    selected song's tempo. *)
Theorem sliders_stay_in_range (E : Env) (es : list Latest.Event) :
  Latest.feasible E es Latest.initialSys = true ->
  let c := st (Latest.run E es Latest.initialSys) in
  (-12 <= pitchSemitones c <= 12)%Z
  /\ (forall song, selectedSong c = Some song ->
        baseBpm c = tempo song
        /\ (tempo song - 50 <= bpm c <= tempo song + 50)%Z).
Proof.
  intros Hfeas. cbv zeta.
  assert (H0 : slidersInRange (st Latest.initialSys)).
  { split; [intros H; exfalso; apply H; reflexivity|cbn; lia]. }
  destruct (feasible_slidersInRange E es _ H0 Hfeas) as (Hb & Hp).
  split; [exact Hp|]. intros song Hsong.
  pose proof (reachable_baseIsSongTempo E es song Hsong) as Hbase.
  split; [exact Hbase|]. rewrite <- Hbase. apply Hb. rewrite Hsong.
  discriminate.
Qed.

Lemma sliders_stay_in_range_witness :
  Latest.feasible Scenario.env
    [Latest.SelectSong Scenario.thisLove; Latest.TimerFires; Latest.PlayClick;
     Latest.ChangeBpm 120]
    Latest.initialSys = true
  /\ (-12 <= pitchSemitones (st (Scenario.retimed 120)) <= 12)%Z.
Proof.
  assert (Hfeas : Latest.feasible Scenario.env
            [Latest.SelectSong Scenario.thisLove; Latest.TimerFires;
             Latest.PlayClick; Latest.ChangeBpm 120]
            Latest.initialSys = true) by (vm_compute; reflexivity).
  split; [exact Hfeas|].
  exact (proj1 (sliders_stay_in_range Scenario.env
                  [Latest.SelectSong Scenario.thisLove; Latest.TimerFires;
                   Latest.PlayClick; Latest.ChangeBpm 120] Hfeas)).
Defined.

Lemma tempoRatio_bounds (b t : Z) :
  (50 < t)%Z -> (t - 50 <= b <= t + 50)%Z ->
  (0 < IZR b / IZR t < 2)%R.
Proof.
  intros Ht (Hlo & Hhi).
  apply IZR_lt in Ht. apply IZR_le in Hlo, Hhi.
  rewrite minus_IZR in Hlo. rewrite plus_IZR in Hhi.
  assert (Htpos : (0 < IZR t)%R) by lra.
  split.
  - apply Rdiv_lt_0_compat; lra.
  - apply (Rmult_lt_reg_r (IZR t)); [exact Htpos|].
    unfold Rdiv. rewrite Rmult_assoc, Rinv_l by lra. lra.
Qed.

Lemma pitchRatio_bounds (p : Z) :
  (-12 <= p <= 12)%Z ->
  (/ 2 <= Rpower 2 (IZR p / 12) <= 2)%R.
Proof.
  intros (Hlo & Hhi). apply IZR_le in Hlo, Hhi.
  assert (Hx : (Ropp 1 <= IZR p / 12 <= 1)%R) by lra.
  assert (H2 : Rpower 2 1 = 2%R) by (apply Rpower_1; lra).
  split.
  - replace (/ 2)%R with (Rpower 2 (Ropp 1)).
    + apply Rle_Rpower; lra.
    + rewrite Rpower_Ropp, H2. reflexivity.
  - rewrite <- H2 at 2. apply Rle_Rpower; lra.
Qed.

(** X16: after any run of events the user can cause, with a song faster
    than 50 BPM selected, every render of a render pass is made at a tempo
    ratio strictly between 0 and 2 and a pitch ratio between one half and
    2. *)
Theorem ratios_bounded (E : Env) (es : list Latest.Event) (song : Song) :
  Latest.feasible E es Latest.initialSys = true ->
  let s := Latest.run E es Latest.initialSys in
  selectedSong (st s) = Some song ->
  (50 < tempo song)%Z ->
  Forall (fun k => (0 < call_tempo k < 2)%R /\ (/ 2 <= call_pitch k <= 2)%R)
    (skipn (List.length (engineCalls (wd s)))
       (engineCalls (wd (exec (Latest.processAllTracks E (st s)) s)))).
Proof.
  intros Hfeas. cbv zeta. intros Hsong Hfast.
  assert (H0 : slidersInRange (st Latest.initialSys)).
  { split; [intros H; exfalso; apply H; reflexivity|cbn; lia]. }
  destruct (feasible_slidersInRange E es _ H0 Hfeas) as (Hb & Hp).
  pose proof (reachable_baseIsSongTempo E es song Hsong) as Hbase.
  assert (Hsel : selectedSong (st (Latest.run E es Latest.initialSys)) <> None)
    by (rewrite Hsong; discriminate).
  specialize (Hb Hsel).
  destruct (Latest_ratios E (st (Latest.run E es Latest.initialSys))
              (Latest.run E es Latest.initialSys)) as (calls0 & Heq & Hall).
  rewrite Heq, skipn_app, skipn_all, Nat.sub_diag. cbn [skipn app].
  eapply Forall_impl; [|exact Hall].
  intros k (-> & ->). split.
  - apply tempoRatio_bounds; [rewrite Hbase; exact Hfast|exact Hb].
  - apply pitchRatio_bounds. exact Hp.
Qed.

Lemma ratios_bounded_witness :
  Latest.feasible Scenario.env
    [Latest.SelectSong Scenario.thisLove; Latest.TimerFires; Latest.PlayClick;
     Latest.ChangeBpm 120]
    Latest.initialSys = true
  /\ selectedSong
       (st (Latest.run Scenario.env
              [Latest.SelectSong Scenario.thisLove; Latest.TimerFires;
               Latest.PlayClick; Latest.ChangeBpm 120]
              Latest.initialSys)) = Some Scenario.thisLove
  /\ (50 < tempo Scenario.thisLove)%Z
  /\ Forall (fun k => (0 < call_tempo k < 2)%R
                      /\ (/ 2 <= call_pitch k <= 2)%R)
       (skipn
          (List.length
             (engineCalls
                (wd (Latest.run Scenario.env
                       [Latest.SelectSong Scenario.thisLove;
                        Latest.TimerFires; Latest.PlayClick;
                        Latest.ChangeBpm 120]
                       Latest.initialSys))))
          (engineCalls
             (wd (exec (Latest.processAllTracks Scenario.env
                          (st (Latest.run Scenario.env
                                 [Latest.SelectSong Scenario.thisLove;
                                  Latest.TimerFires; Latest.PlayClick;
                                  Latest.ChangeBpm 120]
                                 Latest.initialSys)))
                    (Latest.run Scenario.env
                       [Latest.SelectSong Scenario.thisLove;
                        Latest.TimerFires; Latest.PlayClick;
                        Latest.ChangeBpm 120]
                       Latest.initialSys))))).
Proof.
  assert (Hfeas : Latest.feasible Scenario.env
            [Latest.SelectSong Scenario.thisLove; Latest.TimerFires;
             Latest.PlayClick; Latest.ChangeBpm 120]
            Latest.initialSys = true) by (vm_compute; reflexivity).
  assert (Hsong : selectedSong
            (st (Latest.run Scenario.env
                   [Latest.SelectSong Scenario.thisLove; Latest.TimerFires;
                    Latest.PlayClick; Latest.ChangeBpm 120]
                   Latest.initialSys)) = Some Scenario.thisLove)
    by reflexivity.
  assert (Hfast : (50 < tempo Scenario.thisLove)%Z)
    by (vm_compute; reflexivity).
  split; [exact Hfeas|]. split; [exact Hsong|]. split; [exact Hfast|].
  exact (ratios_bounded Scenario.env
           [Latest.SelectSong Scenario.thisLove; Latest.TimerFires;
            Latest.PlayClick; Latest.ChangeBpm 120]
           Scenario.thisLove Hfeas Hsong Hfast).
Defined.

(** ** The Tone.Players prototype *)

(** X17: in the Tone.Players prototype a mute toggle starts and stops
    nothing: it sets the chosen player's [mute] at once to the negation of
    the hook, leaves every other player alone and keeps [isPlaying]; two
    toggles of one stem restore the hook; and every handler keeps the
    players' flags equal to the hook once they are. *)
Theorem Players_toggleMute_acts_live (s : Players.State)
  (ps : TrackName -> Players.Player) (track : TrackName) :
  Players.players s = Some ps ->
  (exists ps',
     Players.players (Players.toggleMute s track) = Some ps'
     /\ (forall t, Players.voices (ps' t) = Players.voices (ps t))
     /\ Players.mute (ps' track) = negb (Players.muteStates s track)
     /\ (forall t, t <> track -> Players.mute (ps' t) = Players.mute (ps t)))
  /\ Players.isPlaying (Players.toggleMute s track) = Players.isPlaying s
  /\ (forall t,
        Players.muteStates
          (Players.toggleMute (Players.toggleMute s track) track) t
        = Players.muteStates s t)
  /\ (playersSynced s ->
      playersSynced (Players.toggleMute s track)
      /\ playersSynced (Players.handlePlay s)
      /\ playersSynced (Players.handleStop s)).
Proof.
  intros Hps. split; [|split; [|split]].
  - unfold Players.toggleMute. rewrite Hps. eexists. split; [reflexivity|].
    unfold Players.setMute. split; [|split].
    + intros t. destruct (TrackName_eqb t track); reflexivity.
    + replace (TrackName_eqb track track) with true
        by (destruct track; reflexivity).
      reflexivity.
    + intros t Hne. destruct (TrackName_eqb t track) eqn:Et; [|reflexivity].
      apply TrackName_eqb_eq in Et. contradiction.
  - unfold Players.toggleMute. rewrite Hps. reflexivity.
  - intros t. unfold Players.toggleMute. rewrite Hps. cbn.
    destruct (TrackName_eqb t track) eqn:Et; [|reflexivity].
    replace (TrackName_eqb track track) with true
      by (destruct track; reflexivity).
    rewrite negb_involutive. apply TrackName_eqb_eq in Et. subst t.
    reflexivity.
  - unfold playersSynced, Players.toggleMute, Players.handlePlay,
      Players.handleStop.
    rewrite Hps. intros Hsync. cbn. split; [|split].
    + intros t. unfold Players.setMute.
      destruct (TrackName_eqb t track); [reflexivity|apply Hsync].
    + intros t. rewrite <- Hsync. destruct t; reflexivity.
    + intros t. apply Hsync.
Qed.

Lemma Players_toggleMute_acts_live_witness :
  Players.players (Players.mkState (Some Scenario.somePlayers) true
                     (fun _ => false)) = Some Scenario.somePlayers
  /\ Players.isPlaying
       (Players.toggleMute
          (Players.mkState (Some Scenario.somePlayers) true (fun _ => false))
          drums) = true.
Proof.
  split; [reflexivity|].
  exact (proj1 (proj2 (Players_toggleMute_acts_live
                         (Players.mkState (Some Scenario.somePlayers) true
                            (fun _ => false))
                         Scenario.somePlayers drums eq_refl))).
Defined.

(** ** The dirty flag *)

Lemma Latest_selectSong_hooks E s song (b : TrackName -> AudioBuffer) :
  (forall t, decodeAudioData E song t = Some (b t)) ->
  let s1 := exec (Latest.selectSong E (st s) song) s in
  pitchSemitones (st s1) = pitchSemitones (st s)
  /\ lastProcessedBpm (st s1) = Some (tempo song)
  /\ lastProcessedPitch (st s1) = 0%Z
  /\ ((forall old, selectedSong (st s) = Some old ->
         Song_eqb old song = false) ->
      bpm (st s1) = tempo song)
  /\ ((exists old, selectedSong (st s) = Some old
                   /\ Song_eqb old song = true) ->
      bpm (st s1) = bpm (st s)).
Proof.
  intros Hd. cbv zeta.
  unfold Latest.selectSong, Latest.loadBuffers, Latest.songEffects, trackNames.
  cbn [forEach]. unfold loadTrack. rewrite !Hd.
  destruct (selectedSong (st s)) as [old|] eqn:Hsel;
    [destruct (Song_eqb old song) eqn:Heq|].
  - repeat split. intros Hnew. specialize (Hnew old eq_refl). congruence.
  - repeat split. intros (old' & [= <-] & Heq'). congruence.
  - repeat split. intros (old' & Hold & _). discriminate Hold.
Qed.

(** X18: after a load that goes through, the next play request needs
    processing exactly when the tempo slider is off the new song's tempo or
    the pitch slider is off zero.  The load leaves the pitch slider where it
    was, and sets the tempo slider to the song's tempo only when the
    selection changed. *)
Theorem dirty_after_load (E : Env) (s : Sys) (song : Song)
  (b : TrackName -> AudioBuffer) :
  (forall t, decodeAudioData E song t = Some (b t)) ->
  let s1 := exec (Latest.selectSong E (st s) song) s in
  (Latest.needsProcessing (st s1) = false <->
     bpm (st s1) = tempo song /\ pitchSemitones (st s) = 0%Z)
  /\ pitchSemitones (st s1) = pitchSemitones (st s)
  /\ ((forall old, selectedSong (st s) = Some old ->
         Song_eqb old song = false) ->
      bpm (st s1) = tempo song)
  /\ ((exists old, selectedSong (st s) = Some old
                   /\ Song_eqb old song = true) ->
      bpm (st s1) = bpm (st s)).
Proof.
  intros Hd. cbv zeta.
  pose proof (Latest_selectSong_hooks E s song b Hd) as H. cbv zeta in H.
  destruct H as (Hp & Lb & Lp & Hnew & Hsame).
  split; [|split; [exact Hp|split; assumption]].
  rewrite needsProcessing_false, Lb, Lp, Hp. split.
  - intros ([= ->] & <-). auto.
  - intros (-> & ->). auto.
Qed.

Lemma dirty_after_load_witness :
  (forall t, decodeAudioData Scenario.env Scenario.fastSong t
             = Some (Scenario.stemBuffer t))
  /\ pitchSemitones
       (st (exec (Latest.selectSong Scenario.env (st Scenario.loadedStopped)
                    Scenario.fastSong) Scenario.loadedStopped))
     = pitchSemitones (st Scenario.loadedStopped).
Proof.
  assert (Hd : forall t, decodeAudioData Scenario.env Scenario.fastSong t
                         = Some (Scenario.stemBuffer t))
    by (intros t; reflexivity).
  split; [exact Hd|].
  exact (proj1 (proj2 (dirty_after_load Scenario.env Scenario.loadedStopped
                         Scenario.fastSong Scenario.stemBuffer Hd))).
Defined.

Lemma changeBpm_hooks c v s :
  let s1 := exec (Latest.changeBpm c v) s in
  bpm (st s1) = v
  /\ pitchSemitones (st s1) = pitchSemitones (st s)
  /\ lastProcessedBpm (st s1) = lastProcessedBpm (st s)
  /\ lastProcessedPitch (st s1) = lastProcessedPitch (st s)
  /\ isPlaying (st s1) = (if isPlaying c then false else isPlaying (st s)).
Proof.
  cbv zeta. unfold Latest.changeBpm. rewrite exec_bind.
  destruct (isPlaying c); [|repeat split].
  pose proof (handleStop_run c s) as H. cbv zeta in H.
  destruct H as (-> & _ & _ & Hp & _ & _ & _ & _ & _ & _ & _ & _ & H2 & _ & H3
                 & H4 & _).
  cbn. auto.
Qed.

Lemma changePitch_hooks c v s :
  let s1 := exec (Latest.changePitch c v) s in
  pitchSemitones (st s1) = v
  /\ bpm (st s1) = bpm (st s)
  /\ lastProcessedBpm (st s1) = lastProcessedBpm (st s)
  /\ lastProcessedPitch (st s1) = lastProcessedPitch (st s)
  /\ isPlaying (st s1) = (if isPlaying c then false else isPlaying (st s)).
Proof.
  cbv zeta. unfold Latest.changePitch. rewrite exec_bind.
  destruct (isPlaying c); [|repeat split].
  pose proof (handleStop_run c s) as H. cbv zeta in H.
  destruct H as (-> & _ & _ & Hp & _ & _ & _ & _ & _ & _ & _ & H1 & _ & _ & H3
                 & H4 & _).
  cbn. auto.
Qed.

(** X19: from a state that needs no processing, moving the tempo slider
    makes the next play request need processing exactly when the new value
    differs from the old one, and likewise for the pitch slider; moving a
    slider away and back leaves nothing to process.  Either move ends with
    [isPlaying] clear. *)
Theorem sliders_mark_dirty (s : Sys) (v : Z) :
  Latest.needsProcessing (st s) = false ->
  let viaBpm := exec (Latest.changeBpm (st s) v) s in
  let viaPitch := exec (Latest.changePitch (st s) v) s in
  (Latest.needsProcessing (st viaBpm) = true <-> v <> bpm (st s))
  /\ (Latest.needsProcessing (st viaPitch) = true
      <-> v <> pitchSemitones (st s))
  /\ Latest.needsProcessing
       (st (exec (Latest.changeBpm (st viaBpm) (bpm (st s))) viaBpm)) = false
  /\ Latest.needsProcessing
       (st (exec (Latest.changePitch (st viaPitch) (pitchSemitones (st s)))
              viaPitch)) = false
  /\ isPlaying (st viaBpm) = false /\ isPlaying (st viaPitch) = false.
Proof.
  intros Hclean. cbv zeta.
  apply needsProcessing_false in Hclean. destruct Hclean as (Lb & Lp).
  pose proof (changeBpm_hooks (st s) v s) as Hb. cbv zeta in Hb.
  destruct Hb as (B1 & B2 & B3 & B4 & B5).
  pose proof (changePitch_hooks (st s) v s) as Hp. cbv zeta in Hp.
  destruct Hp as (P1 & P2 & P3 & P4 & P5).
  split; [|split; [|split; [|split; [|split]]]].
  - rewrite needsProcessing_spec, B1, B2, B3, B4, Lb, Lp. split.
    + intros [H|[(last & [= <-] & H)|H]]; [discriminate|congruence|congruence].
    + intros Hne. right. left. exists (bpm (st s)). split; congruence.
  - rewrite needsProcessing_spec, P1, P2, P3, P4, Lb, Lp. split.
    + intros [H|[(last & [= <-] & H)|H]]; [discriminate|congruence|congruence].
    + intros Hne. right. right. congruence.
  - apply needsProcessing_false.
    pose proof (changeBpm_hooks (st (exec (Latest.changeBpm (st s) v) s))
                  (bpm (st s)) (exec (Latest.changeBpm (st s) v) s)) as H.
    cbv zeta in H. destruct H as (-> & -> & -> & -> & _).
    rewrite B2, B3, B4. auto.
  - apply needsProcessing_false.
    pose proof (changePitch_hooks (st (exec (Latest.changePitch (st s) v) s))
                  (pitchSemitones (st s))
                  (exec (Latest.changePitch (st s) v) s)) as H.
    cbv zeta in H. destruct H as (-> & -> & -> & -> & _).
    rewrite P2, P3, P4. auto.
  - rewrite B5. destruct (isPlaying (st s)); reflexivity.
  - rewrite P5. destruct (isPlaying (st s)); reflexivity.
Qed.

Lemma sliders_mark_dirty_witness :
  Latest.needsProcessing (st Scenario.loadedStopped) = false
  /\ (Latest.needsProcessing
        (st (exec (Latest.changeBpm (st Scenario.loadedStopped) 120)
               Scenario.loadedStopped)) = true
      <-> 120%Z <> bpm (st Scenario.loadedStopped)).
Proof.
  assert (Hclean : Latest.needsProcessing (st Scenario.loadedStopped) = false)
    by (vm_compute; reflexivity).
  split; [exact Hclean|].
  exact (proj1 (sliders_mark_dirty Scenario.loadedStopped 120 Hclean)).
Defined.
